(** * ultrameme: the route finder (src/lib/routeFinder.ts, src/lib/googleMaps.ts)

    A shallow embedding of the route-search engine and of the helpers it
    imports.  JavaScript numbers that hold measurements (coordinates,
    distances, scores) are rendered as real numbers, with [Infinity] added
    where the code produces it; rounding and NaN are not represented,
    except in [Double], where [haversineDistance] is written once more on
    IEEE 754 doubles.
    Counters and stop counts are integers.  Strings are ASCII strings.

    [Math.sin], [Math.cos], [Math.sqrt], [Math.abs], [Math.floor] and
    [Math.PI] are the functions of the real-number library;
    [Math.atan2] is written out below from its ECMAScript description.

    The embedding follows the current route finder (greedy nearest
    neighbour with randomization).  Logging and the progress callback have
    no effect on what is computed and are left out, as is the value
    [currentAvgSegmentM], which the generator computes and never reads.
    Calls that leave the program (places search, place details, directions)
    and the draws of [Math.random] are fields of a [World].

    Beside the route finder the file embeds the validation of a location
    (src/lib/googleMaps.ts), the scoring functions of the earlier beam
    search, the state updates of the route planner
    (src/hooks/useRoutePlanner.ts) with the drop handler of the waypoint
    list, and the text rewriting of the shared URL
    (src/lib/urlEncoding.ts). *)

From Stdlib Require Import Reals Lra Lia ZArith List String Ascii Bool.
From Stdlib Require Import Permutation DecimalString Sorted DecimalPos DecimalZ.
From Stdlib Require Floats.
Import ListNotations.

Local Open Scope R_scope.

(** ** Numbers *)

Module JSMath.

(** [Math.atan2(y, x)]: the angle of the point (x, y), in (-PI, PI]. *)
Definition atan2 (y x : R) : R :=
  if Rlt_dec 0 x then atan (y / x)
  else if Rlt_dec x 0 then
    (if Rle_dec 0 y then atan (y / x) + PI else atan (y / x) - PI)
  else if Rlt_dec 0 y then PI / 2
  else if Rlt_dec y 0 then - (PI / 2)
  else 0.

(** Boolean comparisons of numbers, as the conditions of the code use them. *)
Definition ltb (a b : R) : bool := if Rlt_dec a b then true else false.
Definition leb (a b : R) : bool := if Rle_dec a b then true else false.

End JSMath.

(** A number that may be [Infinity]: penalties, scores and the running best
    distance of the verification loop. *)
Inductive number : Type :=
| Fin (r : R)
| Infinity.

Module Num.

Definition add (a b : number) : number :=
  match a, b with
  | Fin x, Fin y => Fin (x + y)
  | _, _ => Infinity
  end.

(** [w * a] for a finite weight [w]; every weight of the code is positive,
    so [w * Infinity] is [Infinity]. *)
Definition scale (w : R) (a : number) : number :=
  match a with
  | Fin x => Fin (w * x)
  | Infinity => Infinity
  end.

(** [a / d] for a finite positive divisor. *)
Definition div (a : number) (d : R) : number :=
  match a with
  | Fin x => Fin (x / d)
  | Infinity => Infinity
  end.

(** [a < b]. *)
Definition ltb (a b : number) : bool :=
  match a, b with
  | Fin x, Fin y => JSMath.ltb x y
  | Fin _, Infinity => true
  | Infinity, _ => false
  end.

(** [a <= b]. *)
Definition leb (a b : number) : bool :=
  match a, b with
  | Fin x, Fin y => JSMath.leb x y
  | _, Infinity => true
  | Infinity, Fin _ => false
  end.

(** The comparator [(a, b) => a - b] puts [b] first only when the
    difference is positive; [Infinity - Infinity] is NaN, which a sort
    treats as zero. *)
Definition cmp_keeps (a b : number) : bool :=
  match a, b with
  | Fin x, Fin y => JSMath.leb x y
  | Infinity, Fin _ => false
  | _, Infinity => true
  end.

(** [Math.abs(a - t)] for a finite [t]. *)
Definition absdiff (a : number) (t : R) : number :=
  match a with
  | Fin x => Fin (Rabs (x - t))
  | Infinity => Infinity
  end.

End Num.

(** ** Data model (src/types/index.ts) *)

Record TacoBellLocation : Type := mkTB {
  lat : R;
  lng : R;
  address : string;
  placeId : string;
  name : string
}.

Record RouteFinderConfig : Type := mkConfig {
  minDistanceMeters : R;
  maxDistanceMeters : R;
  minTacoBells : Z;
  maxTacoBells : Z;
  searchRadiusMiles : R;
  maxApiCalls : option Z
}.

Record RouteCandidate : Type := mkCand {
  stops : list TacoBellLocation;
  totalDistance : R;
  score : number
}.

(** [RouteFinderResult]: the optional fields are absent when [None]. *)
Record RouteFinderResult : Type := mkResult {
  success : bool;
  route : option (list TacoBellLocation);
  resultDistance : option number;
  error : option string
}.

(** ** Geodesic distance (src/lib/googleMaps.ts) *)

Definition haversineDistance (lat1 lng1 lat2 lng2 : R) : R :=
  let R0 := 6371000 in
  let dLat := (lat2 - lat1) * PI / 180 in
  let dLng := (lng2 - lng1) * PI / 180 in
  let a := sin (dLat / 2) * sin (dLat / 2) +
           cos (lat1 * PI / 180) * cos (lat2 * PI / 180) *
           sin (dLng / 2) * sin (dLng / 2) in
  let c := 2 * JSMath.atan2 (sqrt a) (sqrt (1 - a)) in
  R0 * c.

(** The haversine term [a] of the formula, named for the statements. *)
Definition haversine_a (lat1 lng1 lat2 lng2 : R) : R :=
  let dLat := (lat2 - lat1) * PI / 180 in
  let dLng := (lng2 - lng1) * PI / 180 in
  sin (dLat / 2) * sin (dLat / 2) +
  cos (lat1 * PI / 180) * cos (lat2 * PI / 180) *
  sin (dLng / 2) * sin (dLng / 2).


(** ** Strings and arrays of the JavaScript library *)

(** A computation that returns or throws an [Error] with a message. *)
Inductive result (A : Type) : Type :=
| Ok (a : A)
| Throw (message : string).
Arguments Ok {A} a.
Arguments Throw {A} message.

Module JS.

Local Open Scope string_scope.

(** [s.includes(sub)] *)
Fixpoint includes (s sub : string) : bool :=
  String.prefix sub s ||
  match s with
  | EmptyString => false
  | String _ rest => includes rest sub
  end.

Definition lower (c : ascii) : ascii :=
  let n := nat_of_ascii c in
  if ((65 <=? n) && (n <=? 90))%nat then ascii_of_nat (n + 32) else c.

(** [s.toLowerCase()] *)
Fixpoint toLowerCase (s : string) : string :=
  match s with
  | EmptyString => EmptyString
  | String c rest => String (lower c) (toLowerCase rest)
  end.

Definition isSpace (c : ascii) : bool :=
  let n := nat_of_ascii c in
  ((n =? 32) || ((9 <=? n) && (n <=? 13)))%nat.

Fixpoint trimStart (s : string) : string :=
  match s with
  | String c rest => if isSpace c then trimStart rest else s
  | EmptyString => EmptyString
  end.

Fixpoint trimEnd (s : string) : string :=
  match s with
  | EmptyString => EmptyString
  | String c rest =>
      match trimEnd rest with
      | EmptyString => if isSpace c then EmptyString else String c EmptyString
      | t => String c t
      end
  end.

(** [s.trim()] *)
Definition trim (s : string) : string := trimEnd (trimStart s).

(** A template literal prints an integer in decimal. *)
Definition string_of_Z (z : Z) : string := NilZero.string_of_int (Z.to_int z).

(** [l.join(sep)] *)
Definition join (sep : string) (l : list string) : string := String.concat sep l.

(** [Array.prototype.sort] is stable: [keeps a b] says that the comparator
    does not ask for [b] before [a]. *)
Fixpoint insertBy {A : Type} (keeps : A -> A -> bool) (x : A) (l : list A) : list A :=
  match l with
  | [] => [x]
  | y :: rest => if keeps x y then x :: y :: rest else y :: insertBy keeps x rest
  end.

Definition sortBy {A : Type} (keeps : A -> A -> bool) (l : list A) : list A :=
  fold_right (insertBy keeps) [] l.

(** [l.slice(0, -1)] and [l.slice(1, -1)] *)
Definition dropLast {A : Type} (l : list A) : list A := removelast l.
Definition interior {A : Type} (l : list A) : list A := removelast (tl l).

(** [l[i]] for a number [i]; [None] is [undefined]. *)
Definition at_index {A : Type} (l : list A) (i : Z) : option A :=
  if (i <? 0)%Z then None else nth_error l (Z.to_nat i).

End JS.

(** ** The outside world

    The collaborators of the search, and the two sources of chance of the
    generator.  [random k] is the value of the [k]-th call of
    [Math.random()].  [sortRandomly k l] is
    [[...l].sort(() => Math.random() - 0.5)] started at draw [k]: the
    array it leaves and the next draw; which array that is depends on the
    engine.  [calculateRoute n] is the [n]-th request to the directions
    service.  [extractAddressFromPlace] is imported by the route finder
    from googleMaps.ts, whose text at hand does not define it; it only
    decides the [address] of an entry. *)

Record Place : Type := mkPlace {
  place_id : string;
  place_name : string;
  formatted_address : option string;
  geometry : option (R * R);
  types : option (list string)
}.

Record PlaceDetails : Type := mkDetails {
  d_place_id : string;
  d_name : string;
  d_formatted_address : string;
  d_location : R * R;
  d_vicinity : option string;
  d_address_components : option (list (string * list string))
}.

(** [directions.routes]: for each route the [distance.value] of its legs. *)
Record DirectionsResponse : Type := mkDirections {
  routes : option (list (list R))
}.

Record World : Type := mkWorld {
  random : nat -> R;
  sortRandomly : nat -> list TacoBellLocation -> list TacoBellLocation * nat;
  searchNearbyPlaces : R * R -> R -> string -> result (list Place);
  getPlaceDetails : string -> result PlaceDetails;
  extractAddressFromPlace : PlaceDetails -> string;
  calculateRoute : nat -> TacoBellLocation -> TacoBellLocation ->
                   list TacoBellLocation -> result DirectionsResponse
}.

(** One engine's [sort] with the random comparator: insertion from the
    right, one draw for each comparison; a negative value of
    [Math.random() - 0.5] keeps the inserted element in front. *)
Fixpoint insertRandomly (rnd : nat -> R) (k : nat) (x : TacoBellLocation)
    (l : list TacoBellLocation) : list TacoBellLocation * nat :=
  match l with
  | [] => ([x], k)
  | y :: rest =>
      if JSMath.ltb (rnd k - 0.5) 0 then (x :: y :: rest, S k)
      else let (l', k') := insertRandomly rnd (S k) x rest in (y :: l', k')
  end.

Fixpoint insertionShuffle (rnd : nat -> R) (k : nat) (l : list TacoBellLocation)
    : list TacoBellLocation * nat :=
  match l with
  | [] => ([], k)
  | x :: rest =>
      let (sorted, k') := insertionShuffle rnd k rest in
      insertRandomly rnd k' x sorted
  end.

(** ** Route scorer (src/lib/routeFinder.ts) *)

Definition distanceBetween (a b : TacoBellLocation) : R :=
  haversineDistance (lat a) (lng a) (lat b) (lng b).

(** The distances the loops over [i < route.length - 1] visit. *)
Fixpoint segmentDistances (route : list TacoBellLocation) : list R :=
  match route with
  | a :: (b :: _) as rest => distanceBetween a b :: segmentDistances rest
  | _ => []
  end.

Definition sum (l : list R) : R := fold_left Rplus l 0.

Definition routeDistance (route : list TacoBellLocation) : R :=
  if (List.length route <? 2)%nat then 0 else sum (segmentDistances route).

Definition loopnessPenalty (route : list TacoBellLocation) : number :=
  match route with
  | start :: _ :: _ => Fin (distanceBetween start (last route start))
  | _ => Infinity
  end.

Definition calculateSegmentSpacingVariance (route : list TacoBellLocation) : number :=
  if (List.length route <? 2)%nat then Infinity
  else
    let segs := segmentDistances route in
    if (List.length segs =? 0)%nat then Infinity
    else
      let mean := sum segs / INR (List.length segs) in
      let variance := sum (map (fun d => (d - mean) ^ 2) segs) / INR (List.length segs) in
      let stdDev := sqrt variance in
      if JSMath.ltb 0 mean then Fin (stdDev / mean * 1000) else Infinity.

Definition scoreRoute (route : list TacoBellLocation) (targetRoadKm : R)
    (loopPenaltyWeight spacingVarianceWeight roadDistanceMultiplier : R)
    : R * number :=
  let haversineDist := routeDistance route in
  let haversineKm := haversineDist / 1000 in
  let estimatedRoadKm := haversineKm * roadDistanceMultiplier in
  let distanceDiff := Rabs (estimatedRoadKm - targetRoadKm) in
  let loopPenalty := Num.div (loopnessPenalty route) 1000 in
  let spacingVariance := calculateSegmentSpacingVariance route in
  let score := Num.add (Num.add (Fin distanceDiff)
                                (Num.scale loopPenaltyWeight loopPenalty))
                       (Num.scale spacingVarianceWeight spacingVariance) in
  (haversineDist, score).

(** ** Candidate route generator (src/lib/routeFinder.ts) *)

Record Scored : Type := mkScored {
  tb : TacoBellLocation;
  distance : R;
  balanceScore : R
}.

(** The arrays of one call of the generator, and the draws used so far. *)
Record GenState : Type := mkGen {
  gen_routes : list RouteCandidate;
  seenRoutes : list string;
  draws : nat
}.

Section Generator.

Variable W : World.
Variable start : TacoBellLocation.
Variable targetKm : R.
Variable nStops : Z.

(** [route.some(tb => tb.placeId === candidate.placeId)] *)
Definition inRoute (route : list TacoBellLocation) (candidate : TacoBellLocation) : bool :=
  existsb (fun tb => String.eqb (placeId tb) (placeId candidate)) route.

Definition targetAvgSegmentM : R :=
  let targetTotalHaversineKm := targetKm / 1.18 * 0.9 in
  let targetAvgSegmentKm := targetTotalHaversineKm / IZR nStops in
  targetAvgSegmentKm * 1000.

(** The [candidates] array of one step: the stops of [shuffled] not yet in
    the route, with their distance from the last stop. *)
Definition scoreCandidates (shuffled route : list TacoBellLocation) : list Scored :=
  let last := List.last route start in
  map (fun candidate =>
         let distance := distanceBetween last candidate in
         mkScored candidate distance (Rabs (distance - targetAvgSegmentM)))
      (filter (fun candidate => negb (inRoute route candidate)) shuffled).

(** The two sorts of a step, with the combined score written in between. *)
Definition rankCandidates (candidates : list Scored) : list Scored :=
  let byDistance :=
    JS.sortBy (fun a b => JSMath.leb (distance a) (distance b)) candidates in
  let combined :=
    map (fun c =>
           let normalizedBalance := balanceScore c / targetAvgSegmentM in
           let normalizedDistance := distance c / targetAvgSegmentM in
           mkScored (tb c) (distance c)
                    (0.7 * normalizedDistance + 0.3 * normalizedBalance))
        byDistance in
  JS.sortBy (fun a b => JSMath.leb (balanceScore a) (balanceScore b)) combined.

(** The choice among the ranked candidates; the first draw is always made,
    the second only in the [else] branch. *)
Definition selectCandidate (candidates : list Scored) (k : nat) : option Scored * nat :=
  if JSMath.ltb (random W k) 0.7 || (List.length candidates =? 1)%nat
  then (nth_error candidates 0, S k)
  else
    let topK := Nat.min 3 (List.length candidates) in
    let randomIndex := Zfloor (random W (S k) * INR topK) in
    (JS.at_index candidates randomIndex, S (S k)).

(** [while (route.length < nStops)]: [remaining] is [nStops - route.length];
    a pass either leaves by [break] or pushes one stop.  Reading [.tb] of
    an undefined selection throws. *)
Fixpoint extendRoute (remaining : nat) (shuffled route : list TacoBellLocation)
    (k : nat) : result (list TacoBellLocation) * nat :=
  match remaining with
  | O => (Ok route, k)
  | S n =>
      let candidates := scoreCandidates shuffled route in
      if (List.length candidates =? 0)%nat then (Ok route, k)
      else
        match selectCandidate (rankCandidates candidates) k with
        | (Some selected, k') => extendRoute n shuffled (route ++ [tb selected]) k'
        | (None, k') => (Throw "Cannot read properties of undefined", k')
        end
  end.

Definition closeLoop (route : list TacoBellLocation) : list TacoBellLocation :=
  if (1 <? List.length route)%nat &&
     negb (String.eqb (placeId (List.last route start)) (placeId start))
  then route ++ [start] else route.

Definition routeSignature (route : list TacoBellLocation) : string :=
  JS.join "," (JS.sortBy String.leb (map placeId (JS.interior route))).

(** One pass of the [for] loop over [iter]. *)
Definition attempt (nearby : list TacoBellLocation) (st : GenState)
    : result GenState * nat :=
  let (shuffled, k1) := sortRandomly W (draws st) nearby in
  match extendRoute (Z.to_nat (nStops - 1)) shuffled [start] k1 with
  | (Throw e, k2) => (Throw e, k2)
  | (Ok built, k2) =>
      let route := closeLoop built in
      let signature := routeSignature route in
      if existsb (String.eqb signature) (seenRoutes st)
      then (Ok (mkGen (gen_routes st) (seenRoutes st) k2), k2)
      else
        let seen := seenRoutes st ++ [signature] in
        let haversineDist := routeDistance route in
        let estimatedRoadKm := haversineDist / 1000 * 1.18 in
        if JSMath.ltb (targetKm * 1.1) estimatedRoadKm
        then (Ok (mkGen (gen_routes st) seen k2), k2)
        else
          let (totalDistance, score) := scoreRoute route targetKm 0.5 0.2 1.18 in
          (Ok (mkGen (gen_routes st ++ [mkCand route totalDistance score]) seen k2), k2)
  end.

Fixpoint iterate (iterations : nat) (nearby : list TacoBellLocation) (st : GenState)
    : result GenState * nat :=
  match iterations with
  | O => (Ok st, draws st)
  | S n =>
      match attempt nearby st with
      | (Ok st', _) => iterate n nearby st'
      | (Throw e, k) => (Throw e, k)
      end
  end.

Definition nearbyOf (allTacoBells : list TacoBellLocation) : list TacoBellLocation :=
  filter (fun tb =>
            let distance := distanceBetween start tb in
            JSMath.leb distance 24140 &&
            negb (String.eqb (placeId tb) (placeId start)))
         allTacoBells.

(** The generator, started at draw [k]: what it returns or throws, and the
    next draw. *)
Definition generateCandidateRoutes (allTacoBells : list TacoBellLocation)
    (iterations : nat) (k : nat) : result (list RouteCandidate) * nat :=
  let nearby := nearbyOf allTacoBells in
  if (Z.of_nat (List.length nearby) <? nStops - 1)%Z
  then (Throw ("Not enough Taco Bells nearby! Found " ++
               JS.string_of_Z (Z.of_nat (List.length nearby)) ++
               ", need at least " ++ JS.string_of_Z (nStops - 1)), k)
  else
    match iterate iterations nearby (mkGen [] [] k) with
    | (Ok st, k') =>
        (Ok (JS.sortBy (fun a b => Num.cmp_keeps (score a) (score b)) (gen_routes st)), k')
    | (Throw e, k') => (Throw e, k')
    end.

End Generator.

(** ** Candidate pool builder (src/lib/routeFinder.ts) *)

Definition isTacoBell (place : Place) : bool :=
  match types place with
  | Some ts =>
      existsb (fun type => JS.includes type "restaurant" || JS.includes type "food") ts
  | None => false
  end &&
  (JS.includes (JS.toLowerCase (place_name place)) "taco bell" ||
   JS.includes (JS.toLowerCase (place_name place)) "tacobell").

(** The entry pushed for a place that passed the filter: from the details
    of the place, or from the search result when the details request
    throws. *)
Definition toTacoBell (W : World) (place : Place) (location : R * R) : TacoBellLocation :=
  match getPlaceDetails W (place_id place) with
  | Ok placeDetails =>
      let address := extractAddressFromPlace W placeDetails in
      let finalAddress :=
        if negb (String.eqb address "") && negb (String.eqb (JS.trim address) "") &&
           negb (String.eqb address (d_name placeDetails))
        then JS.trim address else ""%string in
      mkTB (fst (d_location placeDetails)) (snd (d_location placeDetails))
           finalAddress (d_place_id placeDetails) (d_name placeDetails)
  | Throw _ =>
      mkTB (fst location) (snd location) "" (place_id place) (place_name place)
  end.

Fixpoint convertPlaces (W : World) (places : list Place) : list TacoBellLocation :=
  match places with
  | [] => []
  | place :: rest =>
      match (if isTacoBell place then geometry place else None) with
      | Some location => toTacoBell W place location :: convertPlaces W rest
      | None => convertPlaces W rest
      end
  end.

Definition findTacoBells (W : World) (center : R * R) (radiusMiles : R)
    : result (list TacoBellLocation) :=
  let radiusMeters := radiusMiles * 1609.34 in
  match searchNearbyPlaces W center radiusMeters "Taco Bell" with
  | Ok places => Ok (convertPlaces W places)
  | Throw e => Throw e
  end.

(** ** Search orchestrator and verification loop (src/lib/routeFinder.ts) *)

(** The variables of the verification loop.  [requests] counts the calls of
    [calculateRoute], whether they return or throw; the code itself keeps
    only [apiCallCount]. *)
Record VerifyState : Type := mkVerify {
  bestRoute : option RouteCandidate;
  bestActualDistance : number;
  bestRouteIndex : Z;
  apiCallCount : Z;
  requests : nat
}.

Definition isNull {A : Type} (o : option A) : bool :=
  match o with
  | Some _ => false
  | None => true
  end.

(** [config.maxApiCalls || 50] *)
Definition effectiveMaxApiCalls (config : RouteFinderConfig) : Z :=
  match maxApiCalls config with
  | Some n => if (n =? 0)%Z then 50%Z else n
  | None => 50%Z
  end.

(** The stop counts the [for] loop over [nStops] visits. *)
Definition stopCounts (config : RouteFinderConfig) : list Z :=
  map (fun i => (minTacoBells config + Z.of_nat i)%Z)
      (seq 0 (Z.to_nat (maxTacoBells config - minTacoBells config + 1))).

Definition failure (errorMessage : string) : RouteFinderResult :=
  mkResult false None None (Some errorMessage).

Section Orchestrator.

Variable W : World.
Variable startTacoBell : TacoBellLocation.
Variable config : RouteFinderConfig.

Definition targetKm : R := 50.

(** What the body of the [if (directions.routes ...)] does with a verified
    distance. *)
Definition considerDistance (i : nat) (candidate : RouteCandidate)
    (totalDistance : R) (st : VerifyState) : VerifyState :=
  if JSMath.leb (minDistanceMeters config) totalDistance &&
     JSMath.leb totalDistance (maxDistanceMeters config)
  then
    if Num.ltb (Fin totalDistance) (bestActualDistance st) || isNull (bestRoute st)
    then
      let currentDiff := Rabs (totalDistance / 1000 - targetKm) in
      let bestDiff :=
        match bestRoute st with
        | Some _ => Num.absdiff (Num.div (bestActualDistance st) 1000) targetKm
        | None => Infinity
        end in
      if Num.leb (Fin currentDiff) bestDiff || isNull (bestRoute st)
      then mkVerify (Some candidate) (Fin totalDistance) (Z.of_nat i)
                    (apiCallCount st) (requests st)
      else st
    else st
  else st.

(** The [try] block of one pass of the verification loop.  A candidate
    always holds the start as its first stop, which stands for an absent
    first or last element. *)
Definition verifyCandidate (i : nat) (candidate : RouteCandidate)
    (st : VerifyState) : VerifyState :=
  let waypoints := JS.interior (stops candidate) in
  let origin := hd startTacoBell (stops candidate) in
  let destination := List.last (stops candidate) startTacoBell in
  match calculateRoute W (requests st) origin destination waypoints with
  | Throw _ =>
      mkVerify (bestRoute st) (bestActualDistance st) (bestRouteIndex st)
               (apiCallCount st) (S (requests st))
  | Ok directions =>
      let counted :=
        mkVerify (bestRoute st) (bestActualDistance st) (bestRouteIndex st)
                 (apiCallCount st + 1)%Z (S (requests st)) in
      match routes directions with
      | Some (legs :: _) => considerDistance i candidate (sum legs) counted
      | _ => counted
      end
  end.

Fixpoint verifyLoop (candidates : list RouteCandidate) (i : nat)
    (st : VerifyState) : VerifyState :=
  match candidates with
  | [] => st
  | candidate :: rest =>
      if (effectiveMaxApiCalls config <=? apiCallCount st)%Z then st
      else verifyLoop rest (S i) (verifyCandidate i candidate st)
  end.

(** The [for] loop over [nStops]: a generator call that throws adds
    nothing. *)
Fixpoint generateAll (allTacoBells : list TacoBellLocation) (counts : list Z)
    (k : nat) (candidateRoutes : list RouteCandidate) : list RouteCandidate * nat :=
  match counts with
  | [] => (candidateRoutes, k)
  | nStops :: rest =>
      match generateCandidateRoutes W startTacoBell targetKm nStops allTacoBells 200 k with
      | (Ok found, k') => generateAll allTacoBells rest k' (candidateRoutes ++ found)
      | (Throw _, k') => generateAll allTacoBells rest k' candidateRoutes
      end
  end.

Definition initialVerify : VerifyState := mkVerify None Infinity (-1) 0 0.

(** [allTacoBells] after the start has been pushed when it is missing. *)
Definition withStart (found : list TacoBellLocation) : list TacoBellLocation :=
  if existsb (fun tb => String.eqb (placeId tb) (placeId startTacoBell)) found
  then found else found ++ [startTacoBell].

Definition candidateRoutes (allTacoBells : list TacoBellLocation) : list RouteCandidate :=
  fst (generateAll allTacoBells (stopCounts config) O []).

Definition topCandidates (allTacoBells : list TacoBellLocation) : list RouteCandidate :=
  firstn 5 (candidateRoutes allTacoBells).

(** [findOptimalRoute], with the number of requests made to the directions
    service. *)
Definition findOptimalRouteTraced : RouteFinderResult * nat :=
  match findTacoBells W (lat startTacoBell, lng startTacoBell)
                      (searchRadiusMiles config) with
  | Throw errorMessage => (failure errorMessage, O)
  | Ok found =>
      if (Z.of_nat (List.length found) <? minTacoBells config)%Z
      then (failure ("Not enough Taco Bells found. Found " ++
                     JS.string_of_Z (Z.of_nat (List.length found)) ++
                     ", need at least " ++
                     JS.string_of_Z (minTacoBells config)), O)
      else
        let allTacoBells := withStart found in
        match topCandidates allTacoBells with
        | [] => (failure "No candidate routes generated", O)
        | bestEstimate :: _ =>
            let st := verifyLoop (topCandidates allTacoBells) O initialVerify in
            match bestRoute st with
            | Some best =>
                (mkResult true (Some (JS.dropLast (stops best)))
                          (Some (bestActualDistance st)) None, requests st)
            | None =>
                (mkResult true (Some (JS.dropLast (stops bestEstimate)))
                          (Some (Fin (totalDistance bestEstimate))) None, requests st)
            end
        end
  end.

Definition findOptimalRoute : RouteFinderResult := fst findOptimalRouteTraced.
Definition oracleCalls : nat := snd findOptimalRouteTraced.

End Orchestrator.

(** What a caller can read from a result: its fields. *)
Inductive FieldValue : Type :=
| VBool (b : bool)
| VNumber (n : number)
| VString (s : string)
| VRoute (l : list TacoBellLocation).

Definition fields (r : RouteFinderResult) : list (string * FieldValue) :=
  [("success"%string, VBool (success r))] ++
  match route r with Some l => [("route"%string, VRoute l)] | None => [] end ++
  match resultDistance r with Some d => [("totalDistance"%string, VNumber d)] | None => [] end ++
  match error r with Some e => [("error"%string, VString e)] | None => [] end.

(** ** Validation of a location (src/lib/googleMaps.ts) *)

(** The test that [findTacoBells] and [validateTacoBell] make on the
    [types] and the [name] of a place or of its details. *)
Definition looksLikeTacoBell (types : option (list string)) (name : string) : bool :=
  match types with
  | Some ts =>
      existsb (fun type => JS.includes type "restaurant" || JS.includes type "food") ts
  | None => false
  end &&
  (JS.includes (JS.toLowerCase name) "taco bell" ||
   JS.includes (JS.toLowerCase name) "tacobell").

(** The details of a place as [validateTacoBell] reads them: the fields
    kept in [PlaceDetails] and the optional [types]. *)
Record DetailsResponse : Type := mkDetailsResponse {
  details : PlaceDetails;
  details_types : option (list string)
}.

(** The result of a validation; [tacoBell] is absent when [None]. *)
Record Validation : Type := mkValidation {
  isValid : bool;
  tacoBell : option TacoBellLocation
}.

Definition invalid : Validation := mkValidation false None.
Definition valid (found : TacoBellLocation) : Validation := mkValidation true (Some found).

Definition fromDetails (d : PlaceDetails) : TacoBellLocation :=
  mkTB (fst (d_location d)) (snd (d_location d)) (d_formatted_address d)
       (d_place_id d) (d_name d).

(** [place.formatted_address || place.name] *)
Definition addressOrName (place : Place) : string :=
  match formatted_address place with
  | Some a => if String.eqb a "" then place_name place else a
  | None => place_name place
  end.

Definition fromPlace (place : Place) (location : R * R) : TacoBellLocation :=
  mkTB (fst location) (snd location) (addressOrName place) (place_id place)
       (place_name place).

Section Validate.

Variable W : World.
(** [getPlaceDetails], with the [types] of the answer. *)
Variable getPlaceDetailsWithTypes : string -> result DetailsResponse.

(** The [for] loop over the search results.  Reading the location of a
    result that has none throws, and the [catch] of [validateTacoBell]
    answers that the location is not valid. *)
Fixpoint firstNearby (location : R * R) (nearby : list Place) : Validation :=
  match nearby with
  | [] => invalid
  | place :: rest =>
      if isTacoBell place then
        match geometry place with
        | Some found =>
            let distance :=
              haversineDistance (fst location) (snd location) (fst found) (snd found) in
            if JSMath.ltb distance 100 then valid (fromPlace place found)
            else firstNearby location rest
        | None => invalid
        end
      else firstNearby location rest
  end.

Definition searchAndValidate (location : R * R) : Validation :=
  match searchNearbyPlaces W location 500 "Taco Bell" with
  | Ok nearby => firstNearby location nearby
  | Throw _ => invalid
  end.

(** [validateTacoBell(location, placeId)]; an absent or empty [placeId] is
    falsy. *)
Definition validateTacoBell (location : R * R) (placeId : option string) : Validation :=
  match placeId with
  | Some id =>
      if String.eqb id "" then searchAndValidate location
      else
        match getPlaceDetailsWithTypes id with
        | Ok answer =>
            if looksLikeTacoBell (details_types answer) (d_name (details answer))
            then valid (fromDetails (details answer))
            else searchAndValidate location
        | Throw _ => invalid
        end
  | None => searchAndValidate location
  end.

End Validate.

(** ** The first route finder: beam search scoring (src/lib/routeFinder.ts)

    The scoring functions of the earlier route finder of the same file,
    which searched by beam search.  They are called with Taco Bell
    locations only. *)

Module V1.

(** [Math.trunc], and the [%] operator on numbers: the remainder has the
    sign of the dividend. *)
Definition truncate (x : R) : Z :=
  if Rle_dec 0 x then Zfloor x else (- Zfloor (- x))%Z.

Definition remainder (x m : R) : R := x - m * IZR (truncate (x / m)).

Definition calculateBearing (from to : TacoBellLocation) : R :=
  let lat1 := lat from * PI / 180 in
  let lat2 := lat to * PI / 180 in
  let dLng := (lng to - lng from) * PI / 180 in
  let y := sin dLng * cos lat2 in
  let x := cos lat1 * sin lat2 - sin lat1 * cos lat2 * cos dLng in
  let bearing := JSMath.atan2 y x * 180 / PI in
  remainder (bearing + 360) 360.

(** The [gaps] array: for each index the distance to the next bearing,
    around the circle for the last one. *)
Definition gapsOf (bearings : list R) : list R :=
  let n := List.length bearings in
  map (fun i =>
         let next := nth ((i + 1) mod n) bearings 0 in
         let current := nth i bearings 0 in
         if (i =? n - 1)%nat then 360 - current + next else next - current)
      (seq 0 n).

Definition calculateAngularSpread (route : list TacoBellLocation)
    (start : TacoBellLocation) : R :=
  if (List.length route <? 2)%nat then 0
  else
    let bearings := JS.sortBy JSMath.leb (map (fun tb => calculateBearing start tb) route) in
    let gaps := gapsOf bearings in
    let idealGap := 360 / INR (List.length bearings) in
    let variance :=
      fold_left (fun sum gap => sum + (gap - idealGap) ^ 2) gaps 0
      / INR (List.length gaps) in
    let maxVariance := idealGap ^ 2 in
    1 - Rmin (variance / maxVariance) 1.

(** One pass of the loop of [calculateCircularity] over the index [i]:
    the total so far and the previous bearing. *)
Definition turn (route : list TacoBellLocation) (start : TacoBellLocation)
    (state : R * option R) (i : nat) : R * option R :=
  let (totalBearingChange, prevBearing) := state in
  let current := nth i route start in
  let next := nth ((i + 1) mod List.length route) route start in
  let bearing := calculateBearing current next in
  match prevBearing with
  | Some prev =>
      let change := bearing - prev in
      let change := if JSMath.ltb 180 change then change - 360 else change in
      let change := if JSMath.ltb change (-180) then change + 360 else change in
      (totalBearingChange + Rabs change, Some bearing)
  | None => (totalBearingChange, Some bearing)
  end.

Definition calculateCircularity (route : list TacoBellLocation)
    (start : TacoBellLocation) : R :=
  if (List.length route <? 3)%nat then 0.5
  else
    let totalBearingChange :=
      fst (fold_left (turn route start) (seq 0 (List.length route)) (0, None)) in
    let idealChange := 360 in
    let deviation := Rabs (totalBearingChange - idealChange) in
    1 - Rmin (deviation / idealChange) 1.

Definition scoreDistanceFitness (distanceMeters minMeters maxMeters : R) : R :=
  let targetMin := minMeters in
  let targetMax := maxMeters in
  let targetCenter := (targetMin + targetMax) / 2 in
  if JSMath.ltb distanceMeters targetMin then
    Rmax 0 (1 - (targetMin - distanceMeters) / targetMin)
  else if JSMath.ltb targetMax distanceMeters then
    Rmax 0 (1 - (distanceMeters - targetMax) / targetMax)
  else
    let distanceFromCenter := Rabs (distanceMeters - targetCenter) in
    let maxDistance := (targetMax - targetMin) / 2 in
    1 - distanceFromCenter / maxDistance.

Definition scoreRoute (route : list TacoBellLocation) (start : TacoBellLocation)
    (estimatedDistance minDistance maxDistance : R) : R :=
  let distanceScore := scoreDistanceFitness estimatedDistance minDistance maxDistance in
  let spreadScore := calculateAngularSpread route start in
  let circularityScore := calculateCircularity route start in
  distanceScore * 0.5 + spreadScore * 0.3 + circularityScore * 0.2.

(** The legs the loop of [estimateRouteDistance] adds up: from each stop
    to the next, and from the last stop back to the first. *)
Definition cyclicDistances (route : list TacoBellLocation) : list R :=
  match route with
  | [] => []
  | first :: _ =>
      map (fun i =>
             let current := nth i route first in
             let next := nth ((i + 1) mod List.length route) route first in
             distanceBetween current next)
          (seq 0 (List.length route))
  end.

Definition estimateRouteDistance (route : list TacoBellLocation) : R :=
  if (List.length route <? 2)%nat then 0
  else sum (cyclicDistances route) * 1.3.

End V1.

(** ** The route planner's waypoints (src/hooks/useRoutePlanner.ts)

    The state updates of the planner, as functions from the previous list
    of waypoints to the next one.  Array indices are integers. *)

Record Location : Type := mkLocation {
  loc_lat : R;
  loc_lng : R;
  loc_address : string;
  loc_name : option string
}.

Record Waypoint : Type := mkWaypoint {
  wp_id : string;
  wp_location : Location;
  wp_order : R
}.

(** [l.map((wp, index) => ({ ...wp, order: index }))], for an array whose
    first element has the index [i]. *)
Fixpoint renumberFrom (i : nat) (l : list Waypoint) : list Waypoint :=
  match l with
  | [] => []
  | wp :: rest =>
      mkWaypoint (wp_id wp) (wp_location wp) (INR i) :: renumberFrom (S i) rest
  end.

Definition renumber (l : list Waypoint) : list Waypoint := renumberFrom 0 l.

(** The same on an array that may hold [undefined], written [None]: the
    spread of [undefined] has no property, so the object made of it is
    [{ order: index }], with neither [id] nor [location]; it is written
    [None] again. *)
Fixpoint renumberSlotsFrom (i : nat) (l : list (option Waypoint))
    : list (option Waypoint) :=
  match l with
  | [] => []
  | Some wp :: rest =>
      Some (mkWaypoint (wp_id wp) (wp_location wp) (INR i))
      :: renumberSlotsFrom (S i) rest
  | None :: rest => None :: renumberSlotsFrom (S i) rest
  end.

Definition renumberSlots (l : list (option Waypoint)) : list (option Waypoint) :=
  renumberSlotsFrom 0 l.

(** [removeWaypoint(id)] *)
Definition removeWaypoint (id : string) (prev : list Waypoint) : list Waypoint :=
  let filtered := filter (fun wp => negb (String.eqb (wp_id wp) id)) prev in
  renumber filtered.

(** Where [splice] starts in an array of [len] elements when it is given
    the start index [start]. *)
Definition spliceStart (start : Z) (len : nat) : nat :=
  if (start <? 0)%Z then Z.to_nat (Z.max (Z.of_nat len + start) 0)
  else Nat.min (Z.to_nat start) len.

(** [reorderWaypoints(startIndex, endIndex)]: [removed] is the first of
    the elements that [splice(startIndex, 1)] deletes, [undefined] when it
    deletes none. *)
Definition reorderWaypoints (startIndex endIndex : Z) (prev : list Waypoint)
    : list (option Waypoint) :=
  let from := spliceStart startIndex (List.length prev) in
  let removed := nth_error prev from in
  let result := firstn from prev ++ skipn (S from) prev in
  let to := spliceStart endIndex (List.length result) in
  renumberSlots (map Some (firstn to result) ++ [removed] ++ map Some (skipn to result)).

(** [l.findIndex(test)] *)
Fixpoint findIndexFrom {A : Type} (i : Z) (test : A -> bool) (l : list A) : Z :=
  match l with
  | [] => (-1)%Z
  | x :: rest => if test x then i else findIndexFrom (i + 1)%Z test rest
  end.

Definition findIndex {A : Type} (test : A -> bool) (l : list A) : Z :=
  findIndexFrom 0%Z test l.

(** [handleDragEnd] of the waypoint list (src/components/WaypointList.tsx,
    in the text of LocationSearch.tsx), with the waypoints it leaves:
    [active] is the identifier of the dragged item and [over] that of the
    item it was dropped on, if any. *)
Definition handleDragEnd (active : string) (over : option string)
    (waypoints : list Waypoint) : list (option Waypoint) :=
  match over with
  | Some overId =>
      if negb (String.eqb active overId) then
        let oldIndex := findIndex (fun wp => String.eqb (wp_id wp) active) waypoints in
        let newIndex := findIndex (fun wp => String.eqb (wp_id wp) overId) waypoints in
        if negb (oldIndex =? -1)%Z && negb (newIndex =? -1)%Z
        then reorderWaypoints oldIndex newIndex waypoints
        else map Some waypoints
      else map Some waypoints
  | None => map Some waypoints
  end.

(** [addWaypoint(location)]: [rendered] is the list of waypoints of the
    render that made the callback, whose length is the new order; [id] is
    the identifier made from the clock and a random number. *)
Definition addWaypoint (id : string) (location : Location)
    (rendered prev : list Waypoint) : list Waypoint :=
  let newWaypoint := mkWaypoint id location (INR (List.length rendered)) in
  prev ++ [newWaypoint].

(** The start point, the end point and the waypoints of the planner. *)
Record PlannerState : Type := mkPlanner {
  startPoint : option Location;
  endPoint : option Location;
  waypoints : list Waypoint
}.

Definition locationOf (tb : TacoBellLocation) : Location :=
  mkLocation (lat tb) (lng tb) (address tb) (Some (name tb)).

(** The waypoints made of the stops after the first: [now i] is the value
    of [Date.now()] in the pass for the index [i]. *)
Fixpoint waypointsToAdd (now : nat -> Z) (index : nat) (stops : list TacoBellLocation)
    : list Waypoint :=
  match stops with
  | [] => []
  | tb :: rest =>
      mkWaypoint ("waypoint-" ++ JS.string_of_Z (now index) ++ "-" ++
                  JS.string_of_Z (Z.of_nat index))
                 (locationOf tb) (INR index)
      :: waypointsToAdd now (S index) rest
  end.

(** [loadAutoGeneratedRoute(tacoBells)] *)
Definition loadAutoGeneratedRoute (now : nat -> Z) (tacoBells : list TacoBellLocation)
    (state : PlannerState) : PlannerState :=
  match tacoBells with
  | [] => state
  | first :: rest =>
      let start := locationOf first in
      mkPlanner (Some start) (Some start) (waypointsToAdd now 0 rest)
  end.

(** [calculateRouteData]: the segments made of the legs of the first route
    of the answer of the directions service. *)
Record RouteSegment : Type := mkSegment {
  seg_from : string;
  seg_fromName : option string;
  seg_to : string;
  seg_toName : option string;
  seg_distance : R
}.

Record RouteData : Type := mkRouteData {
  rd_totalDistance : R;
  rd_segments : list RouteSegment
}.

Definition byOrder (l : list Waypoint) : list Waypoint :=
  JS.sortBy (fun a b => JSMath.leb (wp_order a) (wp_order b)) l.

(** The body of the [forEach] over the legs for the leg with the index
    [index].  An index past the last waypoint reads the last waypoint. *)
Definition segmentOf (start finish : Location) (sortedWaypoints : list Waypoint)
    (index : nat) (distance : R) : RouteSegment :=
  let n := List.length sortedWaypoints in
  let at_ (i : nat) := nth i (map wp_location sortedWaypoints) start in
  if (n =? 0)%nat then
    mkSegment (loc_address start) (loc_name start)
              (loc_address finish) (loc_name finish) distance
  else if (index =? 0)%nat then
    mkSegment (loc_address start) (loc_name start)
              (loc_address (at_ 0%nat)) (loc_name (at_ 0%nat)) distance
  else if (index <? n)%nat then
    mkSegment (loc_address (at_ (index - 1)%nat)) (loc_name (at_ (index - 1)%nat))
              (loc_address (at_ index)) (loc_name (at_ index)) distance
  else
    mkSegment (loc_address (at_ (n - 1)%nat)) (loc_name (at_ (n - 1)%nat))
              (loc_address finish) (loc_name finish) distance.

Fixpoint segmentsFrom (start finish : Location) (sortedWaypoints : list Waypoint)
    (index : nat) (legs : list R) : list RouteSegment :=
  match legs with
  | [] => []
  | distance :: rest =>
      segmentOf start finish sortedWaypoints index distance
      :: segmentsFrom start finish sortedWaypoints (S index) rest
  end.

(** What [calculateRouteData] stores as [routeData] when both the start
    and the end point are set, or the message it stores as [error]:
    [request] is [calculateRoute]; reading the first route of an answer
    without routes, or the legs of a first route that is not there, throws
    a TypeError with the message of the engine. *)
Definition calculateRouteData
    (request : Location -> Location -> list Location -> result DirectionsResponse)
    (start finish : Location) (waypoints : list Waypoint) : result RouteData :=
  let sortedWaypoints := byOrder waypoints in
  let waypointLocations := map wp_location sortedWaypoints in
  match request start finish waypointLocations with
  | Throw message => Throw message
  | Ok directions =>
      match routes directions with
      | Some (legs :: _) =>
          Ok (mkRouteData (sum legs) (segmentsFrom start finish sortedWaypoints 0 legs))
      | Some [] => Throw "Cannot read properties of undefined (reading 'legs')"
      | None => Throw "Cannot read properties of undefined (reading '0')"
      end
  end.

(** What a renumbering leaves of a waypoint: its identifier and its
    location. *)
Definition unordered (wp : Waypoint) : string * Location :=
  (wp_id wp, wp_location wp).

(** ** Sharing a route in the URL (src/lib/urlEncoding.ts, in the text of
    routeFinder.ts)

    [encodeRoute] makes a Base64 text of the route with [JSON.stringify],
    [encodeURIComponent] and [btoa] and then rewrites it for use in a URL;
    [decodeRoute] undoes the rewriting before it hands the text to [atob].
    The two rewritings are embedded here; the library functions are not. *)

(** [s.replace(/c/g, d)] for single characters [c] and [d] *)
Fixpoint replaceAll (c d : ascii) (s : string) : string :=
  match s with
  | EmptyString => EmptyString
  | String x rest => String (if Ascii.eqb x c then d else x) (replaceAll c d rest)
  end.

(** [s.replace(/c/g, '')] *)
Fixpoint removeAll (c : ascii) (s : string) : string :=
  match s with
  | EmptyString => EmptyString
  | String x rest => if Ascii.eqb x c then removeAll c rest else String x (removeAll c rest)
  end.

(** The last statement of [encodeRoute], applied to the text [base64]. *)
Definition toUrlSafe (base64 : string) : string :=
  removeAll "=" (replaceAll "/" "_" (replaceAll "+" "-" base64)).

(** [while (base64.length % 4) { base64 += '=' }], for at most [passes]
    passes. *)
Fixpoint addPadding (passes : nat) (base64 : string) : string :=
  match passes with
  | O => base64
  | S n =>
      if (String.length base64 mod 4 =? 0)%nat then base64
      else addPadding n (base64 ++ "=")
  end.

(** The text [decodeRoute] hands to [atob]; three passes of the loop are
    enough for every text. *)
Definition fromUrlSafe (encoded : string) : string :=
  let base64 := replaceAll "_" "/" (replaceAll "-" "+" encoded) in
  addPadding 3 base64.

(** [c] occurs in [s]. *)
Fixpoint occurs (c : ascii) (s : string) : bool :=
  match s with
  | EmptyString => false
  | String x rest => Ascii.eqb x c || occurs c rest
  end.

(** [n] copies of "=". *)
Fixpoint padding (n : nat) : string :=
  match n with
  | O => EmptyString
  | S m => String "=" (padding m)
  end.

(** ** Geodesic distance in double precision (src/lib/googleMaps.ts)

    [haversineDistance] once more, on the numbers the program computes
    with: IEEE 754 binary64, the arithmetic of the primitive floats.  The
    language leaves the values of [Math.sin], [Math.cos] and [Math.atan2]
    to the engine, so they are fields of a [MathLibrary]; what it fixes
    is written out: [Math.atan2] of a NaN is NaN, and [Math.sqrt] of a
    negative number is NaN, as the square root of the arithmetic is. *)

Module Double.

Import Floats.
Local Open Scope float_scope.

Record MathLibrary : Type := mkMath {
  lib_sin : float -> float;
  lib_cos : float -> float;
  lib_atan2 : float -> float -> float
}.

(** [Math.PI] *)
Definition PI : float := 0x1.921fb54442d18p+1.

Definition atan2 (M : MathLibrary) (y x : float) : float :=
  if orb (is_nan y) (is_nan x) then nan else lib_atan2 M y x.

Definition haversineDistance (M : MathLibrary) (lat1 lng1 lat2 lng2 : float) : float :=
  let R := 6371000 in
  let dLat := (lat2 - lat1) * PI / 180 in
  let dLng := (lng2 - lng1) * PI / 180 in
  let a := lib_sin M (dLat / 2) * lib_sin M (dLat / 2) +
           lib_cos M (lat1 * PI / 180) * lib_cos M (lat2 * PI / 180) *
           lib_sin M (dLng / 2) * lib_sin M (dLng / 2) in
  let c := 2 * atan2 M (sqrt a) (sqrt (1 - a)) in
  R * c.

(** The latitude 36.97 as the program reads it: the nearest double. *)
Definition latitude : float := 0x1.27c28f5c28f5cp+5.

(** A library that returns, at the arguments the example below reaches,
    the correctly rounded sines and cosines, and 0 elsewhere. *)
Definition tabled : MathLibrary :=
  mkMath
    (fun x =>
       if x =? 0x1.4a5df9abbc3e1p-1 then 0x1.33ea473a8ae05p-1
       else if x =? -0x1.4a5df9abbc3e1p-1 then -0x1.33ea473a8ae05p-1
       else if x =? 0x1.921fb54442d18p+0 then 1
       else if x =? -0x1.921fb54442d18p+0 then -1
       else 0)
    (fun x =>
       if abs x =? 0x1.4a5df9abbc3e1p-1 then 0x1.99100a909434cp-1 else 1)
    (fun _ _ => 0).

End Double.

(** ** Places, worlds and loops used in the examples

    All places lie on the equator, east of the start [s]. *)

Module Example.

Definition s : TacoBellLocation := mkTB 0 0 "" "s" "Taco Bell".
Definition a : TacoBellLocation := mkTB 0 0.1 "" "a" "Taco Bell".
Definition b : TacoBellLocation := mkTB 0 0.2 "" "b" "Taco Bell".
Definition c : TacoBellLocation := mkTB 0 0.3 "" "c" "Taco Bell".

(** The length of a tenth of a degree of the equator, about 11.1 km. *)
Definition tenth : R := 6371000 * (0.1 * PI / 180).

(** What the places search returns for them. *)
Definition place (id : string) (longitude : R) : Place :=
  mkPlace id "Taco Bell" None (Some (0, longitude)) (Some ["restaurant"; "food"]%string).

(** A world where the places search returns [places], no details can be
    fetched, every request for directions fails, and every draw is 0. *)
Definition world (places : list Place) : World :=
  mkWorld (fun _ => 0)
          (insertionShuffle (fun _ => 0))
          (fun _ _ _ => Ok places)
          (fun _ => Throw "Places API error")
          d_formatted_address
          (fun _ _ _ _ => Throw "Directions API error").

Definition config (minStops maxStops : Z) (maxCalls : option Z) : RouteFinderConfig :=
  mkConfig 50000 55000 minStops maxStops 15 maxCalls.

(** A world whose directions service answers the first request with a
    route of 49,000 meters and every later one with 50,500 meters. *)
Definition worldWithDirections : World :=
  mkWorld (fun _ => 0)
          (insertionShuffle (fun _ => 0))
          (fun _ _ _ => Ok [])
          (fun _ => Throw "Places API error")
          d_formatted_address
          (fun n _ _ _ =>
             match n with
             | O => Ok (mkDirections (Some [[49000]]))
             | S _ => Ok (mkDirections (Some [[50500]]))
             end).

(** The default distances of the first version of the route finder: 30 to
    34 miles. *)
Definition milesConfig : RouteFinderConfig := mkConfig 48280 54717 8 10 15 None.

(** Two more places on the equator, about 111 m and 5.6 km from [s], and
    the loops that always taking the nearest stop makes of them. *)
Definition near : TacoBellLocation := mkTB 0 0.001 "" "n" "Taco Bell".
Definition mid : TacoBellLocation := mkTB 0 0.05 "" "m" "Taco Bell".

Definition threePlaces : list Place := [place "n" 0.001; place "m" 0.05; place "a" 0.1].

Definition loopOfThree : RouteCandidate :=
  mkCand [s; near; mid; s] (routeDistance [s; near; mid; s])
         (snd (scoreRoute [s; near; mid; s] 50 0.5 0.2 1.18)).

Definition loopOfFour : RouteCandidate :=
  mkCand [s; near; mid; a; s] (routeDistance [s; near; mid; a; s])
         (snd (scoreRoute [s; near; mid; a; s] 50 0.5 0.2 1.18)).

(** The loop generated from [s] when [a] is the only other place. *)
Definition outAndBack : RouteCandidate :=
  mkCand [s; a; s] (routeDistance [s; a; s]) (snd (scoreRoute [s; a; s] 50 0.5 0.2 1.18)).

(** Draws that are 0 twice and 0.9 from then on. *)
Definition laterDraws (k : nat) : R := if (k <? 2)%nat then 0 else 0.9.

(** A world with these draws, where no place is found and every request
    for directions fails. *)
Definition variedWorld : World :=
  mkWorld laterDraws
          (insertionShuffle laterDraws)
          (fun _ _ _ => Ok [])
          (fun _ => Throw "Places API error")
          d_formatted_address
          (fun _ _ _ _ => Throw "Directions API error").

(** The loop from [s] to [mid] and back. *)
Definition shortOutAndBack : RouteCandidate :=
  mkCand [s; mid; s] (routeDistance [s; mid; s])
         (snd (scoreRoute [s; mid; s] 50 0.5 0.2 1.18)).

(** A world like [world threePlaces], except that the directions service
    answers: the first request with a route of 49,000 meters and every
    later one with a route of 50,500 meters. *)
Definition answeringWorld : World :=
  mkWorld (fun _ => 0)
          (insertionShuffle (fun _ => 0))
          (fun _ _ _ => Ok threePlaces)
          (fun _ => Throw "Places API error")
          d_formatted_address
          (fun n _ _ _ =>
             match n with
             | O => Ok (mkDirections (Some [[49000]]))
             | S _ => Ok (mkDirections (Some [[50500]]))
             end).

(** A range that starts below the 50 km target, with three or four stops. *)
Definition widerConfig : RouteFinderConfig := mkConfig 48280 54717 3 4 15 None.

End Example.

(** ** Shapes used in the statements *)

(** The loop that leaves [start], visits [visited] in order and, when it
    visits anything, returns to [start]. *)
Definition loopOf (start : TacoBellLocation) (visited : list TacoBellLocation)
    : list TacoBellLocation :=
  match visited with
  | [] => [start]
  | _ => start :: visited ++ [start]
  end.

(** What the generator keeps for every loop it returns: the stops visited
    come from [nearby], no identifier is visited twice, at most
    [nStops - 1] stops are visited besides the start, and exactly that many
    when the identifiers of [nearby] are pairwise distinct. *)
Definition goodLoop (start : TacoBellLocation) (nStops : Z)
    (nearby loop : list TacoBellLocation) : Prop :=
  exists visited,
    loop = loopOf start visited /\
    (forall x, In x visited -> In x nearby) /\
    NoDup (map placeId visited) /\
    (Z.of_nat (List.length visited) <= Z.max 0 (nStops - 1))%Z /\
    (NoDup (map placeId nearby) ->
     Z.of_nat (List.length visited) = Z.max 0 (nStops - 1)).

(** A closed loop that visits no identifier twice, the start's included. *)
Definition distinctLoop (start : TacoBellLocation) (loop : list TacoBellLocation)
    : Prop :=
  exists visited,
    loop = loopOf start visited /\
    NoDup (placeId start :: map placeId visited).

(** The loops kept so far by a call of the generator all have a property. *)
Definition allLoops (P : list TacoBellLocation -> Prop) (st : GenState) : Prop :=
  forall c, In c (gen_routes st) -> P (stops c).

(** A list whose keys do not decrease. *)
Fixpoint ascendingBy {A : Type} (key : A -> R) (l : list A) : Prop :=
  match l with
  | x :: (y :: _) as rest => key x <= key y /\ ascendingBy key rest
  | _ => True
  end.

(** When the verification loop takes a verified distance as the new best:
    it is in range and either nothing was taken before, or it is shorter
    than the best distance and not farther from the target. *)
Definition codeAdopts (config : RouteFinderConfig) (st : VerifyState)
    (totalDistance : R) : Prop :=
  minDistanceMeters config <= totalDistance <= maxDistanceMeters config /\
  (bestRoute st = None \/
   match bestActualDistance st with
   | Fin best =>
       totalDistance < best /\
       Rabs (totalDistance / 1000 - targetKm) <= Rabs (best / 1000 - targetKm)
   | Infinity => True
   end).

(** A search result is kept when it passes the filter and has a location. *)
Definition accepted (place : Place) : bool :=
  isTacoBell place && negb (isNull (geometry place)).

(** The identifier of the entry made for a kept search result. *)
Definition entryId (W : World) (place : Place) : string :=
  match getPlaceDetails W (place_id place) with
  | Ok placeDetails => d_place_id placeDetails
  | Throw _ => place_id place
  end.

Definition notEnoughMessage (found : nat) (config : RouteFinderConfig) : string :=
  "Not enough Taco Bells found. Found " ++ JS.string_of_Z (Z.of_nat found) ++
  ", need at least " ++ JS.string_of_Z (minTacoBells config).

(** ** The words of the specification

    The coefficient of variation and the rule of the verifier, written as
    the specification states them, to be compared with what the code
    computes. *)

Module Spec.

Definition mean (l : list R) : R := sum l / INR (List.length l).

Definition standardDeviation (l : list R) : R :=
  sqrt (sum (map (fun d => (d - mean l) ^ 2) l) / INR (List.length l)).

(** Standard deviation divided by mean. *)
Definition coefficientOfVariation (l : list R) : R :=
  standardDeviation l / mean l.

(** The rule of the verifier in the specification's words: the verified
    distance is in range and closer to the target than the current best
    verified distance, or it is the first one. *)
Definition shouldAdopt (config : RouteFinderConfig) (st : VerifyState)
    (totalDistance : R) : Prop :=
  minDistanceMeters config <= totalDistance <= maxDistanceMeters config /\
  (bestRoute st = None \/
   exists best, bestActualDistance st = Fin best /\
     Rabs (totalDistance / 1000 - targetKm) < Rabs (best / 1000 - targetKm)).

End Spec.

(** * Properties *)

(** ** Numbers *)

Lemma ltb_true a b : JSMath.ltb a b = true <-> a < b.
Proof.
  unfold JSMath.ltb; destruct (Rlt_dec a b); split; intros; auto; discriminate.
Qed.

Lemma ltb_false a b : JSMath.ltb a b = false <-> b <= a.
Proof.
  unfold JSMath.ltb; destruct (Rlt_dec a b); split; intros; auto;
    try discriminate; lra.
Qed.

Lemma leb_true a b : JSMath.leb a b = true <-> a <= b.
Proof.
  unfold JSMath.leb; destruct (Rle_dec a b); split; intros; auto; discriminate.
Qed.

Lemma leb_false a b : JSMath.leb a b = false <-> b < a.
Proof.
  unfold JSMath.leb; destruct (Rle_dec a b); split; intros; auto;
    try discriminate; lra.
Qed.

Lemma atan2_pos y x : 0 < x -> JSMath.atan2 y x = atan (y / x).
Proof.
  intros H; unfold JSMath.atan2.
  destruct (Rlt_dec 0 x); [reflexivity | contradiction].
Qed.

Lemma atan2_0_1 : JSMath.atan2 0 1 = 0.
Proof.
  rewrite atan2_pos by lra.
  replace (0 / 1) with 0 by lra. apply atan_0.
Qed.

(** A comparison of the code whose answer follows from the hypotheses by
    linear arithmetic is replaced by its answer. *)
Ltac holds b :=
  replace b with true
    by (symmetry; first [apply ltb_true | apply leb_true]; simpl; lra).

Ltac fails b :=
  replace b with false
    by (symmetry; first [apply ltb_false | apply leb_false]; simpl; lra).

(** ** Geodesic distance *)

Lemma haversine_a_sym lat1 lng1 lat2 lng2 :
  haversine_a lat1 lng1 lat2 lng2 = haversine_a lat2 lng2 lat1 lng1.
Proof.
  unfold haversine_a.
  replace ((lat1 - lat2) * PI / 180 / 2) with (- ((lat2 - lat1) * PI / 180 / 2)) by lra.
  replace ((lng1 - lng2) * PI / 180 / 2) with (- ((lng2 - lng1) * PI / 180 / 2)) by lra.
  rewrite !sin_neg. ring.
Qed.

Lemma haversine_a_refl lat1 lng1 : haversine_a lat1 lng1 lat1 lng1 = 0.
Proof.
  unfold haversine_a.
  replace ((lat1 - lat1) * PI / 180 / 2) with 0 by lra.
  replace ((lng1 - lng1) * PI / 180 / 2) with 0 by lra.
  rewrite sin_0. ring.
Qed.

Lemma haversineDistance_unfold lat1 lng1 lat2 lng2 :
  haversineDistance lat1 lng1 lat2 lng2 =
  6371000 * (2 * JSMath.atan2 (sqrt (haversine_a lat1 lng1 lat2 lng2))
                              (sqrt (1 - haversine_a lat1 lng1 lat2 lng2))).
Proof. reflexivity. Qed.

Lemma haversineDistance_sym lat1 lng1 lat2 lng2 :
  haversineDistance lat1 lng1 lat2 lng2 = haversineDistance lat2 lng2 lat1 lng1.
Proof. rewrite !haversineDistance_unfold, haversine_a_sym. reflexivity. Qed.

Lemma haversineDistance_refl lat1 lng1 : haversineDistance lat1 lng1 lat1 lng1 = 0.
Proof.
  rewrite haversineDistance_unfold, haversine_a_refl.
  rewrite sqrt_0. replace (1 - 0) with 1 by lra. rewrite sqrt_1.
  rewrite atan2_0_1. ring.
Qed.

(** Along the equator the formula gives the arc length: the radius times
    the difference of the longitudes in radians. *)
Lemma haversineDistance_equator l1 l2 :
  0 <= l2 - l1 < 180 ->
  haversineDistance 0 l1 0 l2 = 6371000 * ((l2 - l1) * PI / 180).
Proof.
  intros [H0 H1].
  rewrite haversineDistance_unfold. unfold haversine_a.
  replace ((0 - 0) * PI / 180 / 2) with 0 by lra.
  replace (0 * PI / 180) with 0 by lra.
  rewrite sin_0, cos_0.
  set (t := (l2 - l1) * PI / 180 / 2).
  assert (Hpi := PI_RGT_0).
  assert (Ht : 0 <= t < PI / 2).
  { unfold t. split.
    - apply Rmult_le_pos; [|lra]. apply Rmult_le_pos; [|lra].
      apply Rmult_le_pos; lra.
    - assert ((l2 - l1) * PI < 180 * PI) by (apply Rmult_lt_compat_r; lra). lra. }
  assert (Hs : 0 <= sin t) by (apply sin_ge_0; lra).
  assert (Hc : 0 < cos t) by (apply cos_gt_0; lra).
  replace (0 * 0 + 1 * 1 * sin t * sin t) with ((sin t)²) by (unfold Rsqr; ring).
  replace (1 - (sin t)²) with ((cos t)²) by (generalize (sin2_cos2 t); lra).
  rewrite !sqrt_Rsqr by lra.
  rewrite atan2_pos by assumption.
  change (sin t / cos t) with (tan t).
  rewrite atan_tan by lra.
  unfold t. field.
Qed.

Lemma distanceBetween_sym a b : distanceBetween a b = distanceBetween b a.
Proof. apply haversineDistance_sym. Qed.

Lemma distanceBetween_refl a : distanceBetween a a = 0.
Proof. apply haversineDistance_refl. Qed.

(** ** Geodesic distance in double precision: a point and its antipode

    From latitude 36.97 on the meridian 0 to latitude -36.97 on the
    meridian 180.  In exact arithmetic the term [a] of the formula is 1
    there.  In doubles, with the sines and cosines rounded to nearest, it
    is 1.0000000000000002: [1 - a] is negative, its square root is NaN,
    and so is the distance, in both directions. *)

Section DoublePrecision.

Import Floats.
Local Open Scope float_scope.

Lemma antipodal_there (M : Double.MathLibrary) :
  Double.lib_sin M (-0x1.4a5df9abbc3e1p-1) = -0x1.33ea473a8ae05p-1 ->
  Double.lib_cos M 0x1.4a5df9abbc3e1p-1 = 0x1.99100a909434cp-1 ->
  Double.lib_cos M (-0x1.4a5df9abbc3e1p-1) = 0x1.99100a909434cp-1 ->
  Double.lib_sin M 0x1.921fb54442d18p+0 = 1 ->
  Double.haversineDistance M Double.latitude 0 (- Double.latitude) 180 = nan.
Proof.
  intros Hs Hc1 Hc2 Hq.
  unfold Double.haversineDistance. cbv zeta.
  replace ((- Double.latitude - Double.latitude) * Double.PI / 180 / 2)
    with (-0x1.4a5df9abbc3e1p-1) by (vm_compute; reflexivity).
  replace (Double.latitude * Double.PI / 180)
    with 0x1.4a5df9abbc3e1p-1 by (vm_compute; reflexivity).
  replace (- Double.latitude * Double.PI / 180)
    with (-0x1.4a5df9abbc3e1p-1) by (vm_compute; reflexivity).
  replace ((180 - 0) * Double.PI / 180 / 2)
    with 0x1.921fb54442d18p+0 by (vm_compute; reflexivity).
  rewrite Hs, Hc1, Hc2, Hq. vm_compute. reflexivity.
Qed.

Lemma antipodal_back (M : Double.MathLibrary) :
  Double.lib_sin M 0x1.4a5df9abbc3e1p-1 = 0x1.33ea473a8ae05p-1 ->
  Double.lib_cos M 0x1.4a5df9abbc3e1p-1 = 0x1.99100a909434cp-1 ->
  Double.lib_cos M (-0x1.4a5df9abbc3e1p-1) = 0x1.99100a909434cp-1 ->
  Double.lib_sin M (-0x1.921fb54442d18p+0) = -1 ->
  Double.haversineDistance M (- Double.latitude) 180 Double.latitude 0 = nan.
Proof.
  intros Hs Hc1 Hc2 Hq.
  unfold Double.haversineDistance. cbv zeta.
  replace ((Double.latitude - - Double.latitude) * Double.PI / 180 / 2)
    with 0x1.4a5df9abbc3e1p-1 by (vm_compute; reflexivity).
  replace (Double.latitude * Double.PI / 180)
    with 0x1.4a5df9abbc3e1p-1 by (vm_compute; reflexivity).
  replace (- Double.latitude * Double.PI / 180)
    with (-0x1.4a5df9abbc3e1p-1) by (vm_compute; reflexivity).
  replace ((0 - 180) * Double.PI / 180 / 2)
    with (-0x1.921fb54442d18p+0) by (vm_compute; reflexivity).
  rewrite Hs, Hc1, Hc2, Hq. vm_compute. reflexivity.
Qed.

(** C9, evaluated where the code departs from it: with any library whose
    sine and cosine return the correctly rounded values at the arguments
    reached, the distance from (36.97, 0) to (-36.97, 180) is NaN, and so
    is the distance back; the comparison [==] of the two is false, NaN
    being different from itself. *)
Theorem antipodal_distance_is_not_a_number :
  forall M : Double.MathLibrary,
    Double.lib_sin M (-0x1.4a5df9abbc3e1p-1) = -0x1.33ea473a8ae05p-1 /\
    Double.lib_sin M 0x1.4a5df9abbc3e1p-1 = 0x1.33ea473a8ae05p-1 ->
    Double.lib_cos M 0x1.4a5df9abbc3e1p-1 = 0x1.99100a909434cp-1 /\
    Double.lib_cos M (-0x1.4a5df9abbc3e1p-1) = 0x1.99100a909434cp-1 ->
    Double.lib_sin M 0x1.921fb54442d18p+0 = 1 /\
    Double.lib_sin M (-0x1.921fb54442d18p+0) = -1 ->
    let there := Double.haversineDistance M Double.latitude 0 (- Double.latitude) 180 in
    let back := Double.haversineDistance M (- Double.latitude) 180 Double.latitude 0 in
    is_nan there = true /\ is_nan back = true /\ (there =? back) = false.
Proof.
  intros M [Hs1 Hs2] [Hc1 Hc2] [Hq1 Hq2] there back.
  assert (E1 : there = nan) by (apply antipodal_there; assumption).
  assert (E2 : back = nan) by (apply antipodal_back; assumption).
  rewrite E1, E2. repeat split; reflexivity.
Qed.

Lemma antipodal_distance_is_not_a_number_witness :
  is_nan (Double.haversineDistance Double.tabled Double.latitude 0 (- Double.latitude) 180)
  = true.
Proof.
  apply (antipodal_distance_is_not_a_number Double.tabled);
    split; vm_compute; reflexivity.
Defined.

End DoublePrecision.

(** ** Route scorer *)

Lemma length_segmentDistances route :
  List.length (segmentDistances route) = (List.length route - 1)%nat.
Proof.
  induction route as [|x [|y rest] IH]; simpl in *; try reflexivity.
  rewrite IH. lia.
Qed.

Lemma calculateSegmentSpacingVariance_eq route :
  (2 <= List.length route)%nat ->
  calculateSegmentSpacingVariance route =
  if JSMath.ltb 0 (Spec.mean (segmentDistances route))
  then Fin (Spec.coefficientOfVariation (segmentDistances route) * 1000)
  else Infinity.
Proof.
  intros Hlen. unfold calculateSegmentSpacingVariance.
  destruct (Nat.ltb_spec (List.length route) 2) as [H|_]; [lia|].
  destruct (Nat.eqb_spec (List.length (segmentDistances route)) 0) as [H|_].
  { rewrite length_segmentDistances in H. lia. }
  reflexivity.
Qed.

Lemma tenth_pos : 0 < Example.tenth.
Proof.
  unfold Example.tenth. assert (H := PI_RGT_0). lra.
Qed.

Lemma distance_s_a : distanceBetween Example.s Example.a = Example.tenth.
Proof.
  unfold distanceBetween, Example.s, Example.a, Example.tenth; simpl.
  rewrite haversineDistance_equator by lra. f_equal. lra.
Qed.

Lemma distance_a_b : distanceBetween Example.a Example.b = Example.tenth.
Proof.
  unfold distanceBetween, Example.a, Example.b, Example.tenth; simpl.
  rewrite haversineDistance_equator by lra. f_equal. lra.
Qed.

Lemma distance_s_b : distanceBetween Example.s Example.b = 2 * Example.tenth.
Proof.
  unfold distanceBetween, Example.s, Example.b, Example.tenth; simpl.
  rewrite haversineDistance_equator by lra. lra.
Qed.

Lemma segments_s_a_b_s :
  segmentDistances [Example.s; Example.a; Example.b; Example.s] =
  [Example.tenth; Example.tenth; 2 * Example.tenth].
Proof.
  simpl. rewrite distance_s_a, distance_a_b.
  rewrite (distanceBetween_sym Example.b), distance_s_b. reflexivity.
Qed.

(** C7, as stated, fails: on the loop s, a, b, s with legs of one, one and
    two tenths of a degree the sub-score is not the coefficient of
    variation of the legs. *)
Lemma spacing_is_not_coefficient_of_variation :
  calculateSegmentSpacingVariance [Example.s; Example.a; Example.b; Example.s] <>
  Fin (Spec.coefficientOfVariation
         (segmentDistances [Example.s; Example.a; Example.b; Example.s])).
Proof.
  rewrite calculateSegmentSpacingVariance_eq by (simpl; lia).
  rewrite segments_s_a_b_s.
  assert (Ht := tenth_pos). set (t := Example.tenth) in *.
  assert (Hmean : Spec.mean [t; t; 2 * t] = 4 * t / 3).
  { unfold Spec.mean, sum. simpl. field. }
  assert (Hcv : 0 < Spec.coefficientOfVariation [t; t; 2 * t]).
  { unfold Spec.coefficientOfVariation. apply Rdiv_lt_0_compat; [|rewrite Hmean; lra].
    unfold Spec.standardDeviation. apply sqrt_lt_R0. rewrite Hmean.
    unfold sum. simpl.
    replace ((0 + (t - 4 * t / 3) * ((t - 4 * t / 3) * 1) +
              (t - 4 * t / 3) * ((t - 4 * t / 3) * 1) +
              (2 * t - 4 * t / 3) * ((2 * t - 4 * t / 3) * 1)) / (1 + 1 + 1))
      with (2 / 9 * (t * t)) by field.
    apply Rmult_lt_0_compat; [lra | apply Rmult_lt_0_compat; lra]. }
  replace (JSMath.ltb 0 (Spec.mean [t; t; 2 * t])) with true
    by (symmetry; apply ltb_true; rewrite Hmean; lra).
  intros H. injection H as H. lra.
Qed.

(** C7, amended: on a route of at least two stops the sub-score is 1000
    times the coefficient of variation of the leg distances when their mean
    is positive and [Infinity] otherwise, and it enters the score with the
    weight [spacingVarianceWeight], added to the other two terms. *)
Theorem spacing_is_scaled_coefficient_of_variation :
  forall route : list TacoBellLocation,
    (2 <= List.length route)%nat ->
    let legs := segmentDistances route in
    (0 < Spec.mean legs ->
     calculateSegmentSpacingVariance route =
       Fin (Spec.coefficientOfVariation legs * 1000)) /\
    (Spec.mean legs <= 0 -> calculateSegmentSpacingVariance route = Infinity) /\
    (forall targetRoadKm w1 w2 m,
        snd (scoreRoute route targetRoadKm w1 w2 m) =
        Num.add (Num.add (Fin (Rabs (routeDistance route / 1000 * m - targetRoadKm)))
                         (Num.scale w1 (Num.div (loopnessPenalty route) 1000)))
                (Num.scale w2 (calculateSegmentSpacingVariance route))).
Proof.
  intros route Hlen legs. subst legs.
  assert (E := calculateSegmentSpacingVariance_eq route Hlen).
  repeat split.
  - intros H. apply ltb_true in H. rewrite E, H. reflexivity.
  - intros H. apply ltb_false in H. rewrite E, H. reflexivity.
Qed.

Lemma mean_s_a_s_pos :
  0 < Spec.mean (segmentDistances [Example.s; Example.a; Example.s]).
Proof.
  simpl. rewrite (distanceBetween_sym Example.a), distance_s_a.
  assert (Ht := tenth_pos). unfold Spec.mean, sum. simpl. lra.
Qed.

Lemma spacing_is_scaled_coefficient_of_variation_witness :
  calculateSegmentSpacingVariance [Example.s; Example.a; Example.s] =
  Fin (Spec.coefficientOfVariation
         (segmentDistances [Example.s; Example.a; Example.s]) * 1000).
Proof.
  apply (spacing_is_scaled_coefficient_of_variation
           [Example.s; Example.a; Example.s]).
  - simpl; lia.
  - apply mean_s_a_s_pos.
Defined.

(** ** Candidate pool builder *)

Lemma convertPlaces_ids W places :
  map placeId (convertPlaces W places) = map (entryId W) (filter accepted places).
Proof.
  induction places as [|place rest IH]; simpl; [reflexivity|].
  unfold accepted at 1.
  destruct (isTacoBell place); simpl; [|exact IH].
  destruct (geometry place) as [location|]; simpl; [|exact IH].
  rewrite IH. f_equal.
  unfold toTacoBell, entryId.
  destruct (getPlaceDetails W (place_id place)); reflexivity.
Qed.

(** C8, as stated, fails: when the places search returns the same place
    twice the list returned holds its identifier twice. *)
Lemma findTacoBells_keeps_duplicates :
  exists found,
    findTacoBells (Example.world [Example.place "a" 0.1; Example.place "a" 0.1])
                  (0, 0) 15 = Ok found /\
    ~ NoDup (map placeId found).
Proof.
  eexists. split; [reflexivity|].
  simpl. intros H. inversion H as [|x l Hin _]; subst.
  apply Hin. left. reflexivity.
Qed.

(** C8, amended: the list returned holds one entry for each search result
    that passes the brand and category filter and has a location, in the
    order of the search results; identifiers are left as they come, so they
    are pairwise distinct exactly when those of the kept results are. *)
Theorem findTacoBells_one_entry_per_kept_place :
  forall (W : World) (center : R * R) (radiusMiles : R) (places : list Place),
    searchNearbyPlaces W center (radiusMiles * 1609.34) "Taco Bell" = Ok places ->
    exists found,
      findTacoBells W center radiusMiles = Ok found /\
      map placeId found = map (entryId W) (filter accepted places) /\
      List.length found = List.length (filter accepted places) /\
      (NoDup (map placeId found) <-> NoDup (map (entryId W) (filter accepted places))).
Proof.
  intros W center radiusMiles places Hsearch.
  exists (convertPlaces W places). unfold findTacoBells. rewrite Hsearch.
  assert (Hids := convertPlaces_ids W places).
  repeat split.
  - exact Hids.
  - rewrite <- (length_map placeId), Hids, length_map. reflexivity.
  - rewrite Hids. auto.
  - rewrite Hids. auto.
Qed.

Lemma findTacoBells_one_entry_per_kept_place_witness :
  exists found,
    findTacoBells (Example.world [Example.place "a" 0.1; Example.place "b" 0.2])
                  (0, 0) 15 = Ok found /\
    map placeId found = ["a"; "b"]%string.
Proof.
  destruct (findTacoBells_one_entry_per_kept_place
              (Example.world [Example.place "a" 0.1; Example.place "b" 0.2])
              (0, 0) 15 [Example.place "a" 0.1; Example.place "b" 0.2] eq_refl)
    as [found [H1 [H2 _]]].
  exists found. split; [exact H1 | exact H2].
Defined.

(** ** Search orchestrator: too few stops *)

Lemma findOptimalRouteTraced_insufficient W start config found :
  findTacoBells W (lat start, lng start) (searchRadiusMiles config) = Ok found ->
  (Z.of_nat (List.length found) < minTacoBells config)%Z ->
  findOptimalRouteTraced W start config =
  (failure (notEnoughMessage (List.length found) config), O).
Proof.
  intros Hfound Hlt. unfold findOptimalRouteTraced. rewrite Hfound.
  destruct (Z.ltb_spec (Z.of_nat (List.length found)) (minTacoBells config)); [|lia].
  reflexivity.
Qed.

(** C2, as stated, fails: with three stops found and eight required the
    result is a failure whose only fields are [success] and the message in
    [error]; no field holds the kind InsufficientCandidates. *)
Lemma insufficient_result_has_no_error_kind :
  let r := findOptimalRoute
             (Example.world [Example.place "a" 0.1; Example.place "b" 0.2;
                             Example.place "c" 0.3])
             Example.s (Example.config 8 10 None) in
  fields r = [("success", VBool false);
              ("error", VString "Not enough Taco Bells found. Found 3, need at least 8")]%string /\
  ~ (exists field, In (field, VString "InsufficientCandidates") (fields r)).
Proof.
  intros r.
  assert (E : r = failure "Not enough Taco Bells found. Found 3, need at least 8").
  { unfold r, findOptimalRoute.
    rewrite (findOptimalRouteTraced_insufficient _ _ _ [Example.a; Example.b; Example.c]);
      [reflexivity | reflexivity | simpl; lia]. }
  rewrite E. split; [reflexivity|].
  intros [field [H|[H|[]]]]; discriminate H.
Qed.

(** C2, amended: when the pool builder returns fewer stops than
    [config.minTacoBells], the result has [success] false and, in [error],
    the message "Not enough Taco Bells found. Found n, need at least m";
    it has no route, no distance and no other field, and no request is made
    to the directions service. *)
Theorem findOptimalRoute_insufficient_candidates :
  forall (W : World) (start : TacoBellLocation) (config : RouteFinderConfig)
         (found : list TacoBellLocation),
    findTacoBells W (lat start, lng start) (searchRadiusMiles config) = Ok found ->
    (Z.of_nat (List.length found) < minTacoBells config)%Z ->
    let r := findOptimalRoute W start config in
    success r = false /\
    error r = Some (notEnoughMessage (List.length found) config) /\
    route r = None /\
    resultDistance r = None /\
    fields r = [("success"%string, VBool false);
                ("error"%string, VString (notEnoughMessage (List.length found) config))] /\
    oracleCalls W start config = O.
Proof.
  intros W start config found Hfound Hlt r.
  unfold r, findOptimalRoute, oracleCalls.
  rewrite (findOptimalRouteTraced_insufficient _ _ _ _ Hfound Hlt).
  repeat split.
Qed.

Lemma findOptimalRoute_insufficient_candidates_witness :
  error (findOptimalRoute
           (Example.world [Example.place "a" 0.1; Example.place "b" 0.2;
                           Example.place "c" 0.3])
           Example.s (Example.config 8 10 None)) =
  Some "Not enough Taco Bells found. Found 3, need at least 8"%string.
Proof.
  apply (findOptimalRoute_insufficient_candidates
           (Example.world [Example.place "a" 0.1; Example.place "b" 0.2;
                           Example.place "c" 0.3])
           Example.s (Example.config 8 10 None)
           [Example.a; Example.b; Example.c]).
  - reflexivity.
  - simpl; lia.
Defined.

(** ** Arrays: sorting and indexing keep the elements *)

Lemma insertBy_perm {A : Type} (keeps : A -> A -> bool) x l :
  Permutation (JS.insertBy keeps x l) (x :: l).
Proof.
  induction l as [|y l IH]; simpl; [reflexivity|].
  destruct (keeps x y); [reflexivity|].
  rewrite IH. apply perm_swap.
Qed.

Lemma sortBy_perm {A : Type} (keeps : A -> A -> bool) l :
  Permutation (JS.sortBy keeps l) l.
Proof.
  induction l as [|x l IH]; simpl; [reflexivity|].
  change (fold_right (JS.insertBy keeps) [] l) with (JS.sortBy keeps l).
  rewrite insertBy_perm. constructor. exact IH.
Qed.

Lemma sortBy_In {A : Type} (keeps : A -> A -> bool) l x :
  In x (JS.sortBy keeps l) <-> In x l.
Proof.
  split; apply Permutation_in; [|symmetry]; apply sortBy_perm.
Qed.

Lemma last_In {A : Type} (l : list A) (d : A) : l <> [] -> In (List.last l d) l.
Proof.
  induction l as [|x [|y l] IH]; intros H; [contradiction | left; reflexivity |].
  right. apply IH. discriminate.
Qed.

Lemma at_index_In {A : Type} (l : list A) i x : JS.at_index l i = Some x -> In x l.
Proof.
  unfold JS.at_index. destruct (i <? 0)%Z; [discriminate|]. apply nth_error_In.
Qed.

Lemma insertRandomly_perm rnd k x l :
  Permutation (fst (insertRandomly rnd k x l)) (x :: l).
Proof.
  revert k. induction l as [|y l IH]; intros k; simpl; [reflexivity|].
  destruct (JSMath.ltb (rnd k - 0.5) 0); simpl; [reflexivity|].
  specialize (IH (S k)). destruct (insertRandomly rnd (S k) x l) as [l' k'].
  simpl in *. rewrite IH. apply perm_swap.
Qed.

Lemma insertionShuffle_perm rnd k l :
  Permutation l (fst (insertionShuffle rnd k l)).
Proof.
  revert k. induction l as [|x l IH]; intros k; simpl; [reflexivity|].
  specialize (IH k). destruct (insertionShuffle rnd k l) as [sorted k'].
  simpl in IH. rewrite insertRandomly_perm. constructor. exact IH.
Qed.

(** ** Candidate route generator: what every attempt keeps *)

Section GeneratorFacts.

Variable W : World.
Variable start : TacoBellLocation.
Variable targetKm : R.
Variable nStops : Z.

Hypothesis sortRandomly_perm :
  forall k l, Permutation l (fst (sortRandomly W k l)).

Lemma inRoute_false route candidate :
  inRoute route candidate = false <-> ~ In (placeId candidate) (map placeId route).
Proof.
  unfold inRoute. induction route as [|x route IH]; simpl.
  - split; auto.
  - rewrite orb_false_iff, IH. destruct (String.eqb_spec (placeId x) (placeId candidate)).
    + split; [intros [H _]; discriminate | intros H; exfalso; apply H; auto].
    + split; [intros [_ H] [E|E]; auto | intros H; split; auto].
Qed.

Lemma scoreCandidates_tb shuffled route :
  map tb (scoreCandidates start targetKm nStops shuffled route) =
  filter (fun candidate => negb (inRoute route candidate)) shuffled.
Proof.
  unfold scoreCandidates. rewrite map_map. simpl. apply map_id.
Qed.

Lemma rankCandidates_tb candidates :
  Permutation (map tb (rankCandidates targetKm nStops candidates)) (map tb candidates).
Proof.
  unfold rankCandidates.
  rewrite (Permutation_map tb (sortBy_perm _ _)).
  rewrite map_map. simpl.
  apply Permutation_map, sortBy_perm.
Qed.

Lemma selectCandidate_In candidates k selected k' :
  selectCandidate W candidates k = (Some selected, k') -> In selected candidates.
Proof.
  unfold selectCandidate.
  destruct (JSMath.ltb (random W k) 0.7 || (List.length candidates =? 1)%nat);
    intros H; injection H as H _.
  - apply (nth_error_In candidates O). exact H.
  - eapply at_index_In; eassumption.
Qed.

(** A selected stop comes from [shuffled] and its identifier is new. *)
Lemma selected_is_new shuffled route k selected k' :
  selectCandidate W
    (rankCandidates targetKm nStops
       (scoreCandidates start targetKm nStops shuffled route)) k = (Some selected, k') ->
  In (tb selected) shuffled /\ ~ In (placeId (tb selected)) (map placeId route).
Proof.
  intros H. apply selectCandidate_In in H.
  apply (in_map tb) in H.
  apply (Permutation_in _ (rankCandidates_tb _)) in H.
  rewrite scoreCandidates_tb in H. apply filter_In in H as [Hin Hnew].
  split; [exact Hin|]. apply inRoute_false. apply negb_true_iff. exact Hnew.
Qed.

Lemma no_candidates shuffled route :
  List.length (scoreCandidates start targetKm nStops shuffled route) = O ->
  forall x, In x shuffled -> In (placeId x) (map placeId route).
Proof.
  intros Hlen x Hx.
  rewrite <- (length_map tb), scoreCandidates_tb in Hlen.
  destruct (in_dec string_dec (placeId x) (map placeId route)) as [H|H]; [exact H|].
  exfalso. apply inRoute_false in H.
  assert (Hin : In x (filter (fun c => negb (inRoute route c)) shuffled)).
  { apply filter_In. split; [exact Hx|]. rewrite H. reflexivity. }
  destruct (filter (fun c => negb (inRoute route c)) shuffled); [contradiction|discriminate].
Qed.

(** The loop that extends a route: it adds at most [remaining] stops of
    [shuffled], each with a new identifier, and it stops early only when
    every identifier of [shuffled] is in the route. *)
Lemma extendRoute_adds remaining shuffled :
  forall route k built k',
    extendRoute W start targetKm nStops remaining shuffled route k = (Ok built, k') ->
    exists added,
      built = route ++ added /\
      (forall x, In x added -> In x shuffled) /\
      (List.length added <= remaining)%nat /\
      (NoDup (map placeId route) -> NoDup (map placeId built)) /\
      ((List.length added < remaining)%nat ->
       forall x, In x shuffled -> In (placeId x) (map placeId built)).
Proof.
  induction remaining as [|n IH]; intros route k built k' H; simpl in H.
  - injection H as <- _. exists []. rewrite app_nil_r.
    split; [reflexivity|]. split; [intros x []|]. split; [simpl; lia|].
    split; [auto|]. simpl. intros Hlt. lia.
  - destruct (Nat.eqb_spec
                (List.length (scoreCandidates start targetKm nStops shuffled route)) 0)
      as [Hempty|Hsome].
    + injection H as <- _. exists []. rewrite app_nil_r.
      split; [reflexivity|]. split; [intros x []|]. split; [simpl; lia|].
      split; [auto|]. intros _. apply no_candidates. exact Hempty.
    + destruct (selectCandidate W _ k) as [[selected|] k1] eqn:Hsel; [|discriminate].
      apply selected_is_new in Hsel as [Hin Hnew].
      apply IH in H as [added [-> [Hfrom [Hlen [Hnodup Hearly]]]]].
      exists (tb selected :: added). rewrite <- app_assoc. simpl.
      split; [reflexivity|].
      split; [intros x [<-|Hx]; auto|].
      split; [lia|].
      rewrite <- app_assoc in Hnodup, Hearly. simpl in Hnodup, Hearly.
      split.
      * intros Hroute. apply Hnodup. rewrite map_app. simpl.
        apply NoDup_app; [exact Hroute | repeat constructor; auto |].
        intros i Hi [<-|[]]. contradiction.
      * intros Hlt. apply Hearly. lia.
Qed.

Lemma nearbyOf_In allTacoBells x :
  In x (nearbyOf start allTacoBells) <->
  In x allTacoBells /\ distanceBetween start x <= 24140 /\ placeId x <> placeId start.
Proof.
  unfold nearbyOf. rewrite filter_In, andb_true_iff, negb_true_iff, leb_true.
  destruct (String.eqb_spec (placeId x) (placeId start)); intuition congruence.
Qed.

Lemma interior_loopOf visited : JS.interior (loopOf start visited) = visited.
Proof.
  destruct visited as [|x visited]; [reflexivity|].
  unfold JS.interior, loopOf. simpl tl.
  apply (removelast_last (x :: visited) start).
Qed.

Lemma closeLoop_loopOf added :
  (forall x, In x added -> placeId x <> placeId start) ->
  closeLoop start (start :: added) = loopOf start added.
Proof.
  intros Hids. unfold closeLoop, loopOf.
  destruct added as [|x added]; [reflexivity|].
  replace (1 <? List.length (start :: x :: added))%nat with true by reflexivity.
  assert (Hlast : In (List.last (start :: x :: added) start) (x :: added)).
  { change (List.last (start :: x :: added) start) with (List.last (x :: added) start).
    apply last_In. discriminate. }
  apply Hids in Hlast. apply String.eqb_neq in Hlast. rewrite Hlast. reflexivity.
Qed.

Lemma built_goodLoop nearby shuffled k built k' :
  (forall x, In x nearby -> placeId x <> placeId start) ->
  (nStops - 1 <= Z.of_nat (List.length nearby))%Z ->
  Permutation nearby shuffled ->
  extendRoute W start targetKm nStops (Z.to_nat (nStops - 1)) shuffled [start] k
    = (Ok built, k') ->
  goodLoop start nStops nearby (closeLoop start built).
Proof.
  intros nearby_not_start enough Hperm H.
  apply extendRoute_adds in H as [added [-> [Hfrom [Hlen [Hnodup Hearly]]]]].
  simpl in Hnodup, Hearly |- *.
  assert (Hnearby : forall x, In x added -> In x nearby).
  { intros x Hx. apply (Permutation_in _ (Permutation_sym Hperm)). auto. }
  assert (Hnd : NoDup (placeId start :: map placeId added)).
  { apply Hnodup. repeat constructor. intros []. }
  apply NoDup_cons_iff in Hnd as [Hstart Hnd].
  exists added. split; [|split; [exact Hnearby|split; [exact Hnd|split]]].
  - apply closeLoop_loopOf. intros x Hx. apply nearby_not_start, Hnearby, Hx.
  - lia.
  - intros Hdistinct.
    destruct (Nat.lt_ge_cases (List.length added) (Z.to_nat (nStops - 1)))
      as [Hlt|Hge]; [|lia].
    exfalso. specialize (Hearly Hlt).
    assert (Hincl : incl (map placeId shuffled) (map placeId added)).
    { intros i Hi. apply in_map_iff in Hi as [x [<- Hx]].
      destruct (Hearly x Hx) as [E|Hin]; [|exact Hin].
      exfalso. apply (nearby_not_start x); [|auto].
      apply (Permutation_in _ (Permutation_sym Hperm)). exact Hx. }
    assert (Hnds : NoDup (map placeId shuffled)).
    { apply (Permutation_NoDup (Permutation_map placeId Hperm)). exact Hdistinct. }
    apply (NoDup_incl_length Hnds) in Hincl. rewrite !length_map in Hincl.
    apply Permutation_length in Hperm. lia.
Qed.

(** Whatever the sort leaves: the loop built is closed and visits no
    identifier twice. *)
Lemma built_distinctLoop shuffled k built k' :
  extendRoute W start targetKm nStops (Z.to_nat (nStops - 1)) shuffled [start] k
    = (Ok built, k') ->
  distinctLoop start (closeLoop start built).
Proof.
  intros H.
  apply extendRoute_adds in H as [added [-> [_ [_ [Hnodup _]]]]].
  simpl in Hnodup |- *.
  assert (Hnd : NoDup (placeId start :: map placeId added)).
  { apply Hnodup. repeat constructor. intros []. }
  exists added. split; [|exact Hnd].
  apply closeLoop_loopOf. intros x Hx E.
  apply NoDup_cons_iff in Hnd as [Hstart _]. apply Hstart.
  rewrite <- E. apply in_map. exact Hx.
Qed.

(** A property of the loops that every built loop has is a property of all
    the loops a call returns. *)
Section Kept.

Variable P : list TacoBellLocation -> Prop.
Variable nearby : list TacoBellLocation.

Hypothesis built_P :
  forall d k built k',
    extendRoute W start targetKm nStops (Z.to_nat (nStops - 1))
                (fst (sortRandomly W d nearby)) [start] k = (Ok built, k') ->
    P (closeLoop start built).

Lemma attempt_keeps st st' k :
  attempt W start targetKm nStops nearby st = (Ok st', k) ->
  allLoops P st -> allLoops P st'.
Proof.
  unfold attempt. intros H Hst.
  assert (Hbuilt := built_P (draws st)).
  destruct (sortRandomly W (draws st) nearby) as [shuffled k1]. simpl in Hbuilt.
  destruct (extendRoute W start targetKm nStops (Z.to_nat (nStops - 1)) shuffled [start] k1)
    as [[built|e] k2] eqn:E; [|discriminate].
  specialize (Hbuilt _ _ _ E).
  destruct (existsb _ (seenRoutes st)).
  { injection H as <- _. exact Hst. }
  destruct (JSMath.ltb _ _).
  { injection H as <- _. exact Hst. }
  unfold scoreRoute in H. injection H as <- _.
  intros c Hc. simpl in Hc. apply in_app_or in Hc as [Hc|[<-|[]]]; auto.
Qed.

Lemma iterate_keeps iterations : forall st st' k,
  iterate W start targetKm nStops iterations nearby st = (Ok st', k) ->
  allLoops P st -> allLoops P st'.
Proof.
  induction iterations as [|n IH]; intros st st' k H Hst; simpl in H.
  - injection H as <- _. exact Hst.
  - destruct (attempt W start targetKm nStops nearby st) as [[st1|e] k1] eqn:Hattempt;
      [|discriminate].
    apply (IH _ _ _ H). eapply attempt_keeps; eassumption.
Qed.

End Kept.

Lemma generateCandidateRoutes_keeps (P : list TacoBellLocation -> Prop)
    allTacoBells iterations k found k' :
  ((nStops - 1 <= Z.of_nat (List.length (nearbyOf start allTacoBells)))%Z ->
   forall d k built k',
     extendRoute W start targetKm nStops (Z.to_nat (nStops - 1))
                 (fst (sortRandomly W d (nearbyOf start allTacoBells))) [start] k
       = (Ok built, k') ->
     P (closeLoop start built)) ->
  generateCandidateRoutes W start targetKm nStops allTacoBells iterations k
    = (Ok found, k') ->
  forall c, In c found -> P (stops c).
Proof.
  unfold generateCandidateRoutes. intros HP H c Hc.
  destruct (Z.ltb_spec (Z.of_nat (List.length (nearbyOf start allTacoBells))) (nStops - 1))
    as [Hfew|Henough]; [discriminate|].
  destruct (iterate W start targetKm nStops iterations (nearbyOf start allTacoBells)
              (mkGen [] [] k)) as [[st|e] k1] eqn:Hiter; [|discriminate].
  injection H as <- _. apply sortBy_In in Hc.
  refine (iterate_keeps P _ (HP Henough) _ _ _ _ Hiter _ c Hc).
  intros c' [].
Qed.

(** Every loop the generator returns is closed and visits no identifier
    twice. *)
Lemma generateCandidateRoutes_distinctLoop allTacoBells iterations k found k' :
  generateCandidateRoutes W start targetKm nStops allTacoBells iterations k
    = (Ok found, k') ->
  forall c, In c found -> distinctLoop start (stops c).
Proof.
  apply generateCandidateRoutes_keeps.
  intros _ d k1 built k2. apply built_distinctLoop.
Qed.

(** Every loop the generator returns is a good loop over the stops within
    24,140 meters of the start. *)
Lemma generateCandidateRoutes_goodLoop allTacoBells iterations k found k' :
  generateCandidateRoutes W start targetKm nStops allTacoBells iterations k
    = (Ok found, k') ->
  forall c, In c found ->
    goodLoop start nStops (nearbyOf start allTacoBells) (stops c).
Proof.
  apply generateCandidateRoutes_keeps.
  intros Henough d k1 built k2. apply built_goodLoop.
  - intros x Hx. apply nearbyOf_In in Hx. tauto.
  - exact Henough.
  - apply sortRandomly_perm.
Qed.

End GeneratorFacts.

Lemma In_loopOf start visited x :
  In x (loopOf start visited) <-> x = start \/ In x visited.
Proof.
  destruct visited as [|y visited]; simpl.
  - intuition.
  - rewrite in_app_iff. simpl. intuition.
Qed.

(** C10: the stops of every returned route other than the start lie within
    24,140 meters of the start, a bound that no parameter of the generator
    changes, and a pool member farther away is in no returned route. *)
Theorem generated_stops_within_24140 :
  forall (W : World) (start : TacoBellLocation) (targetKm : R) (nStops : Z)
         (allTacoBells : list TacoBellLocation) (iterations k : nat)
         (found : list RouteCandidate) (k' : nat) (c : RouteCandidate),
    (forall k l, Permutation l (fst (sortRandomly W k l))) ->
    generateCandidateRoutes W start targetKm nStops allTacoBells iterations k
      = (Ok found, k') ->
    In c found ->
    (forall stop, In stop (stops c) -> stop <> start ->
       In stop allTacoBells /\ distanceBetween start stop <= 24140) /\
    (forall member, In member allTacoBells ->
       24140 < distanceBetween start member -> ~ In member (stops c)).
Proof.
  intros W start targetKm nStops allTacoBells iterations k found k' c Hperm Hgen Hc.
  destruct (generateCandidateRoutes_goodLoop W start targetKm nStops Hperm
              _ _ _ _ _ Hgen c Hc) as [visited [Hloop [Hfrom _]]].
  assert (Hnear : forall stop, In stop (stops c) -> stop <> start ->
                    In stop allTacoBells /\ distanceBetween start stop <= 24140).
  { intros stop Hin Hne. rewrite Hloop in Hin. apply In_loopOf in Hin as [E|Hin];
      [contradiction|].
    apply Hfrom, nearbyOf_In in Hin. tauto. }
  split; [exact Hnear|].
  intros member _ Hfar Hin.
  destruct (Hnear member Hin) as [_ Hle]; [|lra].
  intros ->. rewrite distanceBetween_refl in Hfar. lra.
Qed.

Lemma loopOf_closed start visited :
  hd_error (loopOf start visited) = Some start /\
  List.last (loopOf start visited) start = start.
Proof.
  destruct visited as [|x visited]; [split; reflexivity|].
  split; [reflexivity|]. unfold loopOf.
  change (start :: (x :: visited) ++ [start]) with ((start :: x :: visited) ++ [start]).
  apply last_last.
Qed.

Lemma dropLast_loopOf start visited :
  JS.dropLast (loopOf start visited) =
  match visited with
  | [] => []
  | _ => start :: visited
  end.
Proof.
  destruct visited as [|x visited]; [reflexivity|].
  unfold JS.dropLast, loopOf.
  change (start :: (x :: visited) ++ [start]) with ((start :: x :: visited) ++ [start]).
  apply removelast_last.
Qed.

(** The stops a loop visits besides the start are at most [nStops - 1]. *)
Lemma built_boundedLoop W start targetKm nStops nearby shuffled k built k' :
  (nStops - 1 <= Z.of_nat (List.length nearby))%Z ->
  (forall x, In x nearby -> placeId x <> placeId start) ->
  extendRoute W start targetKm nStops (Z.to_nat (nStops - 1)) shuffled [start] k
    = (Ok built, k') ->
  exists visited,
    closeLoop start built = loopOf start visited /\
    NoDup (placeId start :: map placeId visited) /\
    (Z.of_nat (List.length visited) <= Z.max 0 (nStops - 1))%Z /\
    (Permutation nearby shuffled ->
     (forall x, In x visited -> In x nearby) /\
     ((2 <= nStops)%Z -> visited <> [])).
Proof.
  intros Henough Hids H.
  apply extendRoute_adds in H as [added [-> [Hfrom [Hlen [Hnodup Hearly]]]]].
  simpl in Hnodup, Hearly.
  assert (Hnd : NoDup (placeId start :: map placeId added)).
  { apply Hnodup. repeat constructor. intros []. }
  exists added. split; [|split; [exact Hnd|split; [lia|]]].
  - apply closeLoop_loopOf. intros x Hx E.
    apply NoDup_cons_iff in Hnd as [Hstart _]. apply Hstart.
    rewrite <- E. apply in_map. exact Hx.
  - intros Hperm. split.
    + intros x Hx. apply (Permutation_in _ (Permutation_sym Hperm)). auto.
    + intros Htwo ->. simpl in Hearly.
      destruct shuffled as [|x shuffled].
      * apply Permutation_length in Hperm. simpl in Hperm. lia.
      * destruct (Hearly ltac:(lia) x (or_introl eq_refl)) as [E|[]].
        apply (Hids x); [|auto].
        apply (Permutation_in _ (Permutation_sym Hperm)). left. reflexivity.
Qed.

Lemma nodup_loopOf start visited :
  NoDup (placeId start :: map placeId visited) ->
  List.length (nodup string_dec (map placeId (loopOf start visited))) =
  S (List.length visited).
Proof.
  intros Hnd. apply NoDup_cons_iff in Hnd as [Hstart Hvisited].
  destruct visited as [|x visited]; [reflexivity|].
  unfold loopOf. cbn [map]. rewrite map_app. cbn [map nodup].
  change (placeId x :: map placeId visited) with (map placeId (x :: visited)).
  assert (Hall : NoDup (map placeId (x :: visited) ++ [placeId start])).
  { apply NoDup_app; [exact Hvisited | repeat constructor; intros [] |].
    intros y Hy [<-|[]]. apply Hstart. exact Hy. }
  rewrite (nodup_fixed_point string_dec Hall).
  destruct (in_dec string_dec (placeId start)
              (map placeId (x :: visited) ++ [placeId start])) as [_|Hout].
  - rewrite length_app, length_map. simpl. lia.
  - exfalso. apply Hout. apply in_or_app. right. left. reflexivity.
Qed.

(** C4, amended: every returned loop is closed, its first and last elements
    being the start; no visited identifier repeats and none is the start's.
    The identifiers of the loop, the start counted once, are one more than
    the stops visited; they are at least 1 and at most [max 1 nStops], and
    exactly [max 1 nStops] when the sort returns a permutation and the
    identifiers in range are pairwise distinct. *)
Theorem generated_loop_closed_distinct :
  forall (W : World) (start : TacoBellLocation) (targetKm : R) (nStops : Z)
         (allTacoBells : list TacoBellLocation) (iterations k : nat)
         (found : list RouteCandidate) (k' : nat) (c : RouteCandidate),
    generateCandidateRoutes W start targetKm nStops allTacoBells iterations k
      = (Ok found, k') ->
    In c found ->
    let loop := stops c in
    let members := nodup string_dec (map placeId loop) in
    hd_error loop = Some start /\
    List.last loop start = start /\
    NoDup (map placeId (JS.interior loop)) /\
    ~ In (placeId start) (map placeId (JS.interior loop)) /\
    NoDup (map placeId (JS.dropLast loop)) /\
    List.length members = S (List.length (JS.interior loop)) /\
    (1 <= Z.of_nat (List.length members) <= Z.max 1 nStops)%Z /\
    ((forall k l, Permutation l (fst (sortRandomly W k l))) ->
     NoDup (map placeId (nearbyOf start allTacoBells)) ->
     Z.of_nat (List.length members) = Z.max 1 nStops).
Proof.
  intros W start targetKm nStops allTacoBells iterations k found k' c Hgen Hc loop members.
  assert (Hloop :
    exists visited,
      stops c = loopOf start visited /\
      NoDup (placeId start :: map placeId visited) /\
      (Z.of_nat (List.length visited) <= Z.max 0 (nStops - 1))%Z).
  { pattern (stops c).
    refine (generateCandidateRoutes_keeps W start targetKm nStops _ _ _ _ _ _ _ Hgen c Hc).
    intros Henough d k1 built k2 Hbuilt.
    destruct (built_boundedLoop W start targetKm nStops
                (nearbyOf start allTacoBells) _ _ _ _ Henough
                (fun x Hx => proj2 (proj2 (proj1 (nearbyOf_In start allTacoBells x) Hx))) Hbuilt)
      as [visited [E [Hnd [Hlen _]]]].
    exists visited. auto. }
  destruct Hloop as [visited [Hloop [Hnd Hlen]]].
  assert (Hmembers : List.length members = S (List.length visited)).
  { unfold members, loop. rewrite Hloop. apply nodup_loopOf. exact Hnd. }
  assert (Hinterior : JS.interior loop = visited).
  { unfold loop. rewrite Hloop. apply interior_loopOf. }
  assert (Hdrop : NoDup (map placeId (JS.dropLast loop))).
  { unfold loop. rewrite Hloop, dropLast_loopOf.
    destruct visited; [constructor | exact Hnd]. }
  destruct (loopOf_closed start visited) as [Hhd Hlast].
  assert (Hnd' := Hnd). apply NoDup_cons_iff in Hnd' as [Hstart Hvisited].
  split; [unfold loop; rewrite Hloop; exact Hhd|].
  split; [unfold loop; rewrite Hloop; exact Hlast|].
  split; [rewrite Hinterior; exact Hvisited|].
  split; [rewrite Hinterior; exact Hstart|].
  split; [exact Hdrop|].
  split; [rewrite Hinterior; exact Hmembers|].
  split; [rewrite Hmembers; lia|].
  intros Hperm Hdistinct.
  destruct (generateCandidateRoutes_goodLoop W start targetKm nStops Hperm
              _ _ _ _ _ Hgen c Hc) as [visited' [Hloop' [_ [_ [_ Heq]]]]].
  assert (visited' = visited).
  { rewrite Hloop' in Hloop. apply (f_equal JS.interior) in Hloop.
    rewrite !interior_loopOf in Hloop. exact Hloop. }
  subst visited'. rewrite Hmembers. specialize (Heq Hdistinct). lia.
Qed.

(** ** Candidate route generator: runs with a single outcome *)

Lemma leb_refl x : JSMath.leb x x = true.
Proof. apply leb_true. lra. Qed.

Lemma sortBy_repeat {A : Type} (keeps : A -> A -> bool) (x : A) n :
  keeps x x = true -> JS.sortBy keeps (repeat x n) = repeat x n.
Proof.
  intros Hx. induction n as [|n IH]; [reflexivity|].
  simpl. change (fold_right (JS.insertBy keeps) [] (repeat x n))
    with (JS.sortBy keeps (repeat x n)).
  rewrite IH. destruct n; simpl; [reflexivity|]. rewrite Hx. reflexivity.
Qed.

Lemma filter_repeat {A : Type} (f : A -> bool) (x : A) n :
  filter f (repeat x n) = if f x then repeat x n else [].
Proof.
  induction n as [|n IH]; simpl; [destruct (f x); reflexivity|].
  rewrite IH. destruct (f x); reflexivity.
Qed.

(** A call of the generator all of whose attempts build the same loop
    returns that loop once. *)
Lemma generate_same_attempt W start targetKm nStops allTacoBells
    (signature : string) (candidate : RouteCandidate) :
  (Z.of_nat (List.length (nearbyOf start allTacoBells)) <? nStops - 1)%Z = false ->
  (forall st, exists k,
      attempt W start targetKm nStops (nearbyOf start allTacoBells) st =
      (Ok (if existsb (String.eqb signature) (seenRoutes st)
           then mkGen (gen_routes st) (seenRoutes st) k
           else mkGen (gen_routes st ++ [candidate])
                      (seenRoutes st ++ [signature]) k), k)) ->
  forall iterations k, exists k',
    generateCandidateRoutes W start targetKm nStops allTacoBells (S iterations) k =
    (Ok [candidate], k').
Proof.
  intros Hguard Hattempt iterations k.
  unfold generateCandidateRoutes. rewrite Hguard. simpl iterate.
  destruct (Hattempt (mkGen [] [] k)) as [k1 E]. rewrite E. simpl.
  assert (Hrest : forall n st,
             existsb (String.eqb signature) (seenRoutes st) = true ->
             exists k2, iterate W start targetKm nStops n (nearbyOf start allTacoBells) st =
                        (Ok (mkGen (gen_routes st) (seenRoutes st) k2), k2)).
  { induction n as [|n IH]; intros st Hseen; simpl.
    - exists (draws st). destruct st; reflexivity.
    - destruct (Hattempt st) as [k2 E2]. rewrite E2, Hseen.
      apply (IH (mkGen (gen_routes st) (seenRoutes st) k2)). exact Hseen. }
  destruct (Hrest iterations (mkGen [candidate] [signature] k1)) as [k2 E2].
  { simpl. rewrite String.eqb_refl. reflexivity. }
  rewrite E2. exists k2. reflexivity.
Qed.

(** With a desired stop count of 1 the generator returns the start alone,
    with distance 0 and score [Infinity], whatever the pool. *)
Section OneStop.

Variable W : World.
Variable start : TacoBellLocation.
Variable targetKm : R.
Hypothesis targetKm_nonneg : 0 <= targetKm.

Let startAlone : RouteCandidate := mkCand [start] 0 Infinity.

Lemma attempt_one_stop nearby st :
  exists k,
    attempt W start targetKm 1 nearby st =
    (Ok (if existsb (String.eqb "") (seenRoutes st)
         then mkGen (gen_routes st) (seenRoutes st) k
         else mkGen (gen_routes st ++ [startAlone]) (seenRoutes st ++ [""%string]) k), k).
Proof.
  unfold attempt.
  destruct (sortRandomly W (draws st) nearby) as [shuffled k1].
  exists k1.
  change (extendRoute W start targetKm 1 (Z.to_nat (1 - 1)) shuffled [start] k1)
    with (@Ok (list TacoBellLocation) [start], k1).
  cbv beta iota zeta.
  change (routeSignature (closeLoop start [start])) with ""%string.
  change (closeLoop start [start]) with [start].
  destruct (existsb (String.eqb "") (seenRoutes st)); [reflexivity|].
  replace (JSMath.ltb (targetKm * 1.1) (routeDistance [start] / 1000 * 1.18)) with false.
  - reflexivity.
  - symmetry. apply ltb_false. unfold routeDistance. simpl. lra.
Qed.

Lemma generate_one_stop allTacoBells iterations k :
  exists k',
    generateCandidateRoutes W start targetKm 1 allTacoBells (S iterations) k =
    (Ok [startAlone], k').
Proof.
  apply (generate_same_attempt W start targetKm 1 allTacoBells "" startAlone).
  - apply Z.ltb_ge. lia.
  - intros st. apply attempt_one_stop.
Qed.

End OneStop.

(** In the example world, from [s] with copies of [a] as the only stops in
    range, every attempt builds the loop s, a, s. *)
Section OutAndBack.

Variable places : list Place.
Variable nStops : Z.
Variable copies : nat.
Hypothesis two_or_more : (2 <= nStops)%Z.
Hypothesis enough_copies : (nStops - 1 <= Z.of_nat (S copies))%Z.

Let W0 : World := Example.world places.
Let nearby : list TacoBellLocation := repeat Example.a (S copies).

Lemma tenth_bounds : 10618 < Example.tenth <= 14158.
Proof.
  unfold Example.tenth. assert (H1 := PI2_3_2). assert (H2 := PI_4). lra.
Qed.

Lemma nearbyOf_copies :
  nearbyOf Example.s (nearby ++ [Example.s]) = nearby.
Proof.
  unfold nearbyOf. rewrite filter_app. unfold nearby. rewrite filter_repeat.
  assert (Ha : JSMath.leb (distanceBetween Example.s Example.a) 24140 = true).
  { apply leb_true. rewrite distance_s_a. assert (H := tenth_bounds). lra. }
  cbv beta zeta. rewrite Ha. simpl.
  rewrite andb_false_r, app_nil_r. reflexivity.
Qed.

Lemma sortRandomly_copies k :
  fst (sortRandomly W0 k nearby) = nearby.
Proof.
  apply Permutation_repeat. symmetry. apply insertionShuffle_perm.
Qed.

Lemma extendRoute_copies remaining k :
  extendRoute W0 Example.s 50 nStops (S remaining) nearby [Example.s] k =
  (Ok [Example.s; Example.a], S k).
Proof.
  cbn [extendRoute].
  assert (Hscore : exists sc, tb sc = Example.a /\
            scoreCandidates Example.s 50 nStops nearby [Example.s] = repeat sc (S copies)).
  { eexists. split; [|unfold scoreCandidates, nearby; rewrite filter_repeat;
                       simpl negb; cbv iota; rewrite map_repeat; reflexivity].
    reflexivity. }
  destruct Hscore as [sc [Htb ->]].
  rewrite repeat_length. cbn [Nat.eqb].
  assert (Hrank : exists sc', tb sc' = Example.a /\
            rankCandidates 50 nStops (repeat sc (S copies)) = repeat sc' (S copies)).
  { eexists. split; [|unfold rankCandidates; rewrite sortBy_repeat by apply leb_refl;
                       rewrite map_repeat; rewrite sortBy_repeat by apply leb_refl;
                       reflexivity].
    simpl. exact Htb. }
  destruct Hrank as [sc' [Htb' ->]].
  unfold selectCandidate.
  holds (JSMath.ltb (random W0 k) 0.7).
  cbn [orb nth_error repeat]. rewrite Htb'.
  destruct remaining as [|remaining]; [reflexivity|].
  cbn [extendRoute].
  replace (scoreCandidates Example.s 50 nStops nearby ([Example.s] ++ [Example.a]))
    with (@nil Scored); [reflexivity|].
  unfold scoreCandidates, nearby. rewrite filter_repeat. reflexivity.
Qed.

Lemma outAndBack_not_too_long :
  JSMath.ltb (50 * 1.1) (routeDistance [Example.s; Example.a; Example.s] / 1000 * 1.18)
  = false.
Proof.
  apply ltb_false. unfold routeDistance, sum. simpl.
  rewrite (distanceBetween_sym Example.a), distance_s_a.
  assert (H := tenth_bounds). lra.
Qed.

Lemma attempt_copies st :
  exists k,
    attempt W0 Example.s 50 nStops nearby st =
    (Ok (if existsb (String.eqb "a") (seenRoutes st)
         then mkGen (gen_routes st) (seenRoutes st) k
         else mkGen (gen_routes st ++ [Example.outAndBack])
                    (seenRoutes st ++ ["a"%string]) k), k).
Proof.
  unfold attempt.
  assert (Hshuffle := sortRandomly_copies (draws st)).
  destruct (sortRandomly W0 (draws st) nearby) as [shuffled k1]. simpl in Hshuffle.
  subst shuffled.
  replace (Z.to_nat (nStops - 1)) with (S (Z.to_nat (nStops - 2))) by lia.
  rewrite extendRoute_copies. exists (S k1).
  cbv beta iota zeta.
  change (closeLoop Example.s [Example.s; Example.a])
    with [Example.s; Example.a; Example.s].
  change (routeSignature [Example.s; Example.a; Example.s]) with "a"%string.
  destruct (existsb (String.eqb "a") (seenRoutes st)); [reflexivity|].
  rewrite outAndBack_not_too_long. reflexivity.
Qed.

Lemma generate_copies iterations k :
  exists k',
    generateCandidateRoutes W0 Example.s 50 nStops (nearby ++ [Example.s])
      (S iterations) k = (Ok [Example.outAndBack], k').
Proof.
  apply (generate_same_attempt W0 Example.s 50 nStops (nearby ++ [Example.s])
           "a" Example.outAndBack).
  - rewrite nearbyOf_copies. apply Z.ltb_ge. unfold nearby.
    rewrite repeat_length. lia.
  - rewrite nearbyOf_copies. apply attempt_copies.
Qed.

End OutAndBack.

Lemma a_is_not_s : Example.a <> Example.s.
Proof. intros E. apply (f_equal placeId) in E. discriminate E. Qed.

Lemma example_sort_perm places :
  forall k l, Permutation l (fst (sortRandomly (Example.world places) k l)).
Proof. intros k l. apply insertionShuffle_perm. Qed.

Lemma generated_stops_within_24140_witness :
  In Example.a [Example.a; Example.s] /\
  distanceBetween Example.s Example.a <= 24140.
Proof.
  destruct (generate_copies [] 2 0 ltac:(lia) ltac:(simpl; lia) 199 0) as [k' E].
  apply (generated_stops_within_24140 (Example.world []) Example.s 50 2
           [Example.a; Example.s] 200 0 [Example.outAndBack] k' Example.outAndBack
           (example_sort_perm []) E (or_introl eq_refl)).
  - simpl. auto.
  - exact a_is_not_s.
Defined.

Lemma generated_loop_closed_distinct_witness :
  NoDup (map placeId (JS.interior (stops Example.outAndBack))) /\
  Z.of_nat (List.length (nodup string_dec (map placeId (stops Example.outAndBack))))
    = Z.max 1 2.
Proof.
  destruct (generate_copies [] 2 0 ltac:(lia) ltac:(simpl; lia) 199 0) as [k' E].
  destruct (generated_loop_closed_distinct (Example.world []) Example.s 50 2
              [Example.a; Example.s] 200 0 [Example.outAndBack] k' Example.outAndBack
              E (or_introl eq_refl))
    as [_ [_ [Hdistinct [_ [_ [_ [_ Hcount]]]]]]].
  split; [exact Hdistinct|]. apply Hcount; [apply example_sort_perm|].
  replace (nearbyOf Example.s [Example.a; Example.s]) with [Example.a]
    by (symmetry; exact (nearbyOf_copies 0)).
  repeat constructor. intros [].
Defined.

(** C4, as stated, fails: when the pool holds the identifier "a" twice and
    three stops are asked for, the generator returns the loop s, a, s,
    whose identifiers are two and not three. *)
Lemma duplicate_identifier_shortens_loop :
  exists found k' c,
    generateCandidateRoutes (Example.world []) Example.s 50 3
      [Example.a; Example.a; Example.s] 200 0 = (Ok found, k') /\
    In c found /\
    stops c = [Example.s; Example.a; Example.s] /\
    List.length (nodup string_dec (map placeId (stops c))) = 2%nat /\
    Z.of_nat (List.length (nodup string_dec (map placeId (stops c)))) <> 3%Z.
Proof.
  destruct (generate_copies [] 3 1 ltac:(lia) ltac:(simpl; lia) 199 0) as [k' E].
  exists [Example.outAndBack], k', Example.outAndBack.
  split; [exact E|]. split; [left; reflexivity|]. split; [reflexivity|].
  split; [reflexivity | discriminate].
Qed.

(** ** Candidate route generator: nearest stop first

    When every draw is below 0.7 the generator always takes the first of
    the ranked candidates, and the ranking by the combined score is the
    ranking by distance. *)

Lemma sortBy_ascending {A : Type} (key : A -> R) (l : list A) :
  ascendingBy key l ->
  JS.sortBy (fun a b => JSMath.leb (key a) (key b)) l = l.
Proof.
  induction l as [|x [|y l] IH]; intros Hasc; try reflexivity.
  destruct Hasc as [Hxy Hrest].
  change (JS.sortBy (fun a b => JSMath.leb (key a) (key b)) (x :: y :: l))
    with (JS.insertBy (fun a b => JSMath.leb (key a) (key b)) x
            (JS.sortBy (fun a b => JSMath.leb (key a) (key b)) (y :: l))).
  rewrite (IH Hrest). simpl. apply leb_true in Hxy. rewrite Hxy. reflexivity.
Qed.

Lemma combined_monotone T d1 d2 :
  0 < T -> d1 <= d2 ->
  0.7 * (d1 / T) + 0.3 * (Rabs (d1 - T) / T) <=
  0.7 * (d2 / T) + 0.3 * (Rabs (d2 - T) / T).
Proof.
  intros HT Hd. unfold Rdiv.
  assert (Hi : 0 < / T) by (apply Rinv_0_lt_compat; exact HT).
  assert (Habs : Rabs (d1 - T) <= Rabs (d2 - T) + (d2 - d1)).
  { unfold Rabs. destruct (Rcase_abs (d1 - T)), (Rcase_abs (d2 - T)); lra. }
  replace (0.7 * (d1 * / T) + 0.3 * (Rabs (d1 - T) * / T))
    with ((0.7 * d1 + 0.3 * Rabs (d1 - T)) * / T) by ring.
  replace (0.7 * (d2 * / T) + 0.3 * (Rabs (d2 - T) * / T))
    with ((0.7 * d2 + 0.3 * Rabs (d2 - T)) * / T) by ring.
  apply Rmult_le_compat_r; lra.
Qed.

Section NearestFirst.

Variable W : World.
Variable start : TacoBellLocation.
Variable targetKm : R.
Variable nStops : Z.

Hypothesis low_draws : forall k, random W k < 0.7.
Hypothesis positive_target : 0 < targetAvgSegmentM targetKm nStops.

Let combinedOf (c : Scored) : Scored :=
  mkScored (tb c) (distance c)
           (0.7 * (distance c / targetAvgSegmentM targetKm nStops) +
            0.3 * (balanceScore c / targetAvgSegmentM targetKm nStops)).

Lemma combined_ascending candidates :
  (forall c, In c candidates ->
     balanceScore c = Rabs (distance c - targetAvgSegmentM targetKm nStops)) ->
  ascendingBy distance candidates ->
  ascendingBy balanceScore (map combinedOf candidates).
Proof.
  induction candidates as [|x [|y l] IH]; intros Hbal Hasc; simpl; auto.
  destruct Hasc as [Hxy Hrest]. split.
  - rewrite (Hbal x), (Hbal y) by (simpl; auto).
    apply combined_monotone; assumption.
  - apply IH; [|exact Hrest]. intros c Hc. apply Hbal. right. exact Hc.
Qed.

Lemma rankCandidates_ascending candidates :
  (forall c, In c candidates ->
     balanceScore c = Rabs (distance c - targetAvgSegmentM targetKm nStops)) ->
  ascendingBy distance candidates ->
  rankCandidates targetKm nStops candidates = map combinedOf candidates.
Proof.
  intros Hbal Hasc. unfold rankCandidates.
  rewrite (sortBy_ascending distance candidates Hasc).
  apply (sortBy_ascending balanceScore). apply combined_ascending; assumption.
Qed.

Lemma scoreCandidates_balance shuffled route c :
  In c (scoreCandidates start targetKm nStops shuffled route) ->
  balanceScore c = Rabs (distance c - targetAvgSegmentM targetKm nStops).
Proof.
  unfold scoreCandidates. intros H. apply in_map_iff in H as [x [<- _]]. reflexivity.
Qed.

(** One pass of the loop takes the nearest candidate. *)
Lemma extendRoute_nearest remaining shuffled route k nearest others :
  scoreCandidates start targetKm nStops shuffled route = nearest :: others ->
  ascendingBy distance (nearest :: others) ->
  extendRoute W start targetKm nStops (S remaining) shuffled route k =
  extendRoute W start targetKm nStops remaining shuffled (route ++ [tb nearest]) (S k).
Proof.
  intros Hscore Hasc. cbn [extendRoute].
  assert (Hrank : rankCandidates targetKm nStops (nearest :: others) =
                  map combinedOf (nearest :: others)).
  { apply rankCandidates_ascending; [|exact Hasc].
    intros c Hc. rewrite <- Hscore in Hc.
    eapply scoreCandidates_balance; eassumption. }
  rewrite Hscore, Hrank. cbn [List.length Nat.eqb map].
  unfold selectCandidate.
  replace (JSMath.ltb (random W k) 0.7) with true
    by (symmetry; apply ltb_true, low_draws).
  reflexivity.
Qed.

End NearestFirst.

(** ** Verification loop *)

Lemma considerDistance_adopts config i candidate totalDistance st :
  codeAdopts config st totalDistance ->
  considerDistance config i candidate totalDistance st =
  mkVerify (Some candidate) (Fin totalDistance) (Z.of_nat i)
           (apiCallCount st) (requests st).
Proof.
  intros [[Hmin Hmax] Hbest]. unfold considerDistance.
  apply leb_true in Hmin, Hmax. rewrite Hmin, Hmax. cbn [andb].
  destruct Hbest as [Hnone|Hbest].
  - rewrite Hnone. cbn [isNull]. rewrite !orb_true_r. reflexivity.
  - destruct (bestRoute st) as [current|]; cbn [isNull];
      [|rewrite !orb_true_r; reflexivity].
    destruct (bestActualDistance st) as [best|]; cbn [Num.ltb Num.div Num.absdiff Num.leb].
    + destruct Hbest as [Hlt Hle]. apply ltb_true in Hlt. apply leb_true in Hle.
      rewrite Hlt, Hle. reflexivity.
    + reflexivity.
Qed.

Lemma considerDistance_keeps config i candidate totalDistance st :
  ~ codeAdopts config st totalDistance ->
  considerDistance config i candidate totalDistance st = st.
Proof.
  intros Hnot. unfold considerDistance.
  destruct (JSMath.leb (minDistanceMeters config) totalDistance) eqn:Hmin;
    [|reflexivity].
  destruct (JSMath.leb totalDistance (maxDistanceMeters config)) eqn:Hmax;
    [|reflexivity].
  cbn [andb]. apply leb_true in Hmin, Hmax.
  destruct (bestRoute st) as [current|] eqn:Hcur; cbn [isNull];
    [|exfalso; apply Hnot; split; auto].
  rewrite !orb_false_r.
  destruct (bestActualDistance st) as [best|] eqn:Hbest;
    cbn [Num.ltb Num.div Num.absdiff Num.leb].
  - destruct (JSMath.ltb totalDistance best) eqn:Hlt; [|reflexivity].
    destruct (JSMath.leb (Rabs (totalDistance / 1000 - targetKm))
                         (Rabs (best / 1000 - targetKm))) eqn:Hle; [|reflexivity].
    exfalso. apply Hnot. split; [auto|]. right. rewrite Hbest.
    apply ltb_true in Hlt. apply leb_true in Hle. auto.
  - exfalso. apply Hnot. split; [auto|]. right. rewrite Hbest. exact I.
Qed.

(** Two passes of the loop where the rule of the specification and the
    code part: with the range 48,280 to 54,717 meters and a best verified
    distance of 49,000 meters, a second candidate verified at 50,500
    meters is in range and closer to the 50 km target, and the best
    candidate stays the first one. *)
Lemma nearer_but_longer_is_not_adopted :
  let first :=
    verifyCandidate Example.worldWithDirections Example.s Example.milesConfig
                    0 Example.loopOfThree initialVerify in
  let second :=
    verifyCandidate Example.worldWithDirections Example.s Example.milesConfig
                    1 Example.loopOfFour first in
  bestRoute first = Some Example.loopOfThree /\
  Spec.shouldAdopt Example.milesConfig first 50500 /\
  bestRoute second = Some Example.loopOfThree /\
  bestRoute second <> Some Example.loopOfFour.
Proof.
  assert (Hfirst :
    verifyCandidate Example.worldWithDirections Example.s Example.milesConfig
                    0 Example.loopOfThree initialVerify =
    mkVerify (Some Example.loopOfThree) (Fin (sum [49000])) 0 1 1).
  { unfold verifyCandidate. cbn [calculateRoute Example.worldWithDirections requests
                                  initialVerify routes].
    rewrite considerDistance_adopts; [reflexivity|].
    unfold codeAdopts, sum. simpl. split; [lra|]. left. reflexivity. }
  assert (Hsecond :
    verifyCandidate Example.worldWithDirections Example.s Example.milesConfig
                    1 Example.loopOfFour
                    (mkVerify (Some Example.loopOfThree) (Fin (sum [49000])) 0 1 1) =
    mkVerify (Some Example.loopOfThree) (Fin (sum [49000])) 0 2 2).
  { unfold verifyCandidate. cbn [calculateRoute Example.worldWithDirections requests
                                  routes].
    rewrite considerDistance_keeps; [reflexivity|].
    unfold codeAdopts, sum. simpl. intros [_ [H|[H _]]]; [discriminate H | lra]. }
  intros first second. subst first second. rewrite Hfirst, Hsecond. simpl.
  split; [reflexivity|]. split; [|split; [reflexivity|]].
  - unfold Spec.shouldAdopt. simpl. split; [lra|]. right.
    exists (sum [49000]). split; [reflexivity|].
    unfold sum, targetKm. simpl.
    rewrite (Rabs_pos_eq (50500 / 1000 - 50)) by lra.
    rewrite (Rabs_left ((0 + 49000) / 1000 - 50)) by lra. lra.
  - intros E.
    apply (f_equal (fun o => match o with
                             | Some c => List.length (stops c)
                             | None => O
                             end)) in E.
    discriminate E.
Qed.

(** When the range starts at the 50 km target or above, as it does by
    default, the rule of the code and the rule of the specification agree
    on every state whose best distance is in range. *)
Lemma adopts_as_specified_above_target config st totalDistance :
  50000 <= minDistanceMeters config ->
  (bestRoute st = None \/
   exists best, bestActualDistance st = Fin best /\ minDistanceMeters config <= best) ->
  codeAdopts config st totalDistance <-> Spec.shouldAdopt config st totalDistance.
Proof.
  intros Hmin Hst. unfold codeAdopts, Spec.shouldAdopt, targetKm.
  split; intros [Hrange Hbest]; (split; [exact Hrange|]).
  - destruct Hbest as [Hnone|Hbest]; [left; exact Hnone|].
    destruct Hst as [Hnone|[best [Hfin Hin]]]; [left; exact Hnone|].
    right. exists best. split; [exact Hfin|]. rewrite Hfin in Hbest.
    rewrite !Rabs_pos_eq by lra. lra.
  - destruct Hbest as [Hnone|[best [Hfin Hcloser]]]; [left; exact Hnone|].
    destruct Hst as [Hnone|[best' [Hfin' Hin]]]; [left; exact Hnone|].
    right. rewrite Hfin. rewrite Hfin in Hfin'. injection Hfin' as <-.
    rewrite !Rabs_pos_eq in Hcloser by lra.
    rewrite !Rabs_pos_eq by lra. lra.
Qed.

Lemma verifyCandidate_failed W start config i candidate st :
  (exists e, calculateRoute W (requests st) (hd start (stops candidate))
               (List.last (stops candidate) start)
               (JS.interior (stops candidate)) = Throw e) ->
  verifyCandidate W start config i candidate st =
  mkVerify (bestRoute st) (bestActualDistance st) (bestRouteIndex st)
           (apiCallCount st) (S (requests st)).
Proof.
  intros [e E]. unfold verifyCandidate. rewrite E. reflexivity.
Qed.

Lemma verifyCandidate_verified W start config i candidate st legs others :
  calculateRoute W (requests st) (hd start (stops candidate))
    (List.last (stops candidate) start) (JS.interior (stops candidate))
    = Ok (mkDirections (Some (legs :: others))) ->
  verifyCandidate W start config i candidate st =
  considerDistance config i candidate (sum legs)
    (mkVerify (bestRoute st) (bestActualDistance st) (bestRouteIndex st)
              (apiCallCount st + 1) (S (requests st))).
Proof.
  intros E. unfold verifyCandidate. rewrite E. reflexivity.
Qed.

(** One pass of the verification loop, case by case: a candidate whose
    verified distance is within the range becomes the new best when no
    candidate was accepted before, or when its distance is shorter than the
    best verified distance and not farther from the 50 km target; in every
    other case, when the request fails and when the answer holds no route,
    the best candidate and its distance are unchanged. *)
Theorem verified_candidate_update :
  forall (W : World) (start : TacoBellLocation) (config : RouteFinderConfig)
         (i : nat) (candidate : RouteCandidate) (st : VerifyState),
    (forall legs others,
        calculateRoute W (requests st) (hd start (stops candidate))
          (List.last (stops candidate) start) (JS.interior (stops candidate))
          = Ok (mkDirections (Some (legs :: others))) ->
        let st' := verifyCandidate W start config i candidate st in
        (codeAdopts config st (sum legs) ->
         bestRoute st' = Some candidate /\ bestActualDistance st' = Fin (sum legs)) /\
        (~ codeAdopts config st (sum legs) ->
         bestRoute st' = bestRoute st /\
         bestActualDistance st' = bestActualDistance st)) /\
    ((exists e, calculateRoute W (requests st) (hd start (stops candidate))
                  (List.last (stops candidate) start)
                  (JS.interior (stops candidate)) = Throw e) ->
     let st' := verifyCandidate W start config i candidate st in
     bestRoute st' = bestRoute st /\ bestActualDistance st' = bestActualDistance st) /\
    (forall directions,
        calculateRoute W (requests st) (hd start (stops candidate))
          (List.last (stops candidate) start) (JS.interior (stops candidate))
          = Ok directions ->
        routes directions = None \/ routes directions = Some [] ->
        let st' := verifyCandidate W start config i candidate st in
        bestRoute st' = bestRoute st /\ bestActualDistance st' = bestActualDistance st).
Proof.
  intros W start config i candidate st. split; [|split].
  - intros legs others E st'. subst st'.
    rewrite (verifyCandidate_verified _ _ _ _ _ _ _ _ E). split; intros H.
    + rewrite considerDistance_adopts; [split; reflexivity | exact H].
    + rewrite considerDistance_keeps; [split; reflexivity | exact H].
  - intros E st'. subst st'. rewrite verifyCandidate_failed by exact E.
    split; reflexivity.
  - intros directions E Hnone st'. subst st'. unfold verifyCandidate.
    rewrite E. destruct Hnone as [-> | ->]; split; reflexivity.
Qed.

Lemma verified_candidate_update_witness :
  bestRoute (verifyCandidate Example.worldWithDirections Example.s
               Example.milesConfig 0 Example.loopOfThree initialVerify)
    = Some Example.loopOfThree /\
  bestActualDistance (verifyCandidate Example.worldWithDirections Example.s
               Example.milesConfig 0 Example.loopOfThree initialVerify)
    = Fin (sum [49000]).
Proof.
  apply (proj1 (verified_candidate_update Example.worldWithDirections Example.s
                  Example.milesConfig 0 Example.loopOfThree initialVerify)
               [49000] [] eq_refl).
  unfold codeAdopts, sum. simpl. split; [lra|]. left. reflexivity.
Defined.

(** *** The ceiling on requests *)

Lemma considerDistance_counts config i candidate totalDistance st :
  apiCallCount (considerDistance config i candidate totalDistance st) = apiCallCount st /\
  requests (considerDistance config i candidate totalDistance st) = requests st.
Proof.
  unfold considerDistance.
  repeat match goal with |- context [if ?b then _ else _] => destruct b end;
    split; reflexivity.
Qed.

Lemma verifyCandidate_counts W start config i candidate st :
  let st' := verifyCandidate W start config i candidate st in
  requests st' = S (requests st) /\
  (apiCallCount st <= apiCallCount st' <= apiCallCount st + 1)%Z.
Proof.
  unfold verifyCandidate.
  destruct (calculateRoute W _ _ _ _) as [directions|e]; simpl; [|split; lia].
  destruct (routes directions) as [[|legs others]|]; simpl; try (split; lia).
  destruct (considerDistance_counts config i candidate (sum legs)
              (mkVerify (bestRoute st) (bestActualDistance st) (bestRouteIndex st)
                        (apiCallCount st + 1) (S (requests st)))) as [-> ->].
  simpl. split; lia.
Qed.

(** The requests that return never outnumber the ceiling, and there is at
    most one request for each candidate handed to the loop. *)
Lemma verifyLoop_counts W start config candidates : forall i st,
  let st' := verifyLoop W start config candidates i st in
  (apiCallCount st' <= Z.max (apiCallCount st) (effectiveMaxApiCalls config))%Z /\
  (requests st' <= requests st + List.length candidates)%nat.
Proof.
  induction candidates as [|candidate rest IH]; intros i st; simpl.
  - split; lia.
  - destruct (Z.leb_spec (effectiveMaxApiCalls config) (apiCallCount st)); [split; lia|].
    destruct (verifyCandidate_counts W start config i candidate st) as [Hreq Hcount].
    destruct (IH (S i) (verifyCandidate W start config i candidate st)) as [H1 H2].
    simpl in *. split; lia.
Qed.

(** A request that throws is not counted: when every request throws, each
    candidate costs a request whatever the ceiling. *)
Lemma verifyLoop_all_requests_fail W start config candidates :
  (forall n origin destination waypoints,
      exists e, calculateRoute W n origin destination waypoints = Throw e) ->
  forall i st,
    (apiCallCount st < effectiveMaxApiCalls config)%Z ->
    verifyLoop W start config candidates i st =
    mkVerify (bestRoute st) (bestActualDistance st) (bestRouteIndex st)
             (apiCallCount st) (requests st + List.length candidates).
Proof.
  intros Hfail. induction candidates as [|candidate rest IH]; intros i st Hlt; simpl.
  - rewrite Nat.add_0_r. destruct st; reflexivity.
  - destruct (Z.leb_spec (effectiveMaxApiCalls config) (apiCallCount st)); [lia|].
    rewrite verifyCandidate_failed by apply Hfail.
    rewrite IH by (simpl; lia). simpl. f_equal. lia.
Qed.

(** ** Search orchestrator: one run written out

    The places search finds the single place [a]; one or two stops are
    asked for; every request for directions fails. *)

Lemma generateAll_appends W start allTacoBells nStops rest k acc found k' :
  generateCandidateRoutes W start targetKm nStops allTacoBells 200 k = (Ok found, k') ->
  generateAll W start allTacoBells (nStops :: rest) k acc =
  generateAll W start allTacoBells rest k' (acc ++ found).
Proof. intros E. simpl. rewrite E. reflexivity. Qed.

(** The merged list is the lists of the stop counts one after the other,
    in the order of the stop counts; nothing sorts it afterwards. *)
Lemma generateAll_concat W start allTacoBells counts : forall k acc,
  exists groups,
    Forall2 (fun nStops group =>
               exists k1 k2,
                 generateCandidateRoutes W start targetKm nStops allTacoBells 200 k1
                   = (Ok group, k2) \/
                 (group = [] /\ exists e,
                    generateCandidateRoutes W start targetKm nStops allTacoBells 200 k1
                      = (Throw e, k2)))
            counts groups /\
    fst (generateAll W start allTacoBells counts k acc) = acc ++ List.concat groups.
Proof.
  induction counts as [|nStops rest IH]; intros k acc.
  - exists []. split; [constructor | simpl; rewrite app_nil_r; reflexivity].
  - simpl.
    destruct (generateCandidateRoutes W start targetKm nStops allTacoBells 200 k)
      as [[found|e] k1] eqn:E.
    + destruct (IH k1 (acc ++ found)) as [groups [Hall Heq]].
      exists (found :: groups). split.
      * constructor; [|exact Hall]. exists k, k1. left. exact E.
      * rewrite Heq. simpl. rewrite app_assoc. reflexivity.
    + destruct (IH k1 acc) as [groups [Hall Heq]].
      exists ([] :: groups). split.
      * constructor; [|exact Hall]. exists k, k1. right. split; [reflexivity|].
        exists e. exact E.
      * rewrite Heq. reflexivity.
Qed.

(** When no verified distance is accepted, the result is built from the
    first of the merged candidates. *)
Lemma findOptimalRoute_falls_back_to_head W start config found first rest :
  findTacoBells W (lat start, lng start) (searchRadiusMiles config) = Ok found ->
  (minTacoBells config <= Z.of_nat (List.length found))%Z ->
  topCandidates W start config (withStart start found) = first :: rest ->
  bestRoute (verifyLoop W start config (first :: rest) O initialVerify) = None ->
  findOptimalRoute W start config =
  mkResult true (Some (JS.dropLast (stops first))) (Some (Fin (totalDistance first))) None.
Proof.
  intros Hfound Hmin Htop Hbest. unfold findOptimalRoute, findOptimalRouteTraced.
  rewrite Hfound.
  destruct (Z.ltb_spec (Z.of_nat (List.length found)) (minTacoBells config)); [lia|].
  cbv zeta. rewrite Htop, Hbest. reflexivity.
Qed.

(** *** The run on three places

    The places search finds [near], [mid] and [a]; three or four stops are
    asked for; every draw is 0 and every request for directions fails. *)

Lemma distance_on_equator p q :
  lat p = 0 -> lat q = 0 -> 0 <= lng q - lng p < 180 ->
  distanceBetween p q = Example.tenth * (10 * (lng q - lng p)).
Proof.
  intros Hp Hq Hlng. unfold distanceBetween. rewrite Hp, Hq.
  rewrite haversineDistance_equator by exact Hlng.
  unfold Example.tenth. replace 0.1 with (1 / 10) by lra. field.
Qed.

Lemma distance_s_near : distanceBetween Example.s Example.near = Example.tenth * 0.01.
Proof. rewrite distance_on_equator by (simpl; lra). simpl. lra. Qed.

Lemma distance_s_mid : distanceBetween Example.s Example.mid = Example.tenth * 0.5.
Proof. rewrite distance_on_equator by (simpl; lra). simpl. lra. Qed.

Lemma distance_near_mid : distanceBetween Example.near Example.mid = Example.tenth * 0.49.
Proof. rewrite distance_on_equator by (simpl; lra). simpl. lra. Qed.

Lemma distance_near_a : distanceBetween Example.near Example.a = Example.tenth * 0.99.
Proof. rewrite distance_on_equator by (simpl; lra). simpl. lra. Qed.

Lemma distance_mid_a : distanceBetween Example.mid Example.a = Example.tenth * 0.5.
Proof. rewrite distance_on_equator by (simpl; lra). simpl. lra. Qed.

Lemma insertionShuffle_low_draws rnd l :
  (forall k, rnd k < 0.5) -> forall k, fst (insertionShuffle rnd k l) = l.
Proof.
  intros Hlow. induction l as [|x l IH]; intros k; [reflexivity|].
  simpl. specialize (IH k). destruct (insertionShuffle rnd k l) as [sorted k1].
  simpl in IH. subst sorted. destruct l as [|y l]; [reflexivity|].
  simpl. replace (JSMath.ltb (rnd k1 - 0.5) 0) with true; [reflexivity|].
  symmetry. apply ltb_true. specialize (Hlow k1). lra.
Qed.

Section ThreePlaces.

Variable maxCalls : option Z.

Let W3 : World := Example.world Example.threePlaces.
Let config3 : RouteFinderConfig := Example.config 3 4 maxCalls.
Let pool : list TacoBellLocation := [Example.near; Example.mid; Example.a; Example.s].
Let nearby : list TacoBellLocation := [Example.near; Example.mid; Example.a].

Lemma nearbyOf_pool : nearbyOf Example.s pool = nearby.
Proof.
  assert (Ht := tenth_bounds).
  unfold nearbyOf, pool. cbn [filter]. cbv beta zeta.
  rewrite distance_s_near, distance_s_mid, distance_s_a, distanceBetween_refl.
  holds (JSMath.leb (Example.tenth * 0.01) 24140).
  holds (JSMath.leb (Example.tenth * 0.5) 24140).
  holds (JSMath.leb Example.tenth 24140).
  holds (JSMath.leb 0 24140).
  reflexivity.
Qed.

Lemma low_draws_W3 : forall k, random W3 k < 0.7.
Proof. intros k. simpl. lra. Qed.

Lemma sortRandomly_W3 k l : fst (sortRandomly W3 k l) = l.
Proof. apply insertionShuffle_low_draws. intros. lra. Qed.

Lemma positive_target nStops :
  (0 < nStops)%Z -> 0 < targetAvgSegmentM 50 nStops.
Proof.
  intros H. unfold targetAvgSegmentM.
  apply IZR_lt in H.
  apply Rmult_lt_0_compat; [|lra].
  apply Rdiv_lt_0_compat; [lra | exact H].
Qed.

Lemma first_two_stops nStops remaining k :
  (0 < nStops)%Z ->
  extendRoute W3 Example.s 50 nStops (S (S remaining)) nearby [Example.s] k =
  extendRoute W3 Example.s 50 nStops remaining nearby
              [Example.s; Example.near; Example.mid] (S (S k)).
Proof.
  intros Hn. assert (Ht := tenth_bounds).
  erewrite (extendRoute_nearest W3 Example.s 50 nStops low_draws_W3 (positive_target _ Hn));
    [|reflexivity|].
  - erewrite (extendRoute_nearest W3 Example.s 50 nStops low_draws_W3
                (positive_target _ Hn)); [|reflexivity|].
    + reflexivity.
    + simpl. rewrite distance_near_mid, distance_near_a. lra.
  - simpl. rewrite distance_s_near, distance_s_mid, distance_s_a. lra.
Qed.

Lemma extendRoute_three k :
  extendRoute W3 Example.s 50 3 (Z.to_nat (3 - 1)) nearby [Example.s] k =
  (Ok [Example.s; Example.near; Example.mid], S (S k)).
Proof.
  change (Z.to_nat (3 - 1)) with 2%nat.
  rewrite first_two_stops by lia. reflexivity.
Qed.

Lemma extendRoute_four k :
  extendRoute W3 Example.s 50 4 (Z.to_nat (4 - 1)) nearby [Example.s] k =
  (Ok [Example.s; Example.near; Example.mid; Example.a], S (S (S k))).
Proof.
  change (Z.to_nat (4 - 1)) with 3%nat.
  rewrite first_two_stops by lia.
  erewrite (extendRoute_nearest W3 Example.s 50 4 low_draws_W3
              (positive_target 4 ltac:(lia))); [|reflexivity|].
  - reflexivity.
  - simpl. exact I.
Qed.

Lemma routeDistance_three :
  routeDistance [Example.s; Example.near; Example.mid; Example.s] = Example.tenth.
Proof.
  unfold routeDistance, sum. simpl.
  rewrite distance_s_near, distance_near_mid.
  rewrite (distanceBetween_sym Example.mid), distance_s_mid. lra.
Qed.

Lemma routeDistance_four :
  routeDistance [Example.s; Example.near; Example.mid; Example.a; Example.s] =
  2 * Example.tenth.
Proof.
  unfold routeDistance, sum. simpl.
  rewrite distance_s_near, distance_near_mid, distance_mid_a.
  rewrite (distanceBetween_sym Example.a), distance_s_a. lra.
Qed.

Lemma attempt_three st :
  exists k,
    attempt W3 Example.s 50 3 nearby st =
    (Ok (if existsb (String.eqb "m,n") (seenRoutes st)
         then mkGen (gen_routes st) (seenRoutes st) k
         else mkGen (gen_routes st ++ [Example.loopOfThree])
                    (seenRoutes st ++ ["m,n"%string]) k), k).
Proof.
  unfold attempt.
  assert (Hshuffle := sortRandomly_W3 (draws st) nearby).
  destruct (sortRandomly W3 (draws st) nearby) as [shuffled k1]. simpl in Hshuffle.
  subst shuffled. rewrite extendRoute_three. exists (S (S k1)).
  cbv beta iota zeta.
  change (closeLoop Example.s [Example.s; Example.near; Example.mid])
    with [Example.s; Example.near; Example.mid; Example.s].
  change (routeSignature [Example.s; Example.near; Example.mid; Example.s])
    with "m,n"%string.
  destruct (existsb (String.eqb "m,n") (seenRoutes st)); [reflexivity|].
  replace (JSMath.ltb (50 * 1.1)
             (routeDistance [Example.s; Example.near; Example.mid; Example.s] / 1000 * 1.18))
    with false; [reflexivity|].
  symmetry. apply ltb_false. rewrite routeDistance_three.
  assert (Ht := tenth_bounds). lra.
Qed.

Lemma attempt_four st :
  exists k,
    attempt W3 Example.s 50 4 nearby st =
    (Ok (if existsb (String.eqb "a,m,n") (seenRoutes st)
         then mkGen (gen_routes st) (seenRoutes st) k
         else mkGen (gen_routes st ++ [Example.loopOfFour])
                    (seenRoutes st ++ ["a,m,n"%string]) k), k).
Proof.
  unfold attempt.
  assert (Hshuffle := sortRandomly_W3 (draws st) nearby).
  destruct (sortRandomly W3 (draws st) nearby) as [shuffled k1]. simpl in Hshuffle.
  subst shuffled. rewrite extendRoute_four. exists (S (S (S k1))).
  cbv beta iota zeta.
  change (closeLoop Example.s [Example.s; Example.near; Example.mid; Example.a])
    with [Example.s; Example.near; Example.mid; Example.a; Example.s].
  change (routeSignature [Example.s; Example.near; Example.mid; Example.a; Example.s])
    with "a,m,n"%string.
  destruct (existsb (String.eqb "a,m,n") (seenRoutes st)); [reflexivity|].
  replace (JSMath.ltb (50 * 1.1)
             (routeDistance [Example.s; Example.near; Example.mid; Example.a; Example.s]
              / 1000 * 1.18))
    with false; [reflexivity|].
  symmetry. apply ltb_false. rewrite routeDistance_four.
  assert (Ht := tenth_bounds). lra.
Qed.

Lemma generate_three k :
  exists k',
    generateCandidateRoutes W3 Example.s 50 3 pool 200 k = (Ok [Example.loopOfThree], k').
Proof.
  apply (generate_same_attempt W3 Example.s 50 3 pool "m,n" Example.loopOfThree).
  - rewrite nearbyOf_pool. reflexivity.
  - rewrite nearbyOf_pool. apply attempt_three.
Qed.

Lemma generate_four k :
  exists k',
    generateCandidateRoutes W3 Example.s 50 4 pool 200 k = (Ok [Example.loopOfFour], k').
Proof.
  apply (generate_same_attempt W3 Example.s 50 4 pool "a,m,n" Example.loopOfFour).
  - rewrite nearbyOf_pool. reflexivity.
  - rewrite nearbyOf_pool. apply attempt_four.
Qed.

Lemma three_places_candidateRoutes :
  candidateRoutes W3 Example.s config3 pool = [Example.loopOfThree; Example.loopOfFour].
Proof.
  unfold candidateRoutes.
  change (stopCounts config3) with [3%Z; 4%Z].
  destruct (generate_three 0) as [k1 E1].
  rewrite (generateAll_appends _ _ _ _ _ _ _ _ _ E1).
  destruct (generate_four k1) as [k2 E2].
  rewrite (generateAll_appends _ _ _ _ _ _ _ _ _ E2).
  reflexivity.
Qed.

Lemma three_places_topCandidates :
  topCandidates W3 Example.s config3 pool = [Example.loopOfThree; Example.loopOfFour].
Proof. unfold topCandidates. rewrite three_places_candidateRoutes. reflexivity. Qed.

Lemma three_places_run :
  (1 <= effectiveMaxApiCalls config3)%Z ->
  findOptimalRouteTraced W3 Example.s config3 =
  (mkResult true (Some [Example.s; Example.near; Example.mid])
            (Some (Fin (totalDistance Example.loopOfThree))) None, 2%nat).
Proof.
  intros Hmax. unfold findOptimalRouteTraced.
  change (findTacoBells W3 (lat Example.s, lng Example.s) (searchRadiusMiles config3))
    with (@Ok (list TacoBellLocation) nearby).
  cbv beta iota.
  change (Z.of_nat (List.length nearby) <? minTacoBells config3)%Z with false.
  cbv beta iota zeta.
  change (withStart Example.s nearby) with pool.
  rewrite three_places_topCandidates.
  rewrite verifyLoop_all_requests_fail.
  - reflexivity.
  - intros. eexists. reflexivity.
  - simpl. lia.
Qed.

End ThreePlaces.

(** *** The scores of the two loops *)

Lemma scoreRoute_value x y rest targetRoadKm w1 w2 m :
  let route := x :: y :: rest in
  0 < Spec.mean (segmentDistances route) ->
  snd (scoreRoute route targetRoadKm w1 w2 m) =
  Fin (Rabs (routeDistance route / 1000 * m - targetRoadKm) +
       w1 * (distanceBetween x (List.last route x) / 1000) +
       w2 * (Spec.coefficientOfVariation (segmentDistances route) * 1000)).
Proof.
  intros route Hmean. unfold scoreRoute. cbn [snd].
  rewrite calculateSegmentSpacingVariance_eq by (simpl; lia).
  apply ltb_true in Hmean. rewrite Hmean. reflexivity.
Qed.

Lemma legs_of_three :
  segmentDistances [Example.s; Example.near; Example.mid; Example.s] =
  [Example.tenth * 0.01; Example.tenth * 0.49; Example.tenth * 0.5].
Proof.
  simpl. rewrite distance_s_near, distance_near_mid.
  rewrite (distanceBetween_sym Example.mid), distance_s_mid. reflexivity.
Qed.

Lemma legs_of_four :
  segmentDistances [Example.s; Example.near; Example.mid; Example.a; Example.s] =
  [Example.tenth * 0.01; Example.tenth * 0.49; Example.tenth * 0.5; Example.tenth].
Proof.
  simpl. rewrite distance_s_near, distance_near_mid, distance_mid_a.
  rewrite (distanceBetween_sym Example.a), distance_s_a. reflexivity.
Qed.

(** The legs of the loop of three are more uneven than 0.66, those of the
    loop of four less than 0.71, in units of the mean. *)
Lemma variation_of_three t :
  0 < t ->
  Spec.mean [t * 0.01; t * 0.49; t * 0.5] = t / 3 /\
  0.66 <= Spec.coefficientOfVariation [t * 0.01; t * 0.49; t * 0.5].
Proof.
  intros Ht.
  replace 0.01 with (1 / 100) by lra. replace 0.49 with (49 / 100) by lra.
  replace 0.5 with (1 / 2) by lra.
  assert (Hmean : Spec.mean [t * (1 / 100); t * (49 / 100); t * (1 / 2)] = t / 3).
  { unfold Spec.mean, sum. simpl. field. }
  split; [exact Hmean|].
  unfold Spec.coefficientOfVariation, Spec.standardDeviation. rewrite Hmean.
  unfold sum. simpl.
  replace ((0 + (t * (1 / 100) - t / 3) * ((t * (1 / 100) - t / 3) * 1) +
            (t * (49 / 100) - t / 3) * ((t * (49 / 100) - t / 3) * 1) +
            (t * (1 / 2) - t / 3) * ((t * (1 / 2) - t / 3) * 1)) / (1 + 1 + 1))
    with (14118 / 270000 * (t * t)) by field.
  assert (Hsd : 0.22 * t <= sqrt (14118 / 270000 * (t * t))).
  { rewrite <- (sqrt_square (0.22 * t)) by lra.
    apply sqrt_le_1_alt. assert (0 < t * t) by (apply Rmult_lt_0_compat; lra). lra. }
  apply (Rmult_le_reg_r (t / 3)); [lra|].
  replace (sqrt (14118 / 270000 * (t * t)) / (t / 3) * (t / 3))
    with (sqrt (14118 / 270000 * (t * t))) by (field; lra).
  lra.
Qed.

Lemma variation_of_four t :
  0 < t ->
  Spec.mean [t * 0.01; t * 0.49; t * 0.5; t] = t / 2 /\
  Spec.coefficientOfVariation [t * 0.01; t * 0.49; t * 0.5; t] <= 0.71.
Proof.
  intros Ht.
  replace 0.01 with (1 / 100) by lra. replace 0.49 with (49 / 100) by lra.
  replace 0.5 with (1 / 2) by lra.
  assert (Hmean : Spec.mean [t * (1 / 100); t * (49 / 100); t * (1 / 2); t] = t / 2).
  { unfold Spec.mean, sum. simpl. field. }
  split; [exact Hmean|].
  unfold Spec.coefficientOfVariation, Spec.standardDeviation. rewrite Hmean.
  unfold sum. simpl.
  replace ((0 + (t * (1 / 100) - t / 2) * ((t * (1 / 100) - t / 2) * 1) +
            (t * (49 / 100) - t / 2) * ((t * (49 / 100) - t / 2) * 1) +
            (t * (1 / 2) - t / 2) * ((t * (1 / 2) - t / 2) * 1) +
            (t - t / 2) * ((t - t / 2) * 1)) / (1 + 1 + 1 + 1))
    with (12255 / 100000 * (t * t)) by field.
  assert (Hsd : sqrt (12255 / 100000 * (t * t)) <= 0.355 * t).
  { rewrite <- (sqrt_square (0.355 * t)) by lra.
    apply sqrt_le_1_alt. assert (0 < t * t) by (apply Rmult_lt_0_compat; lra). lra. }
  apply (Rmult_le_reg_r (t / 2)); [lra|].
  replace (sqrt (12255 / 100000 * (t * t)) / (t / 2) * (t / 2))
    with (sqrt (12255 / 100000 * (t * t))) by (field; lra).
  lra.
Qed.

Lemma loopOfFour_scores_better :
  Num.ltb (score Example.loopOfFour) (score Example.loopOfThree) = true.
Proof.
  assert (Ht := tenth_bounds).
  destruct (variation_of_three Example.tenth ltac:(lra)) as [Hmean3 Hcv3].
  destruct (variation_of_four Example.tenth ltac:(lra)) as [Hmean4 Hcv4].
  unfold Example.loopOfFour, Example.loopOfThree. cbn [score].
  rewrite !scoreRoute_value.
  - cbn [List.last]. rewrite distanceBetween_refl.
    rewrite routeDistance_three, routeDistance_four, legs_of_three, legs_of_four.
    apply ltb_true.
    rewrite (Rabs_left (2 * Example.tenth / 1000 * 1.18 - 50)) by lra.
    rewrite (Rabs_left (Example.tenth / 1000 * 1.18 - 50)) by lra.
    lra.
  - rewrite legs_of_three, Hmean3. lra.
  - rewrite legs_of_four, Hmean4. lra.
Qed.

(** C3, evaluated where the code departs from it: with [maxApiCalls] set to
    1 and a directions service that fails, the search makes two requests. *)
Theorem failed_requests_exceed_ceiling :
  maxApiCalls (Example.config 3 4 (Some 1%Z)) = Some 1%Z /\
  oracleCalls (Example.world Example.threePlaces) Example.s
              (Example.config 3 4 (Some 1%Z)) = 2%nat.
Proof.
  split; [reflexivity|]. unfold oracleCalls.
  rewrite three_places_run;
    [reflexivity | unfold effectiveMaxApiCalls, Example.config; simpl; lia].
Qed.

(** C6, evaluated where the code departs from it: the candidates handed to
    verification are the lists of the stop counts one after the other, here
    the loop of three stops ahead of the better-scored loop of four. *)
Theorem merged_candidates_are_not_resorted :
  topCandidates (Example.world Example.threePlaces) Example.s
                (Example.config 3 4 None)
                [Example.near; Example.mid; Example.a; Example.s] =
    [Example.loopOfThree; Example.loopOfFour] /\
  Num.ltb (score Example.loopOfFour) (score Example.loopOfThree) = true.
Proof.
  split; [apply three_places_topCandidates | apply loopOfFour_scores_better].
Qed.

(** C1, evaluated where the code departs from it: when every request fails
    the result is the first merged candidate, the loop of three stops with
    its estimated distance, although the loop of four stops was generated
    with a better score. *)
Theorem fallback_is_first_merged_candidate :
  findOptimalRoute (Example.world Example.threePlaces) Example.s
                   (Example.config 3 4 None) =
    mkResult true (Some (JS.dropLast (stops Example.loopOfThree)))
             (Some (Fin (totalDistance Example.loopOfThree))) None /\
  In Example.loopOfFour
     (candidateRoutes (Example.world Example.threePlaces) Example.s
                      (Example.config 3 4 None)
                      [Example.near; Example.mid; Example.a; Example.s]) /\
  Num.ltb (score Example.loopOfFour) (score Example.loopOfThree) = true /\
  JS.dropLast (stops Example.loopOfFour) <> JS.dropLast (stops Example.loopOfThree).
Proof.
  split.
  - unfold findOptimalRoute.
    rewrite three_places_run;
      [reflexivity | unfold effectiveMaxApiCalls, Example.config; simpl; lia].
  - split; [rewrite three_places_candidateRoutes; simpl; auto|].
    split; [apply loopOfFour_scores_better|].
    simpl. intros E. discriminate E.
Qed.

(** ** Candidate route generator: the world only gives the draws

    Two worlds with the same draws and the same random sort generate the
    same candidates. *)

Section SameChance.

Variables W W' : World.
Hypothesis same_random : forall k, random W k = random W' k.
Hypothesis same_sort : forall k l, sortRandomly W k l = sortRandomly W' k l.

Variable start : TacoBellLocation.

Lemma selectCandidate_same candidates k :
  selectCandidate W candidates k = selectCandidate W' candidates k.
Proof. unfold selectCandidate. rewrite !same_random. reflexivity. Qed.

Lemma extendRoute_same targetKm nStops remaining : forall shuffled route k,
  extendRoute W start targetKm nStops remaining shuffled route k =
  extendRoute W' start targetKm nStops remaining shuffled route k.
Proof.
  induction remaining as [|n IH]; intros shuffled route k; [reflexivity|].
  cbn [extendRoute]. rewrite selectCandidate_same.
  destruct (List.length (scoreCandidates start targetKm nStops shuffled route) =? 0)%nat;
    [reflexivity|].
  destruct (selectCandidate W' _ k) as [[selected|] k1]; [apply IH | reflexivity].
Qed.

Lemma attempt_same targetKm nStops nearby st :
  attempt W start targetKm nStops nearby st = attempt W' start targetKm nStops nearby st.
Proof.
  unfold attempt. rewrite same_sort.
  destruct (sortRandomly W' (draws st) nearby) as [shuffled k1].
  rewrite extendRoute_same. reflexivity.
Qed.

Lemma iterate_same targetKm nStops iterations nearby : forall st,
  iterate W start targetKm nStops iterations nearby st =
  iterate W' start targetKm nStops iterations nearby st.
Proof.
  induction iterations as [|n IH]; intros st; [reflexivity|].
  cbn [iterate]. rewrite attempt_same.
  destruct (attempt W' start targetKm nStops nearby st) as [[st'|e] k]; [apply IH | reflexivity].
Qed.

Lemma generateCandidateRoutes_same targetKm nStops allTacoBells iterations k :
  generateCandidateRoutes W start targetKm nStops allTacoBells iterations k =
  generateCandidateRoutes W' start targetKm nStops allTacoBells iterations k.
Proof. unfold generateCandidateRoutes. rewrite iterate_same. reflexivity. Qed.

Lemma generateAll_same allTacoBells counts : forall k candidateRoutes,
  generateAll W start allTacoBells counts k candidateRoutes =
  generateAll W' start allTacoBells counts k candidateRoutes.
Proof.
  induction counts as [|nStops counts IH]; intros k candidateRoutes; [reflexivity|].
  cbn [generateAll]. rewrite generateCandidateRoutes_same.
  destruct (generateCandidateRoutes W' start targetKm nStops allTacoBells 200 k)
    as [[found|e] k1]; apply IH.
Qed.

Lemma topCandidates_same config config' allTacoBells :
  stopCounts config = stopCounts config' ->
  topCandidates W start config allTacoBells = topCandidates W' start config' allTacoBells.
Proof.
  intros Hcounts. unfold topCandidates, candidateRoutes.
  rewrite Hcounts, generateAll_same. reflexivity.
Qed.

End SameChance.

(** *** A run in which a verified route nearer to the target is passed over *)

Lemma answering_topCandidates :
  topCandidates Example.answeringWorld Example.s Example.widerConfig
                [Example.near; Example.mid; Example.a; Example.s] =
  [Example.loopOfThree; Example.loopOfFour].
Proof.
  rewrite <- (three_places_topCandidates None).
  apply topCandidates_same; reflexivity.
Qed.

(** C5, evaluated where the code departs from it: with a range that starts
    below the 50 km target, the first candidate is verified at 49,000
    meters and accepted; the second is verified at 50,500 meters, which is
    in range and closer to the target, so by the rule of the claim it
    becomes the new best; the search returns the first one with 49,000
    meters. *)
Theorem nearer_verified_route_is_passed_over :
  let W := Example.answeringWorld in
  let config := Example.widerConfig in
  let first := verifyCandidate W Example.s config 0 Example.loopOfThree initialVerify in
  topCandidates W Example.s config [Example.near; Example.mid; Example.a; Example.s] =
    [Example.loopOfThree; Example.loopOfFour] /\
  bestRoute first = Some Example.loopOfThree /\
  bestActualDistance first = Fin 49000 /\
  calculateRoute W (requests first) Example.s Example.s
                 (JS.interior (stops Example.loopOfFour)) =
    Ok (mkDirections (Some [[50500]])) /\
  Spec.shouldAdopt config first 50500 /\
  findOptimalRoute W Example.s config =
    mkResult true (Some [Example.s; Example.near; Example.mid]) (Some (Fin 49000)) None.
Proof.
  intros W config first. subst W config.
  set (W := Example.answeringWorld) in *.
  set (config := Example.widerConfig) in *.
  assert (Hsum1 : sum [49000] = 49000) by (unfold sum; simpl; lra).
  assert (Hsum2 : sum [50500] = 50500) by (unfold sum; simpl; lra).
  assert (Hfirst : first = mkVerify (Some Example.loopOfThree) (Fin 49000) 0 1 1).
  { unfold first, verifyCandidate.
    cbn [calculateRoute W Example.answeringWorld requests initialVerify routes].
    rewrite Hsum1. rewrite considerDistance_adopts; [reflexivity|].
    unfold codeAdopts. simpl. split; [lra|]. left. reflexivity. }
  assert (Hsecond :
    verifyCandidate W Example.s config 1 Example.loopOfFour
                    (mkVerify (Some Example.loopOfThree) (Fin 49000) 0 1 1) =
    mkVerify (Some Example.loopOfThree) (Fin 49000) 0 2 2).
  { unfold verifyCandidate.
    cbn [calculateRoute W Example.answeringWorld requests routes].
    rewrite Hsum2. rewrite considerDistance_keeps; [reflexivity|].
    unfold codeAdopts. simpl. intros [_ [H|[H _]]]; [discriminate H | lra]. }
  split; [apply answering_topCandidates|].
  rewrite Hfirst. cbn [bestRoute bestActualDistance requests].
  split; [reflexivity|]. split; [reflexivity|]. split; [reflexivity|]. split.
  - unfold Spec.shouldAdopt. simpl. split; [lra|]. right.
    exists 49000. split; [reflexivity|]. unfold targetKm.
    rewrite (Rabs_pos_eq (50500 / 1000 - 50)) by lra.
    rewrite (Rabs_left (49000 / 1000 - 50)) by lra. lra.
  - unfold findOptimalRoute, findOptimalRouteTraced.
    change (findTacoBells W (lat Example.s, lng Example.s) (searchRadiusMiles config))
      with (@Ok (list TacoBellLocation) [Example.near; Example.mid; Example.a]).
    cbv beta iota.
    change (Z.of_nat (List.length [Example.near; Example.mid; Example.a])
            <? minTacoBells config)%Z with false.
    cbv beta iota zeta.
    change (withStart Example.s [Example.near; Example.mid; Example.a])
      with [Example.near; Example.mid; Example.a; Example.s].
    unfold W, config. rewrite answering_topCandidates. fold W. fold config.
    cbn [verifyLoop].
    change (effectiveMaxApiCalls config <=? apiCallCount initialVerify)%Z with false.
    cbv iota. fold first. rewrite Hfirst.
    change (effectiveMaxApiCalls config <=?
            apiCallCount (mkVerify (Some Example.loopOfThree) (Fin 49000) 0 1 1))%Z
      with false.
    cbv iota. rewrite Hsecond. reflexivity.
Qed.

(** * Further properties of the route finder *)

(** ** Geodesic distance: sign *)

Lemma atan2_first_quadrant y x :
  0 <= y -> 0 <= x -> 0 <= JSMath.atan2 y x <= PI / 2.
Proof.
  intros Hy Hx. assert (Hpi := PI_RGT_0). unfold JSMath.atan2.
  destruct (Rlt_dec 0 x) as [Hpos|Hnpos].
  - assert (H0 : 0 <= y / x).
    { apply Rmult_le_pos; [exact Hy|]. left. apply Rinv_0_lt_compat. exact Hpos. }
    split.
    + rewrite <- atan_0. destruct H0 as [H0|H0]; [left; apply atan_increasing; exact H0|].
      rewrite <- H0. lra.
    + left. apply atan_bound.
  - destruct (Rlt_dec x 0); [lra|].
    destruct (Rlt_dec 0 y); [lra|].
    destruct (Rlt_dec y 0); lra.
Qed.

Lemma haversineDistance_bounds lat1 lng1 lat2 lng2 :
  0 <= haversineDistance lat1 lng1 lat2 lng2 <= 6371000 * PI.
Proof.
  rewrite haversineDistance_unfold.
  destruct (atan2_first_quadrant
              (sqrt (haversine_a lat1 lng1 lat2 lng2))
              (sqrt (1 - haversine_a lat1 lng1 lat2 lng2))) as [H0 H1];
    [apply sqrt_pos | apply sqrt_pos |].
  split; lra.
Qed.

(** ** Route scorer: sums of legs *)

Lemma fold_left_Rplus l : forall acc, fold_left Rplus l acc = acc + sum l.
Proof.
  unfold sum. induction l as [|x l IH]; intros acc; simpl; [lra|].
  rewrite (IH (acc + x)), (IH (0 + x)). lra.
Qed.

Lemma sum_cons x l : sum (x :: l) = x + sum l.
Proof. unfold sum at 1. simpl. rewrite fold_left_Rplus. lra. Qed.

Lemma sum_app l1 l2 : sum (l1 ++ l2) = sum l1 + sum l2.
Proof.
  induction l1 as [|x l1 IH]; simpl.
  - unfold sum at 2. simpl. lra.
  - rewrite !sum_cons, IH. lra.
Qed.

Lemma sum_nonneg l : (forall x, In x l -> 0 <= x) -> 0 <= sum l.
Proof.
  induction l as [|x l IH]; intros H.
  - unfold sum. simpl. lra.
  - rewrite sum_cons. assert (0 <= x) by (apply H; left; reflexivity).
    assert (0 <= sum l) by (apply IH; intros y Hy; apply H; right; exact Hy). lra.
Qed.

Lemma segmentDistances_nonneg route x : In x (segmentDistances route) -> 0 <= x.
Proof.
  induction route as [|a [|b route] IH]; simpl; try contradiction.
  intros [<-|H]; [apply haversineDistance_bounds | apply IH; exact H].
Qed.

Lemma loopnessPenalty_ends a middle z :
  loopnessPenalty (a :: middle ++ [z]) = Fin (distanceBetween a z).
Proof.
  unfold loopnessPenalty.
  destruct (middle ++ [z]) as [|t l] eqn:E; [destruct middle; discriminate|].
  rewrite <- E. change (a :: middle ++ [z]) with ((a :: middle) ++ [z]).
  rewrite last_last. reflexivity.
Qed.




(** ** Candidate route generator: a run that returns two loops

    From [s] with [mid] and [a] in range and one stop asked for besides the
    start: the first attempt, with low draws, goes to the nearer [mid]; the
    later attempts, with draws of 0.9, take the second of the ranked
    candidates, [a]. *)

Section TwoLoops.

Let W2 : World := Example.variedWorld.
Let pool : list TacoBellLocation := [Example.mid; Example.a; Example.s].
Let nearby : list TacoBellLocation := [Example.mid; Example.a].

Let scoredMid : Scored :=
  mkScored Example.mid (distanceBetween Example.s Example.mid)
           (Rabs (distanceBetween Example.s Example.mid - targetAvgSegmentM 50 2)).
Let scoredA : Scored :=
  mkScored Example.a (distanceBetween Example.s Example.a)
           (Rabs (distanceBetween Example.s Example.a - targetAvgSegmentM 50 2)).

Lemma nearbyOf_two : nearbyOf Example.s pool = nearby.
Proof.
  assert (Ht := tenth_bounds).
  unfold nearbyOf, pool. cbn [filter]. cbv beta zeta.
  rewrite distance_s_mid, distance_s_a, distanceBetween_refl.
  holds (JSMath.leb (Example.tenth * 0.5) 24140).
  holds (JSMath.leb Example.tenth 24140).
  holds (JSMath.leb 0 24140).
  reflexivity.
Qed.

(** Whatever the order of the two stops after the shuffle, [mid] is ranked
    first and [a] second. *)
Lemma ranked_two shuffled :
  shuffled = [Example.mid; Example.a] \/ shuffled = [Example.a; Example.mid] ->
  exists first second,
    rankCandidates 50 2 (scoreCandidates Example.s 50 2 shuffled [Example.s]) =
      [first; second] /\
    tb first = Example.mid /\ tb second = Example.a.
Proof.
  assert (Ht := tenth_bounds).
  assert (Hasc : ascendingBy distance [scoredMid; scoredA]).
  { simpl. rewrite distance_s_mid, distance_s_a. lra. }
  assert (Hrank := rankCandidates_ascending 50 2 (positive_target 2 ltac:(lia))
                     [scoredMid; scoredA]).
  intros [-> | ->].
  - change (scoreCandidates Example.s 50 2 [Example.mid; Example.a] [Example.s])
      with [scoredMid; scoredA].
    rewrite Hrank; [|intros c [<-|[<-|[]]]; reflexivity | exact Hasc].
    eexists _, _. split; [reflexivity|]. split; reflexivity.
  - change (scoreCandidates Example.s 50 2 [Example.a; Example.mid] [Example.s])
      with [scoredA; scoredMid].
    assert (Hsame : rankCandidates 50 2 [scoredA; scoredMid] =
                    rankCandidates 50 2 [scoredMid; scoredA]).
    { unfold rankCandidates. f_equal. f_equal.
      unfold JS.sortBy. cbn [fold_right JS.insertBy scoredMid scoredA distance].
      rewrite distance_s_mid, distance_s_a.
      fails (JSMath.leb Example.tenth (Example.tenth * 0.5)).
      holds (JSMath.leb (Example.tenth * 0.5) Example.tenth).
      reflexivity. }
    rewrite Hsame, Hrank; [|intros c [<-|[<-|[]]]; reflexivity | exact Hasc].
    eexists _, _. split; [reflexivity|]. split; reflexivity.
Qed.

Lemma shuffled_two k :
  fst (sortRandomly W2 k nearby) = [Example.mid; Example.a] \/
  fst (sortRandomly W2 k nearby) = [Example.a; Example.mid].
Proof.
  simpl. destruct (JSMath.ltb (Example.laterDraws k - 0.5) 0); auto.
Qed.

Lemma draws_of_shuffle k : snd (sortRandomly W2 k nearby) = S k.
Proof.
  simpl. destruct (JSMath.ltb (Example.laterDraws k - 0.5) 0); reflexivity.
Qed.

Lemma extendRoute_first shuffled :
  shuffled = [Example.mid; Example.a] \/ shuffled = [Example.a; Example.mid] ->
  extendRoute W2 Example.s 50 2 (Z.to_nat (2 - 1)) shuffled [Example.s] 1 =
  (Ok [Example.s; Example.mid], 2%nat).
Proof.
  intros Hshuffled. destruct (ranked_two shuffled Hshuffled) as [first [second [Hr [H1 H2]]]].
  change (Z.to_nat (2 - 1)) with 1%nat. cbn [extendRoute].
  replace (List.length (scoreCandidates Example.s 50 2 shuffled [Example.s]) =? 0)%nat
    with false by (destruct Hshuffled as [-> | ->]; reflexivity).
  rewrite Hr. unfold selectCandidate.
  change (random W2 1) with 0.
  holds (JSMath.ltb 0 0.7).
  cbn [orb nth_error]. rewrite H1. reflexivity.
Qed.

Lemma extendRoute_later shuffled k :
  (2 <= k)%nat ->
  shuffled = [Example.mid; Example.a] \/ shuffled = [Example.a; Example.mid] ->
  extendRoute W2 Example.s 50 2 (Z.to_nat (2 - 1)) shuffled [Example.s] k =
  (Ok [Example.s; Example.a], S (S k)).
Proof.
  intros Hk Hshuffled.
  destruct (ranked_two shuffled Hshuffled) as [first [second [Hr [H1 H2]]]].
  change (Z.to_nat (2 - 1)) with 1%nat. cbn [extendRoute].
  replace (List.length (scoreCandidates Example.s 50 2 shuffled [Example.s]) =? 0)%nat
    with false by (destruct Hshuffled as [-> | ->]; reflexivity).
  rewrite Hr. unfold selectCandidate.
  assert (Hdraw : forall j, (2 <= j)%nat -> random W2 j = 0.9).
  { intros j Hj. simpl. unfold Example.laterDraws.
    destruct (Nat.ltb_spec j 2); [lia | reflexivity]. }
  rewrite (Hdraw k Hk), (Hdraw (S k)) by lia.
  fails (JSMath.ltb 0.9 0.7).
  cbn [List.length Nat.eqb orb Nat.min].
  replace (Zfloor (0.9 * INR 2)) with 1%Z
    by (symmetry; apply Zfloor_eq; simpl; lra).
  change (JS.at_index [first; second] 1) with (Some second).
  cbv beta iota. rewrite H2. reflexivity.
Qed.

Lemma routeDistance_short :
  routeDistance [Example.s; Example.mid; Example.s] = Example.tenth.
Proof.
  unfold routeDistance, sum. simpl.
  rewrite (distanceBetween_sym Example.mid), distance_s_mid. lra.
Qed.

Lemma routeDistance_outAndBack :
  routeDistance [Example.s; Example.a; Example.s] = 2 * Example.tenth.
Proof.
  unfold routeDistance, sum. simpl.
  rewrite (distanceBetween_sym Example.a), distance_s_a. lra.
Qed.

Lemma attempt_first :
  attempt W2 Example.s 50 2 nearby (mkGen [] [] 0) =
  (Ok (mkGen [Example.shortOutAndBack] ["m"%string] 2), 2%nat).
Proof.
  unfold attempt. cbn [draws].
  assert (Hshuffle := shuffled_two 0). assert (Hdraws := draws_of_shuffle 0).
  destruct (sortRandomly W2 0 nearby) as [shuffled k1]. cbn [fst snd] in Hshuffle, Hdraws.
  subst k1. rewrite (extendRoute_first shuffled Hshuffle).
  cbv beta iota zeta.
  change (closeLoop Example.s [Example.s; Example.mid])
    with [Example.s; Example.mid; Example.s].
  change (routeSignature [Example.s; Example.mid; Example.s]) with "m"%string.
  cbn [existsb seenRoutes gen_routes app].
  replace (JSMath.ltb (50 * 1.1)
             (routeDistance [Example.s; Example.mid; Example.s] / 1000 * 1.18))
    with false; [reflexivity|].
  symmetry. apply ltb_false. rewrite routeDistance_short.
  assert (Ht := tenth_bounds). lra.
Qed.

Lemma attempt_later st :
  (2 <= draws st)%nat ->
  attempt W2 Example.s 50 2 nearby st =
  (Ok (if existsb (String.eqb "a") (seenRoutes st)
       then mkGen (gen_routes st) (seenRoutes st) (3 + draws st)
       else mkGen (gen_routes st ++ [Example.outAndBack])
                  (seenRoutes st ++ ["a"%string]) (3 + draws st)), (3 + draws st)%nat).
Proof.
  intros Hst. unfold attempt.
  assert (Hshuffle := shuffled_two (draws st)).
  assert (Hdraws := draws_of_shuffle (draws st)).
  destruct (sortRandomly W2 (draws st) nearby) as [shuffled k1].
  cbn [fst snd] in Hshuffle, Hdraws. subst k1.
  rewrite (extendRoute_later shuffled (S (draws st)) ltac:(lia) Hshuffle).
  cbv beta iota zeta.
  change (closeLoop Example.s [Example.s; Example.a])
    with [Example.s; Example.a; Example.s].
  change (routeSignature [Example.s; Example.a; Example.s]) with "a"%string.
  destruct (existsb (String.eqb "a") (seenRoutes st)); [reflexivity|].
  rewrite outAndBack_not_too_long. reflexivity.
Qed.

Lemma iterate_later n : forall st,
  (2 <= draws st)%nat ->
  existsb (String.eqb "a") (seenRoutes st) = true ->
  exists k,
    iterate W2 Example.s 50 2 n nearby st =
    (Ok (mkGen (gen_routes st) (seenRoutes st) k), k).
Proof.
  induction n as [|n IH]; intros st Hst Hseen.
  - exists (draws st). destruct st; reflexivity.
  - cbn [iterate]. rewrite (attempt_later st Hst), Hseen.
    apply (IH (mkGen (gen_routes st) (seenRoutes st) (3 + draws st))); [simpl; lia | exact Hseen].
Qed.

(** The legs of a loop there and back are even. *)
Lemma variation_of_equal_legs d :
  0 < d -> Spec.mean [d; d] = d /\ Spec.coefficientOfVariation [d; d] = 0.
Proof.
  intros Hd.
  assert (Hmean : Spec.mean [d; d] = d) by (unfold Spec.mean, sum; simpl; field).
  split; [exact Hmean|].
  unfold Spec.coefficientOfVariation, Spec.standardDeviation. rewrite Hmean.
  unfold sum. simpl.
  replace ((0 + (d - d) * ((d - d) * 1) + (d - d) * ((d - d) * 1)) / (1 + 1)) with 0
    by field.
  rewrite sqrt_0. field. lra.
Qed.

Lemma outAndBack_scores_better :
  Num.cmp_keeps (score Example.shortOutAndBack) (score Example.outAndBack) = false /\
  Num.ltb (score Example.outAndBack) (score Example.shortOutAndBack) = true.
Proof.
  assert (Ht := tenth_bounds).
  destruct (variation_of_equal_legs (Example.tenth * 0.5) ltac:(lra)) as [Hm1 Hcv1].
  destruct (variation_of_equal_legs Example.tenth ltac:(lra)) as [Hm2 Hcv2].
  assert (Hlegs1 : segmentDistances [Example.s; Example.mid; Example.s] =
                   [Example.tenth * 0.5; Example.tenth * 0.5]).
  { simpl. rewrite (distanceBetween_sym Example.mid), distance_s_mid. reflexivity. }
  assert (Hlegs2 : segmentDistances [Example.s; Example.a; Example.s] =
                   [Example.tenth; Example.tenth]).
  { simpl. rewrite (distanceBetween_sym Example.a), distance_s_a. reflexivity. }
  unfold Example.shortOutAndBack, Example.outAndBack. cbn [score].
  rewrite !scoreRoute_value.
  - cbn [List.last]. rewrite distanceBetween_refl.
    rewrite routeDistance_short, routeDistance_outAndBack, Hlegs1, Hlegs2, Hcv1, Hcv2.
    rewrite (Rabs_left (2 * Example.tenth / 1000 * 1.18 - 50)) by lra.
    rewrite (Rabs_left (Example.tenth / 1000 * 1.18 - 50)) by lra.
    split; [apply leb_false | apply ltb_true]; lra.
  - rewrite Hlegs2, Hm2. lra.
  - rewrite Hlegs1, Hm1. lra.
Qed.

(** The run: two loops are kept, and the sort puts the longer one, which
    is nearer to the target, first. *)
Lemma generate_two_loops iterations :
  exists k',
    generateCandidateRoutes W2 Example.s 50 2 pool (S (S iterations)) 0 =
    (Ok [Example.outAndBack; Example.shortOutAndBack], k').
Proof.
  unfold generateCandidateRoutes. rewrite nearbyOf_two.
  change (Z.of_nat (List.length nearby) <? 2 - 1)%Z with false. cbv iota.
  cbn [iterate]. rewrite attempt_first.
  rewrite (attempt_later (mkGen [Example.shortOutAndBack] ["m"%string] 2))
    by (simpl; lia).
  cbn [existsb seenRoutes gen_routes draws app String.eqb Ascii.eqb Bool.eqb orb].
  destruct (iterate_later iterations
              (mkGen [Example.shortOutAndBack; Example.outAndBack]
                     ["m"%string; "a"%string] 5)) as [k' E];
    [simpl; lia | reflexivity |].
  change (3 + 2)%nat with 5%nat. rewrite E. exists k'.
  cbn [gen_routes]. unfold JS.sortBy. cbn [fold_right JS.insertBy].
  rewrite (proj1 outAndBack_scores_better). reflexivity.
Qed.

End TwoLoops.

(** ** Candidate route generator: what the returned list is made of *)

Section GeneratorList.

Variable W : World.
Variable start : TacoBellLocation.
Variable targetKm : R.
Variable nStops : Z.
Variable nearby : list TacoBellLocation.

(** A pass of the loop leaves the list of routes as it is, or appends one
    route with a signature not seen before, scored as [scoreRoute] scores
    it, whose estimated road length is within the tolerance. *)
Lemma attempt_appends st st' k :
  attempt W start targetKm nStops nearby st = (Ok st', k) ->
  (gen_routes st' = gen_routes st /\
   (seenRoutes st' = seenRoutes st \/
    exists signature, seenRoutes st' = seenRoutes st ++ [signature])) \/
  (exists route,
     gen_routes st' =
       gen_routes st ++ [mkCand route (routeDistance route)
                                (snd (scoreRoute route targetKm 0.5 0.2 1.18))] /\
     seenRoutes st' = seenRoutes st ++ [routeSignature route] /\
     ~ In (routeSignature route) (seenRoutes st) /\
     routeDistance route / 1000 * 1.18 <= targetKm * 1.1).
Proof.
  unfold attempt. intros H.
  destruct (sortRandomly W (draws st) nearby) as [shuffled k1].
  destruct (extendRoute W start targetKm nStops (Z.to_nat (nStops - 1)) shuffled [start] k1)
    as [[built|e] k2]; [|discriminate].
  destruct (existsb (String.eqb (routeSignature (closeLoop start built))) (seenRoutes st))
    eqn:Hseen.
  { injection H as <- _. left. simpl. auto. }
  destruct (JSMath.ltb (targetKm * 1.1) (routeDistance (closeLoop start built) / 1000 * 1.18))
    eqn:Hlong.
  { injection H as <- _. left. simpl. split; [reflexivity|]. right. eexists. reflexivity. }
  unfold scoreRoute in H. injection H as <- _. right.
  exists (closeLoop start built). simpl.
  split; [reflexivity|]. split; [reflexivity|]. split.
  - intros Hin. apply Bool.not_true_iff_false in Hseen. apply Hseen.
    apply existsb_exists. exists (routeSignature (closeLoop start built)).
    split; [exact Hin | apply String.eqb_refl].
  - apply ltb_false. exact Hlong.
Qed.

(** What holds of the arrays of a call after any number of passes. *)
Let kept (st : GenState) : Prop :=
  (forall c, In c (gen_routes st) ->
     totalDistance c = routeDistance (stops c) /\
     score c = snd (scoreRoute (stops c) targetKm 0.5 0.2 1.18) /\
     routeDistance (stops c) / 1000 * 1.18 <= targetKm * 1.1 /\
     In (routeSignature (stops c)) (seenRoutes st)) /\
  NoDup (map (fun c => routeSignature (stops c)) (gen_routes st)).

Lemma attempt_kept st st' k :
  attempt W start targetKm nStops nearby st = (Ok st', k) ->
  kept st -> kept st' /\
  (List.length (gen_routes st') <= S (List.length (gen_routes st)))%nat.
Proof.
  intros H [Hall Hnd].
  apply attempt_appends in H as [[Hsame Hseen]|[route [Hroutes [Hseen [Hnew Hlen]]]]].
  - split; [|rewrite Hsame; lia]. split; rewrite Hsame; [|exact Hnd].
    intros c Hc. destruct (Hall c Hc) as [H1 [H2 [H3 H4]]].
    repeat split; try assumption.
    destruct Hseen as [->|[signature ->]]; [exact H4|].
    apply in_or_app. left. exact H4.
  - split; [|rewrite Hroutes, length_app; simpl; lia].
    split; rewrite Hroutes.
    + intros c Hc. rewrite Hseen. apply in_app_or in Hc as [Hc|[<-|[]]].
      * destruct (Hall c Hc) as [H1 [H2 [H3 H4]]].
        repeat split; try assumption. apply in_or_app. left. exact H4.
      * simpl. repeat split; try assumption.
        apply in_or_app. right. left. reflexivity.
    + rewrite map_app. simpl. apply NoDup_app; [exact Hnd | repeat constructor; auto |].
      intros signature Hin [<-|[]].
      apply in_map_iff in Hin as [c [E Hc]].
      apply Hnew. rewrite <- E. apply (Hall c Hc).
Qed.

Lemma iterate_kept iterations : forall st st' k,
  iterate W start targetKm nStops iterations nearby st = (Ok st', k) ->
  kept st -> kept st' /\
  (List.length (gen_routes st') <= List.length (gen_routes st) + iterations)%nat.
Proof.
  induction iterations as [|n IH]; intros st st' k H Hst; simpl in H.
  - injection H as <- _. split; [exact Hst | lia].
  - destruct (attempt W start targetKm nStops nearby st) as [[st1|e] k1] eqn:Hattempt;
      [|discriminate].
    destruct (attempt_kept _ _ _ Hattempt Hst) as [Hst1 Hlen1].
    destruct (IH _ _ _ H Hst1) as [Hst' Hlen]. split; [exact Hst' | lia].
Qed.

End GeneratorList.

Lemma generateCandidateRoutes_list W start targetKm nStops allTacoBells iterations k
    found k' :
  generateCandidateRoutes W start targetKm nStops allTacoBells iterations k
    = (Ok found, k') ->
  (forall c, In c found ->
     totalDistance c = routeDistance (stops c) /\
     score c = snd (scoreRoute (stops c) targetKm 0.5 0.2 1.18) /\
     routeDistance (stops c) / 1000 * 1.18 <= targetKm * 1.1) /\
  NoDup (map (fun c => routeSignature (stops c)) found) /\
  (List.length found <= iterations)%nat.
Proof.
  unfold generateCandidateRoutes. intros H.
  destruct (Z.of_nat (List.length (nearbyOf start allTacoBells)) <? nStops - 1)%Z;
    [discriminate|].
  destruct (iterate W start targetKm nStops iterations (nearbyOf start allTacoBells)
              (mkGen [] [] k)) as [[st|e] k1] eqn:Hiter; [|discriminate].
  injection H as <- _.
  apply iterate_kept in Hiter as [[Hall Hnd] Hlen].
  2:{ split; [intros c []|constructor]. }
  assert (Hperm := sortBy_perm (fun a b => Num.cmp_keeps (score a) (score b)) (gen_routes st)).
  split; [|split].
  - intros c Hc. apply sortBy_In in Hc. destruct (Hall c Hc) as [H1 [H2 [H3 _]]]. auto.
  - apply (Permutation_NoDup (Permutation_map _ (Permutation_sym Hperm))). exact Hnd.
  - rewrite (Permutation_length Hperm). simpl in Hlen. exact Hlen.
Qed.

(** ** Arrays: a sort with a total comparator leaves the array in order *)

Section SortOrder.

Context {A : Type}.
Variable keeps : A -> A -> bool.
Hypothesis keeps_total : forall a b, keeps a b = true \/ keeps b a = true.
Hypothesis keeps_trans :
  forall a b c, keeps a b = true -> keeps b c = true -> keeps a c = true.

Lemma insertBy_sorted x l :
  StronglySorted (fun a b => keeps a b = true) l ->
  StronglySorted (fun a b => keeps a b = true) (JS.insertBy keeps x l).
Proof.
  induction l as [|y l IH]; intros Hl; simpl.
  - constructor; constructor.
  - inversion Hl as [|y' l' Hrest Hy]; subst.
    destruct (keeps x y) eqn:Hxy.
    + constructor; [exact Hl|]. constructor; [exact Hxy|].
      apply Forall_forall. intros z Hz. apply (keeps_trans x y z Hxy).
      apply (proj1 (Forall_forall _ _) Hy z Hz).
    + constructor; [apply IH; exact Hrest|].
      apply Forall_forall. intros z Hz.
      apply (Permutation_in _ (insertBy_perm keeps x l)) in Hz.
      destruct Hz as [<-|Hz].
      * destruct (keeps_total x y) as [H|H]; [congruence | exact H].
      * apply (proj1 (Forall_forall _ _) Hy z Hz).
Qed.

Lemma sortBy_sorted l :
  StronglySorted (fun a b => keeps a b = true) (JS.sortBy keeps l).
Proof.
  induction l as [|x l IH]; simpl; [constructor|].
  apply insertBy_sorted. exact IH.
Qed.

End SortOrder.

Lemma sortBy_ext {A : Type} (keeps keeps' : A -> A -> bool) l :
  (forall a b, keeps a b = keeps' a b) -> JS.sortBy keeps l = JS.sortBy keeps' l.
Proof.
  intros H. induction l as [|x l IH]; simpl; [reflexivity|].
  change (fold_right (JS.insertBy keeps) [] l) with (JS.sortBy keeps l).
  change (fold_right (JS.insertBy keeps') [] l) with (JS.sortBy keeps' l).
  rewrite IH. generalize (JS.sortBy keeps' l). intros m.
  induction m as [|y m IHm]; simpl; [reflexivity|].
  rewrite H, IHm. reflexivity.
Qed.

Lemma cmp_keeps_leb a b : Num.cmp_keeps a b = Num.leb a b.
Proof. destruct a, b; reflexivity. Qed.

Lemma Num_leb_total a b : Num.leb a b = true \/ Num.leb b a = true.
Proof.
  destruct a as [x|], b as [y|]; simpl; auto.
  destruct (Rle_dec x y); [left; apply leb_true; assumption|].
  right. apply leb_true. lra.
Qed.

Lemma Num_leb_trans a b c :
  Num.leb a b = true -> Num.leb b c = true -> Num.leb a c = true.
Proof.
  destruct a as [x|], b as [y|], c as [z|]; simpl; auto; try discriminate.
  rewrite !leb_true. lra.
Qed.

Lemma sortBy_score_sorted (l : list RouteCandidate) :
  StronglySorted (fun a b => Num.leb (score a) (score b) = true)
    (JS.sortBy (fun a b => Num.cmp_keeps (score a) (score b)) l).
Proof.
  rewrite (sortBy_ext _ (fun a b => Num.leb (score a) (score b)))
    by (intros a b; apply cmp_keeps_leb).
  apply (sortBy_sorted (fun a b => Num.leb (score a) (score b))).
  - intros a b. apply Num_leb_total.
  - intros a b c. apply Num_leb_trans.
Qed.

(** X5: the list a call returns is in ascending order of score, so its
    first route has the lowest score of the call; no two of its routes
    have the same signature; and it holds at most one route for each
    iteration. *)
Theorem generated_list_ordered_and_distinct :
  forall (W : World) (start : TacoBellLocation) (targetKm : R) (nStops : Z)
         (allTacoBells : list TacoBellLocation) (iterations k : nat)
         (found : list RouteCandidate) (k' : nat),
    generateCandidateRoutes W start targetKm nStops allTacoBells iterations k
      = (Ok found, k') ->
    StronglySorted (fun a b => Num.leb (score a) (score b) = true) found /\
    (forall c, In c found ->
       Num.leb (score (hd c found)) (score c) = true) /\
    NoDup (map (fun c => routeSignature (stops c)) found) /\
    NoDup (map stops found) /\
    (List.length found <= iterations)%nat.
Proof.
  intros W start targetKm nStops allTacoBells iterations k found k' H.
  destruct (generateCandidateRoutes_list _ _ _ _ _ _ _ _ _ H) as [_ [Hnd Hlen]].
  assert (Hsorted : StronglySorted (fun a b => Num.leb (score a) (score b) = true) found).
  { unfold generateCandidateRoutes in H.
    destruct (Z.of_nat (List.length (nearbyOf start allTacoBells)) <? nStops - 1)%Z;
      [discriminate|].
    destruct (iterate W start targetKm nStops iterations (nearbyOf start allTacoBells)
                (mkGen [] [] k)) as [[st|e] k1]; [|discriminate].
    injection H as <- _.
    apply sortBy_score_sorted. }
  split; [exact Hsorted|]. split; [|split; [exact Hnd|split; [|exact Hlen]]].
  - intros c Hc. destruct found as [|first rest]; [contradiction|]. simpl.
    inversion Hsorted as [|a l _ Hfirst]; subst.
    destruct Hc as [<-|Hc].
    + destruct (Num_leb_total (score first) (score first)); assumption.
    + apply (proj1 (Forall_forall _ _) Hfirst c Hc).
  - rewrite <- (map_map stops routeSignature) in Hnd.
    apply NoDup_map_inv in Hnd. exact Hnd.
Qed.

Lemma generated_list_ordered_and_distinct_witness :
  StronglySorted (fun a b => Num.leb (score a) (score b) = true)
                 [Example.outAndBack; Example.shortOutAndBack] /\
  NoDup (map (fun c => routeSignature (stops c))
             [Example.outAndBack; Example.shortOutAndBack]) /\
  (List.length [Example.outAndBack; Example.shortOutAndBack] <= 200)%nat.
Proof.
  destruct (generate_two_loops 198) as [k' E].
  destruct (generated_list_ordered_and_distinct Example.variedWorld Example.s 50 2
              [Example.mid; Example.a; Example.s] 200 0
              [Example.outAndBack; Example.shortOutAndBack] k' E)
    as [Hsorted [_ [Hsignatures [_ Hlength]]]].
  split; [exact Hsorted|]. split; [exact Hsignatures | exact Hlength].
Defined.

Lemma hd_loopOf start visited d : hd d (loopOf start visited) = start.
Proof. destruct visited; reflexivity. Qed.

Lemma loopnessPenalty_loopOf start x visited :
  loopnessPenalty (loopOf start (x :: visited)) = Fin 0.
Proof.
  unfold loopOf. rewrite loopnessPenalty_ends, distanceBetween_refl. reflexivity.
Qed.

(** X4: every candidate a call returns carries the haversine length of its
    stops as [totalDistance] and the value of [scoreRoute] with the weights
    0.5 and 0.2 as [score]; its estimated road length, 1.18 times the
    haversine length, is at most 1.1 times the target; and when it visits a
    stop its closure penalty is zero, so that its score is the distance
    from the target plus 0.2 times the spacing sub-score. *)
Theorem generated_candidate_fields :
  forall (W : World) (start : TacoBellLocation) (targetKm : R) (nStops : Z)
         (allTacoBells : list TacoBellLocation) (iterations k : nat)
         (found : list RouteCandidate) (k' : nat) (c : RouteCandidate),
    generateCandidateRoutes W start targetKm nStops allTacoBells iterations k
      = (Ok found, k') ->
    In c found ->
    totalDistance c = routeDistance (stops c) /\
    score c = snd (scoreRoute (stops c) targetKm 0.5 0.2 1.18) /\
    totalDistance c / 1000 * 1.18 <= targetKm * 1.1 /\
    (JS.interior (stops c) <> [] ->
     loopnessPenalty (stops c) = Fin 0 /\
     score c = Num.add (Fin (Rabs (totalDistance c / 1000 * 1.18 - targetKm)))
                       (Num.scale 0.2 (calculateSegmentSpacingVariance (stops c)))).
Proof.
  intros W start targetKm nStops allTacoBells iterations k found k' c H Hc.
  destruct (generateCandidateRoutes_list _ _ _ _ _ _ _ _ _ H) as [Hall _].
  destruct (Hall c Hc) as [Hdist [Hscore Hlen]].
  split; [exact Hdist|]. split; [exact Hscore|]. split; [rewrite Hdist; exact Hlen|].
  intros Hvisits.
  destruct (generateCandidateRoutes_distinctLoop _ _ _ _ _ _ _ _ _ H c Hc)
    as [visited [Hloop _]].
  rewrite Hloop, interior_loopOf in Hvisits.
  destruct visited as [|x visited]; [contradiction|].
  assert (Hpen : loopnessPenalty (stops c) = Fin 0).
  { rewrite Hloop. apply loopnessPenalty_loopOf. }
  split; [exact Hpen|].
  rewrite Hscore. unfold scoreRoute. cbn [snd]. rewrite Hpen, <- Hdist.
  cbn [Num.div Num.scale Num.add]. 
  destruct (calculateSegmentSpacingVariance (stops c)); cbn [Num.scale Num.add];
    [|reflexivity].
  f_equal. lra.
Qed.

Lemma generated_candidate_fields_witness :
  totalDistance Example.outAndBack / 1000 * 1.18 <= 50 * 1.1.
Proof.
  destruct (generate_copies [] 2 0 ltac:(lia) ltac:(simpl; lia) 199 0) as [k' E].
  apply (generated_candidate_fields (Example.world []) Example.s 50 2
           [Example.a; Example.s] 200 0 [Example.outAndBack] k' Example.outAndBack
           E (or_introl eq_refl)).
Defined.

(** ** Candidate route generator: when it throws *)

Section GeneratorReturns.

Variable W : World.
Variable start : TacoBellLocation.
Variable targetKm : R.
Variable nStops : Z.

Hypothesis random_range : forall i, 0 <= random W i < 1.

Lemma selectCandidate_some candidates k :
  candidates <> [] ->
  exists selected k', selectCandidate W candidates k = (Some selected, k').
Proof.
  intros Hne. unfold selectCandidate.
  destruct (JSMath.ltb (random W k) 0.7 || (List.length candidates =? 1)%nat).
  - destruct candidates as [|c rest]; [contradiction|]. exists c, (S k). reflexivity.
  - set (topK := Nat.min 3 (List.length candidates)).
    assert (HtopK : (1 <= topK <= List.length candidates)%nat).
    { unfold topK. destruct candidates; [contradiction|]. simpl List.length. lia. }
    assert (Hr := random_range (S k)).
    assert (HK : 1 <= INR topK).
    { change 1 with (INR 1). apply le_INR. lia. }
    assert (Hprod : 0 <= random W (S k) * INR topK < INR topK) by nra.
    assert (Hfloor := Zfloor_bound (random W (S k) * INR topK)).
    set (i := Zfloor (random W (S k) * INR topK)) in *.
    assert (Hi : (0 <= i < Z.of_nat topK)%Z).
    { split.
      - apply le_IZR. apply Rnot_lt_le. intros Hneg.
        assert (IZR i + 1 <= 0).
        { rewrite <- plus_IZR. apply IZR_le. apply lt_IZR in Hneg. lia. }
        lra.
      - apply lt_IZR. rewrite <- INR_IZR_INZ. lra. }
    unfold JS.at_index.
    destruct (Z.ltb_spec i 0) as [Hneg|_]; [lia|].
    destruct (nth_error candidates (Z.to_nat i)) as [selected|] eqn:Hnth.
    + exists selected, (S (S k)). reflexivity.
    + apply nth_error_None in Hnth. lia.
Qed.

Lemma extendRoute_returns remaining shuffled : forall route k,
  exists built k',
    extendRoute W start targetKm nStops remaining shuffled route k = (Ok built, k').
Proof.
  induction remaining as [|n IH]; intros route k; simpl.
  - exists route, k. reflexivity.
  - destruct (Nat.eqb_spec
                (List.length (scoreCandidates start targetKm nStops shuffled route)) 0)
      as [Hempty|Hsome].
    + exists route, k. reflexivity.
    + destruct (selectCandidate_some
                  (rankCandidates targetKm nStops
                     (scoreCandidates start targetKm nStops shuffled route)) k)
        as [selected [k1 E]].
      { intros Hnil. apply Hsome.
        rewrite <- (length_map tb).
        rewrite <- (Permutation_length (rankCandidates_tb targetKm nStops _)).
        rewrite Hnil. reflexivity. }
      rewrite E. apply IH.
Qed.

Lemma attempt_returns nearby st :
  exists st' k, attempt W start targetKm nStops nearby st = (Ok st', k).
Proof.
  unfold attempt.
  destruct (sortRandomly W (draws st) nearby) as [shuffled k1].
  destruct (extendRoute_returns (Z.to_nat (nStops - 1)) shuffled [start] k1)
    as [built [k2 E]].
  rewrite E.
  destruct (existsb _ (seenRoutes st)); [eexists; eexists; reflexivity|].
  destruct (JSMath.ltb _ _); [eexists; eexists; reflexivity|].
  unfold scoreRoute. eexists; eexists; reflexivity.
Qed.

Lemma iterate_returns iterations nearby : forall st,
  exists st' k, iterate W start targetKm nStops iterations nearby st = (Ok st', k).
Proof.
  induction iterations as [|n IH]; intros st; simpl.
  - eexists; eexists; reflexivity.
  - destruct (attempt_returns nearby st) as [st1 [k1 E]]. rewrite E. apply IH.
Qed.

End GeneratorReturns.

(** X6: when the draws of [Math.random] lie in [0, 1), a call of the
    generator fails in one case only: fewer than [nStops - 1] stops of the
    pool are within 24,140 meters of the start and differ from it, and then
    the error message gives both numbers.  In every other case the call
    returns a list. *)
Theorem generator_throws_only_for_lack_of_stops :
  forall (W : World) (start : TacoBellLocation) (targetKm : R) (nStops : Z)
         (allTacoBells : list TacoBellLocation) (iterations k : nat),
    (forall i, 0 <= random W i < 1) ->
    let nearby := nearbyOf start allTacoBells in
    ((Z.of_nat (List.length nearby) < nStops - 1)%Z ->
     generateCandidateRoutes W start targetKm nStops allTacoBells iterations k =
     (Throw ("Not enough Taco Bells nearby! Found " ++
             JS.string_of_Z (Z.of_nat (List.length nearby)) ++
             ", need at least " ++ JS.string_of_Z (nStops - 1)), k)) /\
    ((nStops - 1 <= Z.of_nat (List.length nearby))%Z ->
     exists found k',
       generateCandidateRoutes W start targetKm nStops allTacoBells iterations k =
       (Ok found, k')).
Proof.
  intros W start targetKm nStops allTacoBells iterations k Hrandom nearby.
  unfold generateCandidateRoutes. fold nearby. split; intros H.
  - destruct (Z.ltb_spec (Z.of_nat (List.length nearby)) (nStops - 1)); [reflexivity|lia].
  - destruct (Z.ltb_spec (Z.of_nat (List.length nearby)) (nStops - 1)); [lia|].
    destruct (iterate_returns W start targetKm nStops Hrandom iterations nearby
                (mkGen [] [] k)) as [st [k1 E]].
    rewrite E. eexists; eexists; reflexivity.
Qed.

Lemma generator_throws_only_for_lack_of_stops_witness :
  generateCandidateRoutes (Example.world []) Example.s 50 3 [Example.a; Example.s] 200 0 =
  (Throw "Not enough Taco Bells nearby! Found 1, need at least 2", O).
Proof.
  assert (Hnear : nearbyOf Example.s [Example.a; Example.s] = [Example.a])
    by exact (nearbyOf_copies 0).
  assert (H := proj1 (generator_throws_only_for_lack_of_stops
                        (Example.world []) Example.s 50 3 [Example.a; Example.s] 200 0
                        (fun _ => conj (Rle_refl 0) Rlt_0_1))).
  rewrite Hnear in H. apply H. simpl. lia.
Defined.

(** ** Search orchestrator: what a search returns *)

Lemma nearbyOf_withStart start found :
  nearbyOf start (withStart start found) = nearbyOf start found.
Proof.
  unfold withStart.
  destruct (existsb (fun tb => String.eqb (placeId tb) (placeId start)) found);
    [reflexivity|].
  unfold nearbyOf. rewrite filter_app. simpl.
  rewrite String.eqb_refl, andb_false_r. apply app_nil_r.
Qed.

Lemma stopCounts_In config nStops :
  In nStops (stopCounts config) ->
  (minTacoBells config <= nStops <= maxTacoBells config)%Z.
Proof.
  unfold stopCounts. intros H. apply in_map_iff in H as [i [<- Hi]].
  apply in_seq in Hi. lia.
Qed.

(** Every merged candidate comes from a call of the generator for one of
    the stop counts. *)
Lemma generateAll_In W start allTacoBells counts : forall k acc c,
  In c (fst (generateAll W start allTacoBells counts k acc)) ->
  In c acc \/
  exists nStops k1 found k2,
    In nStops counts /\
    generateCandidateRoutes W start targetKm nStops allTacoBells 200 k1 = (Ok found, k2) /\
    In c found.
Proof.
  induction counts as [|nStops rest IH]; intros k acc c Hc; simpl in Hc; [left; exact Hc|].
  destruct (generateCandidateRoutes W start targetKm nStops allTacoBells 200 k)
    as [[found|e] k1] eqn:E.
  - apply IH in Hc as [Hc|[n [k2 [found' [k3 [Hn [Hgen Hin]]]]]]].
    + apply in_app_or in Hc as [Hc|Hc]; [left; exact Hc|].
      right. exists nStops, k, found, k1. simpl. auto.
    + right. exists n, k2, found', k3. simpl. auto.
  - apply IH in Hc as [Hc|[n [k2 [found' [k3 [Hn [Hgen Hin]]]]]]]; [left; exact Hc|].
    right. exists n, k2, found', k3. simpl. auto.
Qed.

Lemma generateAll_length W start allTacoBells counts : forall k acc,
  (List.length (fst (generateAll W start allTacoBells counts k acc)) <=
   List.length acc + 200 * List.length counts)%nat.
Proof.
  induction counts as [|nStops rest IH]; intros k acc; simpl; [lia|].
  destruct (generateCandidateRoutes W start targetKm nStops allTacoBells 200 k)
    as [[found|e] k1] eqn:E.
  - specialize (IH k1 (acc ++ found)). rewrite length_app in IH.
    destruct (generateCandidateRoutes_list _ _ _ _ _ _ _ _ _ E) as [_ [_ Hlen]]. lia.
  - specialize (IH k1 acc). lia.
Qed.

Lemma generateAll_all_throw W start allTacoBells counts : forall k acc,
  (forall nStops, In nStops counts ->
     (Z.of_nat (List.length (nearbyOf start allTacoBells)) < nStops - 1)%Z) ->
  generateAll W start allTacoBells counts k acc = (acc, k).
Proof.
  induction counts as [|nStops rest IH]; intros k acc Hshort; simpl; [reflexivity|].
  unfold generateCandidateRoutes.
  destruct (Z.ltb_spec (Z.of_nat (List.length (nearbyOf start allTacoBells))) (nStops - 1))
    as [_|Hge].
  - apply IH. intros n Hn. apply Hshort. right. exact Hn.
  - specialize (Hshort nStops (or_introl eq_refl)). lia.
Qed.

Lemma firstn_incl {A : Type} n (l : list A) x : In x (firstn n l) -> In x l.
Proof.
  intros H. rewrite <- (firstn_skipn n l). apply in_or_app. left. exact H.
Qed.

(** X7: when the places search finds enough stops but fewer than
    [minTacoBells - 1] of them are within 24,140 meters of the start and
    differ from it, every call of the generator throws, each error is
    swallowed, and the search fails with the message "No candidate routes
    generated" without a request to the directions service. *)
Theorem findOptimalRoute_no_candidates :
  forall (W : World) (start : TacoBellLocation) (config : RouteFinderConfig)
         (found : list TacoBellLocation),
    findTacoBells W (lat start, lng start) (searchRadiusMiles config) = Ok found ->
    (minTacoBells config <= Z.of_nat (List.length found))%Z ->
    (Z.of_nat (List.length (nearbyOf start found)) < minTacoBells config - 1)%Z ->
    findOptimalRoute W start config = failure "No candidate routes generated" /\
    oracleCalls W start config = O.
Proof.
  intros W start config found Hfound Hmin Hshort.
  unfold findOptimalRoute, oracleCalls, findOptimalRouteTraced. rewrite Hfound.
  destruct (Z.ltb_spec (Z.of_nat (List.length found)) (minTacoBells config)); [lia|].
  cbv zeta. unfold topCandidates, candidateRoutes.
  rewrite generateAll_all_throw; [simpl; split; reflexivity|].
  intros nStops Hn. apply stopCounts_In in Hn. rewrite nearbyOf_withStart. lia.
Qed.

Lemma far_place_not_nearby id :
  nearbyOf Example.s [mkTB 0 0.3 "" "c" "Taco Bell"; mkTB 0 0.3 "" id "Taco Bell"] = [].
Proof.
  assert (Hfar : forall i, JSMath.leb (distanceBetween Example.s (mkTB 0 0.3 "" i "Taco Bell"))
                                     24140 = false).
  { intros i. apply leb_false. rewrite distance_on_equator by (simpl; lra).
    simpl. assert (H := tenth_bounds). lra. }
  unfold nearbyOf. simpl. rewrite !Hfar. reflexivity.
Qed.

Lemma findOptimalRoute_no_candidates_witness :
  findOptimalRoute (Example.world [Example.place "c" 0.3; Example.place "d" 0.3])
                   Example.s (Example.config 2 3 None) =
  failure "No candidate routes generated".
Proof.
  destruct (findOptimalRoute_no_candidates
              (Example.world [Example.place "c" 0.3; Example.place "d" 0.3])
              Example.s (Example.config 2 3 None)
              [mkTB 0 0.3 "" "c" "Taco Bell"; mkTB 0 0.3 "" "d" "Taco Bell"])
    as [E _].
  - reflexivity.
  - simpl. lia.
  - rewrite far_place_not_nearby. simpl. lia.
  - exact E.
Defined.

(** *** The verification loop keeps a candidate of its list with a
    distance in range *)

Section VerifyInvariant.

Variable W : World.
Variable start : TacoBellLocation.
Variable config : RouteFinderConfig.
Variable all : list RouteCandidate.

Let verified (st : VerifyState) : Prop :=
  match bestRoute st with
  | Some c =>
      exists d,
        bestActualDistance st = Fin d /\
        minDistanceMeters config <= d <= maxDistanceMeters config /\
        (0 <= bestRouteIndex st)%Z /\
        nth_error all (Z.to_nat (bestRouteIndex st)) = Some c
  | None => bestActualDistance st = Infinity /\ bestRouteIndex st = (-1)%Z
  end.

Lemma considerDistance_verified i candidate totalDistance st :
  nth_error all i = Some candidate ->
  verified st -> verified (considerDistance config i candidate totalDistance st).
Proof.
  intros Hi Hst. unfold considerDistance.
  destruct (JSMath.leb (minDistanceMeters config) totalDistance) eqn:Hmin; [|exact Hst].
  destruct (JSMath.leb totalDistance (maxDistanceMeters config)) eqn:Hmax; [|exact Hst].
  cbn [andb]. apply leb_true in Hmin, Hmax.
  destruct (Num.ltb (Fin totalDistance) (bestActualDistance st) || isNull (bestRoute st));
    [|exact Hst].
  destruct (Num.leb _ _ || isNull (bestRoute st)); [|exact Hst].
  unfold verified. cbn [bestRoute bestActualDistance bestRouteIndex].
  exists totalDistance. rewrite Nat2Z.id. repeat split; auto. lia.
Qed.

Lemma verifyCandidate_verified_state i candidate st :
  nth_error all i = Some candidate ->
  verified st -> verified (verifyCandidate W start config i candidate st).
Proof.
  intros Hi Hst. unfold verifyCandidate.
  destruct (calculateRoute W _ _ _ _) as [directions|e]; [|exact Hst].
  destruct (routes directions) as [[|legs others]|]; try exact Hst.
  apply considerDistance_verified; [exact Hi | exact Hst].
Qed.

Lemma verifyLoop_verified rest : forall i st,
  (forall j c, nth_error rest j = Some c -> nth_error all (i + j) = Some c) ->
  verified st -> verified (verifyLoop W start config rest i st).
Proof.
  induction rest as [|candidate rest IH]; intros i st Hrest Hst; simpl; [exact Hst|].
  destruct (effectiveMaxApiCalls config <=? apiCallCount st)%Z; [exact Hst|].
  apply IH.
  - intros j c Hj. replace (S i + j)%nat with (i + S j)%nat by lia.
    apply Hrest. exact Hj.
  - apply verifyCandidate_verified_state; [|exact Hst].
    rewrite <- (Nat.add_0_r i). apply Hrest. reflexivity.
Qed.

Lemma verifyLoop_from_start :
  let st := verifyLoop W start config all O initialVerify in
  match bestRoute st with
  | Some c =>
      In c all /\
      exists d,
        bestActualDistance st = Fin d /\
        minDistanceMeters config <= d <= maxDistanceMeters config /\
        (0 <= bestRouteIndex st)%Z /\
        nth_error all (Z.to_nat (bestRouteIndex st)) = Some c
  | None => bestActualDistance st = Infinity /\ bestRouteIndex st = (-1)%Z
  end.
Proof.
  intros st.
  assert (H : verified st).
  { apply verifyLoop_verified; [intros j c Hj; exact Hj | split; reflexivity]. }
  unfold verified in H. destruct (bestRoute st) as [c|]; [|exact H].
  destruct H as [d [H1 [H2 [H3 H4]]]].
  split; [eapply nth_error_In; exact H4|]. exists d. auto.
Qed.

End VerifyInvariant.

(** *** The outcomes of a search *)

Lemma findOptimalRouteTraced_outcome W start config :
  (exists message, findOptimalRouteTraced W start config = (failure message, O)) \/
  (exists found c,
     findTacoBells W (lat start, lng start) (searchRadiusMiles config) = Ok found /\
     let top := topCandidates W start config (withStart start found) in
     let st := verifyLoop W start config top O initialVerify in
     In c top /\
     findOptimalRouteTraced W start config =
       (mkResult true (Some (JS.dropLast (stops c)))
                 (Some (match bestRoute st with
                        | Some _ => bestActualDistance st
                        | None => Fin (totalDistance c)
                        end)) None, requests st) /\
     match bestRoute st with
     | Some best => best = c
     | None => hd_error top = Some c
     end).
Proof.
  unfold findOptimalRouteTraced.
  destruct (findTacoBells W (lat start, lng start) (searchRadiusMiles config))
    as [found|e] eqn:Hfound; [|left; eexists; reflexivity].
  destruct (Z.of_nat (List.length found) <? minTacoBells config)%Z;
    [left; eexists; reflexivity|].
  cbv zeta.
  destruct (topCandidates W start config (withStart start found))
    as [|bestEstimate rest] eqn:Htop; [left; eexists; reflexivity|].
  right. exists found.
  assert (Hinv := verifyLoop_from_start W start config (bestEstimate :: rest)).
  cbv zeta in Hinv.
  destruct (bestRoute (verifyLoop W start config (bestEstimate :: rest) 0 initialVerify))
    as [best|] eqn:Hbest.
  - exists best. destruct Hinv as [Hin _].
    split; [reflexivity|]. rewrite Htop, Hbest. auto.
  - exists bestEstimate. split; [reflexivity|]. rewrite Htop, Hbest.
    split; [left; reflexivity|]. split; reflexivity.
Qed.

Lemma topCandidates_generated W start config allTacoBells c :
  In c (topCandidates W start config allTacoBells) ->
  exists nStops k found k',
    (minTacoBells config <= nStops <= maxTacoBells config)%Z /\
    generateCandidateRoutes W start targetKm nStops allTacoBells 200 k = (Ok found, k') /\
    In c found.
Proof.
  unfold topCandidates, candidateRoutes. intros H. apply firstn_incl in H.
  apply generateAll_In in H as [[]|[nStops [k [found [k' [Hn [Hgen Hc]]]]]]].
  exists nStops, k, found, k'. split; [apply stopCounts_In; exact Hn | auto].
Qed.


(** *** The route of a successful search *)

(** The route of a result is made of a loop that a call of the generator
    returned for one of the stop counts. *)
Lemma result_route_loop W start config l :
  route (findOptimalRoute W start config) = Some l ->
  exists found nStops visited,
    findTacoBells W (lat start, lng start) (searchRadiusMiles config) = Ok found /\
    (minTacoBells config <= nStops <= maxTacoBells config)%Z /\
    l = JS.dropLast (loopOf start visited) /\
    NoDup (placeId start :: map placeId visited) /\
    (Z.of_nat (List.length visited) <= Z.max 0 (nStops - 1))%Z /\
    ((forall k m, Permutation m (fst (sortRandomly W k m))) ->
     (forall x, In x visited -> In x (nearbyOf start (withStart start found))) /\
     ((2 <= nStops)%Z -> visited <> [])).
Proof.
  intros Hroute. unfold findOptimalRoute in Hroute.
  destruct (findOptimalRouteTraced_outcome W start config)
    as [[message E]|[found [c [Hfound H]]]].
  { rewrite E in Hroute. discriminate Hroute. }
  cbv zeta in H. destruct H as [Hin [E _]]. rewrite E in Hroute. cbn [fst route] in Hroute.
  injection Hroute as <-.
  destruct (topCandidates_generated _ _ _ _ _ Hin)
    as [nStops [k [found' [k' [Hn [Hgen Hc]]]]]].
  assert (Hloop :
    exists visited,
      stops c = loopOf start visited /\
      NoDup (placeId start :: map placeId visited) /\
      (Z.of_nat (List.length visited) <= Z.max 0 (nStops - 1))%Z /\
      ((forall k m, Permutation m (fst (sortRandomly W k m))) ->
       (forall x, In x visited -> In x (nearbyOf start (withStart start found))) /\
       ((2 <= nStops)%Z -> visited <> []))).
  { pattern (stops c).
    refine (generateCandidateRoutes_keeps W start targetKm nStops _ _ _ _ _ _ _ Hgen c Hc).
    intros Henough d k1 built k2 Hbuilt.
    destruct (built_boundedLoop W start targetKm nStops
                (nearbyOf start (withStart start found)) _ _ _ _ Henough
                ltac:(intros x Hx; apply nearbyOf_In in Hx; tauto) Hbuilt)
      as [visited [H1 [H2 [H3 H4]]]].
    exists visited. split; [exact H1|]. split; [exact H2|]. split; [exact H3|].
    intros Hperm. apply H4. apply Hperm. }
  destruct Hloop as [visited [Hstops [Hnd [Hlen Hperm]]]].
  exists found, nStops, visited. rewrite Hstops. auto 8.
Qed.

(** X9: the route of a successful search is empty or begins with the
    start, holds no identifier twice, and has at most [maxTacoBells] stops.
    When the random sort returns a permutation of its argument, every other
    stop of the route was found by the places search and lies within 24,140
    meters of the start, and with [minTacoBells] at least 2 the route is
    not empty. *)
Theorem findOptimalRoute_route_shape :
  forall (W : World) (start : TacoBellLocation) (config : RouteFinderConfig)
         (l : list TacoBellLocation),
    route (findOptimalRoute W start config) = Some l ->
    exists found visited,
      findTacoBells W (lat start, lng start) (searchRadiusMiles config) = Ok found /\
      l = match visited with [] => [] | _ => start :: visited end /\
      NoDup (placeId start :: map placeId visited) /\
      (Z.of_nat (List.length visited) <= Z.max 0 (maxTacoBells config - 1))%Z /\
      ((forall k m, Permutation m (fst (sortRandomly W k m))) ->
       (forall x, In x visited -> In x found /\ distanceBetween start x <= 24140) /\
       ((2 <= minTacoBells config)%Z -> visited <> [])).
Proof.
  intros W start config l Hroute.
  destruct (result_route_loop W start config l Hroute)
    as [found [nStops [visited [Hfound [Hn [Hl [Hnd [Hlen Hperm]]]]]]]].
  exists found, visited. split; [exact Hfound|].
  split; [rewrite Hl; apply dropLast_loopOf|]. split; [exact Hnd|]. split; [lia|].
  intros Hsort. destruct (Hperm Hsort) as [Hnear Hsome]. split.
  - intros x Hx. apply Hnear in Hx. rewrite nearbyOf_withStart in Hx.
    apply nearbyOf_In in Hx. tauto.
  - intros Htwo. apply Hsome. lia.
Qed.

Lemma findOptimalRoute_route_shape_witness :
  exists found visited,
    findTacoBells (Example.world Example.threePlaces) (lat Example.s, lng Example.s)
                  (searchRadiusMiles (Example.config 3 4 None)) = Ok found /\
    [Example.s; Example.near; Example.mid] =
      match visited with [] => [] | _ => Example.s :: visited end /\
    NoDup (placeId Example.s :: map placeId visited).
Proof.
  destruct (findOptimalRoute_route_shape (Example.world Example.threePlaces) Example.s
              (Example.config 3 4 None) [Example.s; Example.near; Example.mid])
    as [found [visited [H1 [H2 [H3 _]]]]].
  - unfold findOptimalRoute.
    rewrite three_places_run;
      [reflexivity | unfold effectiveMaxApiCalls, Example.config; simpl; lia].
  - exists found, visited. auto.
Defined.

(** *** The requests of a search *)

Lemma verifyLoop_returned W start config candidates : forall i st,
  (apiCallCount st <= Z.of_nat (requests st))%Z ->
  let st' := verifyLoop W start config candidates i st in
  (apiCallCount st' <= Z.of_nat (requests st'))%Z /\
  ((forall n origin destination waypoints,
       exists directions, calculateRoute W n origin destination waypoints = Ok directions) ->
   apiCallCount st = Z.of_nat (requests st) ->
   apiCallCount st' = Z.of_nat (requests st')).
Proof.
  induction candidates as [|candidate rest IH]; intros i st Hle; simpl; [auto|].
  destruct (effectiveMaxApiCalls config <=? apiCallCount st)%Z; [auto|].
  destruct (verifyCandidate_counts W start config i candidate st) as [Hreq Hcount].
  simpl in Hreq, Hcount.
  destruct (IH (S i) (verifyCandidate W start config i candidate st)) as [H1 H2]; [lia|].
  split; [exact H1|]. intros Hok Heq. apply H2; [exact Hok|].
  rewrite Hreq. unfold verifyCandidate.
  destruct (Hok (requests st) (hd start (stops candidate))
              (List.last (stops candidate) start) (JS.interior (stops candidate)))
    as [directions E].
  rewrite E.
  destruct (routes directions) as [[|legs others]|]; simpl; try lia.
  destruct (considerDistance_counts config i candidate (sum legs)
              (mkVerify (bestRoute st) (bestActualDistance st) (bestRouteIndex st)
                        (apiCallCount st + 1) (S (requests st)))) as [-> _].
  simpl. lia.
Qed.

(** X10: a search makes at most one request to the directions service for
    each of its first five merged candidates, hence at most five requests;
    the requests that return never outnumber the ceiling
    [maxApiCalls || 50]; and when no request throws, the requests made
    stay within that ceiling. *)
Theorem oracle_requests_bounded :
  forall (W : World) (start : TacoBellLocation) (config : RouteFinderConfig)
         (candidates : list RouteCandidate),
    let st := verifyLoop W start config candidates O initialVerify in
    (requests st <= List.length candidates)%nat /\
    (apiCallCount st <= Z.max 0 (effectiveMaxApiCalls config))%Z /\
    (apiCallCount st <= Z.of_nat (requests st))%Z /\
    ((forall n origin destination waypoints,
         exists directions,
           calculateRoute W n origin destination waypoints = Ok directions) ->
     (Z.of_nat (requests st) <= Z.max 0 (effectiveMaxApiCalls config))%Z) /\
    (oracleCalls W start config <= 5)%nat.
Proof.
  intros W start config candidates st.
  destruct (verifyLoop_counts W start config candidates O initialVerify) as [Hcount Hreq].
  destruct (verifyLoop_returned W start config candidates O initialVerify) as [Hle Heq];
    [simpl; lia|].
  fold st in Hcount, Hreq, Hle, Heq. simpl in Hcount, Hreq.
  split; [exact Hreq|]. split; [exact Hcount|]. split; [exact Hle|]. split.
  - intros Hok. rewrite <- (Heq Hok eq_refl). exact Hcount.
  - unfold oracleCalls.
    destruct (findOptimalRouteTraced_outcome W start config)
      as [[message E]|[found [c [_ H]]]]; [rewrite E; simpl; lia|].
    cbv zeta in H. destruct H as [_ [E _]]. rewrite E. cbn [snd].
    destruct (verifyLoop_counts W start config
                (topCandidates W start config (withStart start found)) O initialVerify)
      as [_ H5].
    simpl in H5. unfold topCandidates in H5 at 2. rewrite length_firstn in H5. lia.
Qed.

(** * Further properties: validation, beam search scoring, planner, URL *)

(** ** Validation of a location *)

Lemma isTacoBell_looks place :
  isTacoBell place = looksLikeTacoBell (types place) (place_name place).
Proof. reflexivity. Qed.

Lemma firstNearby_valid location nearby :
  match tacoBell (firstNearby location nearby) with
  | Some found =>
      isValid (firstNearby location nearby) = true /\
      exists before place rest position,
        nearby = before ++ place :: rest /\
        isTacoBell place = true /\
        geometry place = Some position /\
        found = fromPlace place position /\
        haversineDistance (fst location) (snd location) (lat found) (lng found) < 100 /\
        (forall earlier, In earlier before -> isTacoBell earlier = true ->
           exists p, geometry earlier = Some p /\
             100 <= haversineDistance (fst location) (snd location) (fst p) (snd p))
  | None => isValid (firstNearby location nearby) = false
  end.
Proof.
  induction nearby as [|place rest IH]; simpl; [reflexivity|].
  destruct (isTacoBell place) eqn:Htb.
  - destruct (geometry place) as [position|] eqn:Hgeo; [|reflexivity].
    destruct (JSMath.ltb _ 100) eqn:Hnear.
    + simpl. split; [reflexivity|]. exists [], place, rest, position.
      split; [reflexivity|]. split; [exact Htb|]. split; [exact Hgeo|].
      split; [reflexivity|]. split; [apply ltb_true in Hnear; exact Hnear|].
      intros earlier [].
    + destruct (tacoBell (firstNearby location rest)) as [found|]; [|exact IH].
      destruct IH as [Hvalid [before [p [after [position' [E [H1 [H2 [H3 [H4 H5]]]]]]]]]].
      split; [exact Hvalid|]. exists (place :: before), p, after, position'.
      split; [rewrite E; reflexivity|]. repeat split; auto.
      intros earlier [<-|Hin] Hearlier; [|apply H5; assumption].
      exists position. split; [exact Hgeo|]. apply ltb_false in Hnear. exact Hnear.
  - destruct (tacoBell (firstNearby location rest)) as [found|]; [|exact IH].
    destruct IH as [Hvalid [before [p [after [position' [E [H1 [H2 [H3 [H4 H5]]]]]]]]]].
    split; [exact Hvalid|]. exists (place :: before), p, after, position'.
    split; [rewrite E; reflexivity|]. repeat split; auto.
    intros earlier [<-|Hin] Hearlier; [congruence | apply H5; assumption].
Qed.

(** X11: [validateTacoBell] answers that a location is valid only with a
    place whose types name a restaurant or food and whose name contains
    "taco bell" or "tacobell" in any letter case.  That place is the one
    with the given identifier, taken without a test of its distance, or it
    is the first search result that passes the test and lies less than 100
    meters from the location, in the order of the results.  An answer that
    is not valid carries no place. *)
Theorem validateTacoBell_sound :
  forall (W : World) (getPlaceDetailsWithTypes : string -> result DetailsResponse)
         (location : R * R) (placeId : option string),
    let v := validateTacoBell W getPlaceDetailsWithTypes location placeId in
    match tacoBell v with
    | Some found =>
        isValid v = true /\
        ((exists id answer,
            placeId = Some id /\ id <> ""%string /\
            getPlaceDetailsWithTypes id = Ok answer /\
            looksLikeTacoBell (details_types answer) (d_name (details answer)) = true /\
            found = fromDetails (details answer)) \/
         (exists nearby before place rest position,
            searchNearbyPlaces W location 500 "Taco Bell" = Ok nearby /\
            nearby = before ++ place :: rest /\
            looksLikeTacoBell (types place) (place_name place) = true /\
            geometry place = Some position /\
            found = fromPlace place position /\
            haversineDistance (fst location) (snd location) (lat found) (lng found) < 100 /\
            (forall earlier, In earlier before ->
               looksLikeTacoBell (types earlier) (place_name earlier) = true ->
               exists p, geometry earlier = Some p /\
                 100 <= haversineDistance (fst location) (snd location) (fst p) (snd p))))
    | None => isValid v = false
    end.
Proof.
  intros W getDetails location placeId v. subst v.
  assert (Hsearch :
    match tacoBell (searchAndValidate W location) with
    | Some found =>
        isValid (searchAndValidate W location) = true /\
        exists nearby before place rest position,
          searchNearbyPlaces W location 500 "Taco Bell" = Ok nearby /\
          nearby = before ++ place :: rest /\
          looksLikeTacoBell (types place) (place_name place) = true /\
          geometry place = Some position /\
          found = fromPlace place position /\
          haversineDistance (fst location) (snd location) (lat found) (lng found) < 100 /\
          (forall earlier, In earlier before ->
             looksLikeTacoBell (types earlier) (place_name earlier) = true ->
             exists p, geometry earlier = Some p /\
               100 <= haversineDistance (fst location) (snd location) (fst p) (snd p))
    | None => isValid (searchAndValidate W location) = false
    end).
  { unfold searchAndValidate.
    destruct (searchNearbyPlaces W location 500 "Taco Bell") as [nearby|e]; [|reflexivity].
    assert (H := firstNearby_valid location nearby).
    destruct (tacoBell (firstNearby location nearby)) as [found|]; [|exact H].
    destruct H as [Hvalid [before [place [rest [position H]]]]].
    split; [exact Hvalid|]. exists nearby, before, place, rest, position.
    split; [reflexivity|]. exact H. }
  assert (Hsearch' :
    match tacoBell (searchAndValidate W location) with
    | Some found =>
        isValid (searchAndValidate W location) = true /\
        ((exists id answer,
            placeId = Some id /\ id <> ""%string /\
            getDetails id = Ok answer /\
            looksLikeTacoBell (details_types answer) (d_name (details answer)) = true /\
            found = fromDetails (details answer)) \/
         (exists nearby before place rest position,
            searchNearbyPlaces W location 500 "Taco Bell" = Ok nearby /\
            nearby = before ++ place :: rest /\
            looksLikeTacoBell (types place) (place_name place) = true /\
            geometry place = Some position /\
            found = fromPlace place position /\
            haversineDistance (fst location) (snd location) (lat found) (lng found) < 100 /\
            (forall earlier, In earlier before ->
               looksLikeTacoBell (types earlier) (place_name earlier) = true ->
               exists p, geometry earlier = Some p /\
                 100 <= haversineDistance (fst location) (snd location) (fst p) (snd p))))
    | None => isValid (searchAndValidate W location) = false
    end).
  { destruct (tacoBell (searchAndValidate W location)); [|exact Hsearch].
    destruct Hsearch as [Hvalid H]. split; [exact Hvalid|]. right. exact H. }
  unfold validateTacoBell.
  destruct placeId as [id|]; [|exact Hsearch'].
  destruct (String.eqb_spec id "") as [Hempty|Hid]; [exact Hsearch'|].
  destruct (getDetails id) as [answer|e] eqn:Hdetails; [|reflexivity].
  destruct (looksLikeTacoBell (details_types answer) (d_name (details answer))) eqn:Hlooks;
    [|exact Hsearch'].
  simpl. split; [reflexivity|]. left. exists id, answer. auto.
Qed.

(** ** The first route finder: ranges of the scores *)















(** ** The first route finder: gaps between bearings and the estimate of a
    route *)

(** A loop over the indices of an array that reads each element and the
    next one, the first one after the last: all passes but the last read
    the element that follows. *)
Lemma cyclic_passes {B : Type} (F : nat -> nat -> B) (n : nat) :
  map (fun i => F i ((i + 1) mod S n)%nat) (seq 0 (S n)) =
  map (fun i => F i (S i)) (seq 0 n) ++ [F n O].
Proof.
  rewrite seq_S, map_app. cbn [map]. f_equal.
  - apply map_ext_in. intros i Hi. apply in_seq in Hi.
    rewrite Nat.mod_small by lia. f_equal. lia.
  - change (0 + n)%nat with n.
    replace (n + 1)%nat with (S n) by lia. rewrite Nat.Div0.mod_same. reflexivity.
Qed.


Lemma segmentDistances_indexed (route : list TacoBellLocation) (d : TacoBellLocation) :
  segmentDistances route =
  map (fun i => distanceBetween (nth i route d) (nth (S i) route d))
      (seq 0 (List.length route - 1)).
Proof.
  induction route as [|a [|b route] IH]; [reflexivity | reflexivity |].
  change (segmentDistances (a :: b :: route))
    with (distanceBetween a b :: segmentDistances (b :: route)).
  rewrite IH.
  replace (List.length (a :: b :: route) - 1)%nat with (S (List.length (b :: route) - 1))
    by (simpl; lia).
  rewrite <- cons_seq, <- seq_shift, map_cons, map_map. reflexivity.
Qed.

Lemma nth_last {A : Type} (l : list A) (d : A) :
  nth (List.length l - 1) l d = List.last l d.
Proof.
  induction l as [|x [|y l] IH]; [reflexivity | reflexivity |].
  change (List.last (x :: y :: l) d) with (List.last (y :: l) d).
  rewrite <- IH. simpl. rewrite Nat.sub_0_r. reflexivity.
Qed.


(** X15: the first route finder estimates a route of two or more stops by
    1.3 times the length of the closed tour, the haversine length of the
    route plus the leg from its last stop back to its first; a shorter
    route is estimated at 0.  On a route that already ends at the place
    where it starts the estimate is 1.3 times [routeDistance].  The
    estimate is never negative. *)
Theorem estimateRouteDistance_closed_tour :
  forall (first second : TacoBellLocation) (rest : list TacoBellLocation),
    let route := first :: second :: rest in
    V1.estimateRouteDistance [] = 0 /\
    V1.estimateRouteDistance [first] = 0 /\
    V1.estimateRouteDistance route =
      (routeDistance route + distanceBetween (List.last route first) first) * 1.3 /\
    (List.last route first = first ->
     V1.estimateRouteDistance route = routeDistance route * 1.3) /\
    0 <= V1.estimateRouteDistance route.
Proof.
  intros first second rest route.
  assert (E : V1.estimateRouteDistance route =
              (routeDistance route + distanceBetween (List.last route first) first) * 1.3).
  { unfold V1.estimateRouteDistance, routeDistance, V1.cyclicDistances. subst route.
    cbn [List.length Nat.ltb Nat.leb]. cbv iota.
    set (route := first :: second :: rest).
    change (S (S (List.length rest))) with (S (List.length (second :: rest))).
    assert (H := cyclic_passes
                   (fun i j => distanceBetween (nth i route first) (nth j route first))
                   (List.length (second :: rest))).
    cbv beta in H. rewrite H.
    rewrite sum_app, (segmentDistances_indexed route first).
    change (List.length route - 1)%nat with (List.length (second :: rest)).
    rewrite sum_cons.
    replace (nth (List.length (second :: rest)) route first) with (List.last route first).
    - change (nth 0 route first) with first. unfold sum at 2. simpl. lra.
    - rewrite <- nth_last. reflexivity. }
  split; [reflexivity|]. split; [reflexivity|]. split; [exact E|]. split.
  - intros Hclosed. rewrite E, Hclosed, distanceBetween_refl. lra.
  - rewrite E.
    assert (0 <= routeDistance route).
    { unfold routeDistance. destruct (List.length route <? 2)%nat; [lra|].
      apply sum_nonneg. apply segmentDistances_nonneg. }
    assert (0 <= distanceBetween (List.last route first) first)
      by apply haversineDistance_bounds.
    lra.
Qed.

(** ** The first route finder: the angular spread *)






(** ** The route planner's waypoints *)

Lemma renumberFrom_unordered i l : map unordered (renumberFrom i l) = map unordered l.
Proof.
  revert i. induction l as [|wp l IH]; intros i; simpl; [reflexivity|].
  rewrite IH. reflexivity.
Qed.

Lemma renumberFrom_order i l :
  map wp_order (renumberFrom i l) = map INR (seq i (List.length l)).
Proof.
  revert i. induction l as [|wp l IH]; intros i; simpl; [reflexivity|].
  rewrite IH. reflexivity.
Qed.

Lemma renumberFrom_length i l : List.length (renumberFrom i l) = List.length l.
Proof.
  rewrite <- (length_map unordered), renumberFrom_unordered. apply length_map.
Qed.

Lemma renumberSlotsFrom_Some i l :
  renumberSlotsFrom i (map Some l) = map Some (renumberFrom i l).
Proof.
  revert i. induction l as [|wp l IH]; intros i; simpl; [reflexivity|].
  rewrite IH. reflexivity.
Qed.

Lemma renumberSlotsFrom_length i l :
  List.length (renumberSlotsFrom i l) = List.length l.
Proof.
  revert i. induction l as [|[wp|] l IH]; intros i; simpl; try rewrite IH; reflexivity.
Qed.

Lemma renumberSlotsFrom_None i l : In None l -> In None (renumberSlotsFrom i l).
Proof.
  revert i. induction l as [|[wp|] l IH]; intros i; simpl; [tauto | |auto].
  intros [H|H]; [discriminate | right; apply IH; exact H].
Qed.

(** X16: removing a waypoint by its identifier removes every waypoint
    with that identifier and no other, keeps the rest in their order with
    their locations, and numbers them 0, 1, 2, ... by position. *)
Theorem removeWaypoint_renumbers :
  forall (id : string) (prev : list Waypoint),
    let next := removeWaypoint id prev in
    map unordered next =
      map unordered (filter (fun wp => negb (String.eqb (wp_id wp) id)) prev) /\
    map wp_id next = filter (fun i => negb (String.eqb i id)) (map wp_id prev) /\
    map wp_order next = map INR (seq 0 (List.length next)) /\
    (forall wp, In wp prev -> wp_id wp <> id -> In (unordered wp) (map unordered next)) /\
    (forall wp, In wp next -> wp_id wp <> id) /\
    (List.length next <= List.length prev)%nat.
Proof.
  intros id prev next. unfold next, removeWaypoint, renumber.
  set (filtered := filter (fun wp => negb (String.eqb (wp_id wp) id)) prev).
  assert (Hun := renumberFrom_unordered 0 filtered).
  assert (Hids : map wp_id (renumberFrom 0 filtered) = map wp_id filtered).
  { rewrite <- (map_map unordered fst), Hun, map_map. reflexivity. }
  split; [exact Hun|]. split; [|split; [|split; [|split]]].
  - rewrite Hids. unfold filtered. clear.
    induction prev as [|wp prev IH]; simpl; [reflexivity|].
    destruct (negb (String.eqb (wp_id wp) id)); simpl; rewrite IH; reflexivity.
  - rewrite renumberFrom_order, renumberFrom_length. reflexivity.
  - intros wp Hin Hid. rewrite Hun. apply in_map. apply filter_In.
    split; [exact Hin|]. apply negb_true_iff, String.eqb_neq. exact Hid.
  - intros wp Hin. apply (in_map wp_id) in Hin. rewrite Hids in Hin.
    apply in_map_iff in Hin as [wp' [E Hin]]. apply filter_In in Hin as [_ Hne].
    rewrite <- E. apply String.eqb_neq, negb_true_iff. exact Hne.
  - rewrite renumberFrom_length. unfold filtered. apply filter_length_le.
Qed.

(** *** Moving a waypoint *)

Lemma remove_insert_perm {A : Type} (l : list A) from moved to :
  nth_error l from = Some moved ->
  let others := firstn from l ++ skipn (S from) l in
  Permutation (firstn to others ++ [moved] ++ skipn to others) l /\
  List.length others = (List.length l - 1)%nat /\
  (from < List.length l)%nat.
Proof.
  intros Hnth others.
  assert (Hlt : (from < List.length l)%nat).
  { apply nth_error_Some. rewrite Hnth. discriminate. }
  assert (Hsplit : l = firstn from l ++ moved :: skipn (S from) l).
  { rewrite <- (firstn_skipn from l) at 1. f_equal.
    clear others Hlt. revert from Hnth. induction l as [|x l IH]; intros [|from] Hnth;
      try discriminate.
    - injection Hnth as ->. reflexivity.
    - simpl. apply IH. exact Hnth. }
  split; [|split; [|exact Hlt]].
  - transitivity (moved :: others).
    + rewrite <- (firstn_skipn to others) at 3.
      symmetry. apply Permutation_middle.
    + rewrite Hsplit. unfold others. apply Permutation_middle.
  - unfold others. rewrite length_app, length_firstn, length_skipn. lia.
Qed.

Lemma reorderWaypoints_in_range startIndex endIndex prev moved :
  nth_error prev (spliceStart startIndex (List.length prev)) = Some moved ->
  let from := spliceStart startIndex (List.length prev) in
  let others := firstn from prev ++ skipn (S from) prev in
  let to := spliceStart endIndex (List.length others) in
  exists next,
    reorderWaypoints startIndex endIndex prev = map Some next /\
    map unordered next = map unordered (firstn to others ++ [moved] ++ skipn to others) /\
    map wp_order next = map INR (seq 0 (List.length prev)) /\
    Permutation (map unordered next) (map unordered prev).
Proof.
  intros Hnth from others to.
  destruct (remove_insert_perm prev from moved to Hnth) as [Hperm [Hlen Hlt]].
  fold others in Hperm, Hlen.
  exists (renumber (firstn to others ++ [moved] ++ skipn to others)).
  split; [|split; [|split]].
  - unfold reorderWaypoints. cbv zeta. rewrite Hnth.
    unfold renumberSlots, renumber. rewrite <- renumberSlotsFrom_Some.
    rewrite !map_app. reflexivity.
  - apply renumberFrom_unordered.
  - unfold renumber. rewrite renumberFrom_order.
    rewrite (Permutation_length Hperm). reflexivity.
  - unfold renumber. rewrite renumberFrom_unordered. apply Permutation_map. exact Hperm.
Qed.

(** X17: [reorderWaypoints] takes out the waypoint at the start index and
    puts it back at the end index, both read as [splice] reads them, the
    other waypoints keeping their order; the list it leaves holds the same
    identifiers and locations as before and is numbered 0, 1, 2, ... by
    position.  When the start index is past the last waypoint, or there is
    no waypoint, nothing is taken out, and the list it leaves is one longer
    than before and holds an object that has neither identifier nor
    location. *)
Theorem reorderWaypoints_moves_one :
  forall (startIndex endIndex : Z) (prev : list Waypoint),
    let from := spliceStart startIndex (List.length prev) in
    let others := firstn from prev ++ skipn (S from) prev in
    let to := spliceStart endIndex (List.length others) in
    let result := reorderWaypoints startIndex endIndex prev in
    ((0 <= startIndex)%Z -> from = Nat.min (Z.to_nat startIndex) (List.length prev)) /\
    ((0 <= endIndex)%Z -> to = Nat.min (Z.to_nat endIndex) (List.length others)) /\
    match nth_error prev from with
    | Some moved =>
        exists next,
          result = map Some next /\
          map unordered next =
            map unordered (firstn to others ++ [moved] ++ skipn to others) /\
          map wp_order next = map INR (seq 0 (List.length prev)) /\
          Permutation (map unordered next) (map unordered prev)
    | None =>
        (prev = [] \/ (Z.of_nat (List.length prev) <= startIndex)%Z) /\
        List.length result = S (List.length prev) /\
        In None result
    end.
Proof.
  intros startIndex endIndex prev from others to result.
  split; [|split].
  - intros H. unfold from, spliceStart.
    destruct (Z.ltb_spec startIndex 0); [lia | reflexivity].
  - intros H. unfold to, spliceStart.
    destruct (Z.ltb_spec endIndex 0); [lia | reflexivity].
  - destruct (nth_error prev from) as [moved|] eqn:Hnth.
    + apply (reorderWaypoints_in_range startIndex endIndex prev moved Hnth).
    + apply nth_error_None in Hnth.
      assert (Hothers : others = prev).
      { unfold others. rewrite firstn_all2 by exact Hnth.
        rewrite skipn_all2 by lia. apply app_nil_r. }
      split; [|split].
      * unfold from, spliceStart in Hnth.
        destruct (Z.ltb_spec startIndex 0) as [Hneg|Hpos]; [|right; lia].
        destruct prev as [|wp prev]; [left; reflexivity|].
        simpl List.length in Hnth. lia.
      * unfold result, reorderWaypoints. fold from. fold others. fold to.
        unfold renumberSlots. rewrite renumberSlotsFrom_length.
        rewrite !length_app, !length_map. simpl.
        rewrite length_firstn, length_skipn, Hothers. lia.
      * unfold result, reorderWaypoints. fold from. fold others. fold to.
        apply nth_error_None in Hnth. rewrite Hnth.
        apply renumberSlotsFrom_None. apply in_or_app. right. left. reflexivity.
Qed.

(** *** Dropping a dragged waypoint *)

Lemma findIndexFrom_found {A : Type} (test : A -> bool) l : forall i,
  findIndexFrom i test l = (-1)%Z \/
  exists position x,
    findIndexFrom i test l = (i + Z.of_nat position)%Z /\
    nth_error l position = Some x /\ test x = true.
Proof.
  induction l as [|y l IH]; intros i; simpl; [left; reflexivity|].
  destruct (test y) eqn:Hy.
  - right. exists O, y. split; [lia|]. split; [reflexivity | exact Hy].
  - destruct (IH (i + 1)%Z) as [H|[position [x [H1 [H2 H3]]]]]; [left; exact H|].
    right. exists (S position), x. split; [lia|]. split; assumption.
Qed.

Lemma nth_error_insert {A : Type} (l : list A) (x : A) to :
  (to <= List.length l)%nat ->
  nth_error (firstn to l ++ [x] ++ skipn to l) to = Some x.
Proof.
  intros H. rewrite nth_error_app2; rewrite length_firstn; [|lia].
  replace (to - Nat.min to (List.length l))%nat with O by lia. reflexivity.
Qed.

(** X18: a drop never loses, repeats or damages a waypoint.  Whatever
    the identifiers of the dragged item and of the item dropped on, the
    list left holds the same identifiers and locations as before; it is
    the list as it was, or it is numbered 0, 1, 2, ... by position; and
    when both identifiers are found and differ, the first waypoint with
    the dragged identifier ends at the index where the first waypoint with
    the other identifier was. *)
Theorem handleDragEnd_keeps_waypoints :
  forall (active : string) (over : option string) (waypoints : list Waypoint),
    exists next,
      handleDragEnd active over waypoints = map Some next /\
      Permutation (map unordered next) (map unordered waypoints) /\
      (next = waypoints \/ map wp_order next = map INR (seq 0 (List.length next))) /\
      (forall overId oldIndex newIndex,
          over = Some overId -> active <> overId ->
          findIndex (fun wp => String.eqb (wp_id wp) active) waypoints = oldIndex ->
          findIndex (fun wp => String.eqb (wp_id wp) overId) waypoints = newIndex ->
          oldIndex <> (-1)%Z -> newIndex <> (-1)%Z ->
          exists wp, nth_error next (Z.to_nat newIndex) = Some wp /\ wp_id wp = active).
Proof.
  intros active over waypoints.
  assert (Hsame : exists next,
            map Some waypoints = map Some next /\
            Permutation (map unordered next) (map unordered waypoints) /\
            (next = waypoints \/ map wp_order next = map INR (seq 0 (List.length next)))).
  { exists waypoints. split; [reflexivity|]. split; [reflexivity|]. left. reflexivity. }
  unfold handleDragEnd.
  destruct over as [overId|].
  2:{ destruct Hsame as [next [H1 [H2 H3]]]. exists next. repeat split; auto.
      intros overId oldIndex newIndex E. discriminate E. }
  destruct (String.eqb_spec active overId) as [Heq|Hne]; cbn [negb].
  { destruct Hsame as [next [H1 [H2 H3]]]. exists next. repeat split; auto.
    intros o oldIndex newIndex E Hdiff. injection E as <-. contradiction. }
  unfold findIndex.
  destruct (findIndexFrom_found (fun wp => String.eqb (wp_id wp) active) waypoints 0)
    as [Hold|[from [moved [Hold [Hfrom Hmoved]]]]].
  { rewrite Hold. cbn [Z.eqb negb andb].
    destruct Hsame as [next [H1 [H2 H3]]]. exists next. repeat split; auto.
    intros o oldIndex newIndex _ _ Ho Hn Hoi Hni. exfalso. apply Hoi. symmetry. exact Ho. }
  destruct (findIndexFrom_found (fun wp => String.eqb (wp_id wp) overId) waypoints 0)
    as [Hnew|[to [target [Hnew [Hto Htarget]]]]].
  { rewrite Hnew. rewrite andb_false_r.
    destruct Hsame as [next [H1 [H2 H3]]]. exists next. repeat split; auto.
    intros o oldIndex newIndex E _ Ho Hn Hoi Hni. injection E as <-.
    exfalso. apply Hni. rewrite <- Hn. exact Hnew. }
  rewrite Hold, Hnew. simpl Z.add.
  replace (Z.of_nat from =? -1)%Z with false by (symmetry; apply Z.eqb_neq; lia).
  replace (Z.of_nat to =? -1)%Z with false by (symmetry; apply Z.eqb_neq; lia).
  cbn [negb andb].
  assert (Hstart : spliceStart (Z.of_nat from) (List.length waypoints) = from).
  { unfold spliceStart. destruct (Z.ltb_spec (Z.of_nat from) 0); [lia|].
    rewrite Nat2Z.id. apply Nat.min_l.
    apply Nat.lt_le_incl. apply nth_error_Some. rewrite Hfrom. discriminate. }
  assert (Hnth : nth_error waypoints (spliceStart (Z.of_nat from) (List.length waypoints))
                 = Some moved) by (rewrite Hstart; exact Hfrom).
  destruct (reorderWaypoints_in_range (Z.of_nat from) (Z.of_nat to) waypoints moved Hnth)
    as [next [H1 [H2 [H3 H4]]]].
  exists next. split; [exact H1|]. split; [exact H4|]. split.
  - right. rewrite H3. f_equal. f_equal.
    rewrite <- (length_map unordered next), (Permutation_length H4), length_map.
    reflexivity.
  - intros o oldIndex newIndex E _ _ Hn _ _. injection E as <-.
    rewrite <- Hn, Hnew. simpl Z.add. rewrite Nat2Z.id.
    cbv zeta in H2. rewrite Hstart in H2.
    destruct (remove_insert_perm waypoints from moved 0 Hfrom) as [_ [Hlen Hlt]].
    cbv zeta in Hlen.
    assert (Hend : spliceStart (Z.of_nat to)
                     (List.length (firstn from waypoints ++ skipn (S from) waypoints)) = to).
    { unfold spliceStart. destruct (Z.ltb_spec (Z.of_nat to) 0); [lia|].
      rewrite Nat2Z.id. apply Nat.min_l. rewrite Hlen.
      assert (to < List.length waypoints)%nat
        by (apply nth_error_Some; rewrite Hto; discriminate).
      lia. }
    rewrite Hend in H2.
    assert (Hat : nth_error (map unordered next) to = Some (unordered moved)).
    { rewrite H2. rewrite nth_error_map, nth_error_insert; [reflexivity|].
      rewrite <- Hend at 1. unfold spliceStart.
      destruct (Z.ltb_spec (Z.of_nat to) 0); [lia|]. apply Nat.le_min_r. }
    rewrite nth_error_map in Hat.
    destruct (nth_error next to) as [wp|]; [|discriminate].
    exists wp. split; [reflexivity|]. injection Hat as Hid _.
    rewrite Hid. apply String.eqb_eq. exact Hmoved.
Qed.

(** *** Loading a generated route *)

Lemma digits_have_no_dash (d : Decimal.uint) (p q : string) :
  NilEmpty.string_of_uint d <> (p ++ "-" ++ q)%string.
Proof.
  revert p. induction d; intros p; simpl;
    destruct p as [|c p]; simpl; try discriminate;
    intros E; injection E as _ E; apply (IHd p); exact E.
Qed.

Lemma index_has_no_dash (n : nat) (p q : string) :
  JS.string_of_Z (Z.of_nat n) <> (p ++ "-" ++ q)%string.
Proof.
  unfold JS.string_of_Z.
  destruct (Z.of_nat n) as [|z|z] eqn:E; [| |lia]; simpl.
  - destruct p as [|c [|c' p]]; simpl; discriminate.
  - assert (Hnil := DecimalPos.Unsigned.to_uint_nonnil z).
    destruct (Pos.to_uint z) as [|d|d|d|d|d|d|d|d|d|d]; [contradiction|..];
      match goal with
      | |- NilZero.string_of_uint ?u <> _ => exact (digits_have_no_dash u p q)
      end.
Qed.

Lemma string_of_Z_inj (a b : Z) : JS.string_of_Z a = JS.string_of_Z b -> a = b.
Proof.
  unfold JS.string_of_Z. intros E. apply DecimalZ.to_int_inj.
  assert (Hnz : forall z, Z.to_int z <> Decimal.Pos Decimal.Nil /\
                          Z.to_int z <> Decimal.Neg Decimal.Nil).
  { intros [|z|z]; simpl; split; try discriminate; intros H; injection H as H;
      apply (DecimalPos.Unsigned.to_uint_nonnil z H). }
  assert (Ha := NilZero.isi (Z.to_int a) (proj1 (Hnz a)) (proj2 (Hnz a))).
  assert (Hb := NilZero.isi (Z.to_int b) (proj1 (Hnz b)) (proj2 (Hnz b))).
  rewrite E in Ha. rewrite Ha in Hb. injection Hb as Hb. exact Hb.
Qed.

Lemma after_last_dash (u v a b : string) :
  (u ++ "-" ++ a)%string = (v ++ "-" ++ b)%string ->
  (forall p q, a <> (p ++ "-" ++ q)%string) ->
  (forall p q, b <> (p ++ "-" ++ q)%string) ->
  a = b.
Proof.
  intros E Ha Hb. revert v E. induction u as [|c u IH]; intros [|c' v] E; simpl in E.
  - injection E as E. exact E.
  - injection E as _ E. exfalso. apply (Ha v b). exact E.
  - injection E as _ E. exfalso. apply (Hb u a). symmetry. exact E.
  - injection E as _ E. apply (IH v). exact E.
Qed.

Lemma waypointsToAdd_ids now stops : forall index,
  map wp_id (waypointsToAdd now index stops) =
  map (fun i => ("waypoint-" ++ JS.string_of_Z (now i) ++ "-" ++
                 JS.string_of_Z (Z.of_nat i))%string)
      (seq index (List.length stops)).
Proof.
  induction stops as [|tb stops IH]; intros index; simpl; [reflexivity|].
  rewrite IH. reflexivity.
Qed.

Lemma waypointsToAdd_fields now stops : forall index,
  map wp_location (waypointsToAdd now index stops) = map locationOf stops /\
  map wp_order (waypointsToAdd now index stops) = map INR (seq index (List.length stops)).
Proof.
  induction stops as [|tb stops IH]; intros index; simpl; [split; reflexivity|].
  destruct (IH (S index)) as [-> ->]. split; reflexivity.
Qed.

Lemma waypoint_ids_distinct now l :
  NoDup l ->
  NoDup (map (fun i => ("waypoint-" ++ JS.string_of_Z (now i) ++ "-" ++
                        JS.string_of_Z (Z.of_nat i))%string) l).
Proof.
  induction l as [|i l IH]; intros Hnd; simpl; [constructor|].
  apply NoDup_cons_iff in Hnd as [Hi Hnd]. constructor; [|apply IH; exact Hnd].
  intros Hin. apply in_map_iff in Hin as [j [E Hj]].
  simpl in E. injection E as E.
  apply (after_last_dash (JS.string_of_Z (now j)) (JS.string_of_Z (now i))) in E.
  - apply string_of_Z_inj in E. apply Nat2Z.inj in E. subst j. contradiction.
  - apply index_has_no_dash.
  - apply index_has_no_dash.
Qed.

(** X19: loading an empty list of stops changes nothing.  Loading a list
    of stops sets both the start point and the end point to the location
    of the first stop and replaces the waypoints by one waypoint for each
    further stop, in order, with the location of the stop, the orders 0,
    1, 2, ... and identifiers that differ from each other whatever the
    clock reads. *)
Theorem loadAutoGeneratedRoute_loads :
  forall (now : nat -> Z) (tacoBells : list TacoBellLocation) (state : PlannerState),
    let loaded := loadAutoGeneratedRoute now tacoBells state in
    match tacoBells with
    | [] => loaded = state
    | first :: rest =>
        startPoint loaded = Some (locationOf first) /\
        endPoint loaded = Some (locationOf first) /\
        map wp_location (waypoints loaded) = map locationOf rest /\
        map wp_order (waypoints loaded) = map INR (seq 0 (List.length rest)) /\
        NoDup (map wp_id (waypoints loaded))
    end.
Proof.
  intros now tacoBells state loaded. subst loaded.
  destruct tacoBells as [|first rest]; [reflexivity|]. simpl.
  destruct (waypointsToAdd_fields now rest 0) as [Hloc Hord].
  split; [reflexivity|]. split; [reflexivity|]. split; [exact Hloc|].
  split; [exact Hord|].
  rewrite waypointsToAdd_ids. apply waypoint_ids_distinct. apply seq_NoDup.
Qed.

(** X20: when the route of a successful search that is not empty is
    loaded into the planner, the start point and the end point are both the
    location of the start stop, so the planned tour is a loop, and the
    waypoints are the locations of the other stops of the route in their
    order, at most [maxTacoBells - 1] of them, numbered from 0. *)
Theorem found_route_loads_as_loop :
  forall (W : World) (start : TacoBellLocation) (config : RouteFinderConfig)
         (now : nat -> Z) (state : PlannerState) (l : list TacoBellLocation),
    route (findOptimalRoute W start config) = Some l ->
    l <> [] ->
    let loaded := loadAutoGeneratedRoute now l state in
    startPoint loaded = Some (locationOf start) /\
    endPoint loaded = Some (locationOf start) /\
    map wp_location (waypoints loaded) = map locationOf (tl l) /\
    map wp_order (waypoints loaded) = map INR (seq 0 (List.length (tl l))) /\
    NoDup (map placeId (tl l)) /\
    (Z.of_nat (List.length (waypoints loaded)) <= Z.max 0 (maxTacoBells config - 1))%Z.
Proof.
  intros W start config now state l Hroute Hne loaded.
  destruct (result_route_loop W start config l Hroute)
    as [found [nStops [visited [_ [Hn [Hl [Hnd [Hlen _]]]]]]]].
  rewrite dropLast_loopOf in Hl.
  destruct visited as [|x visited]; [contradiction|]. subst l loaded.
  unfold loadAutoGeneratedRoute. cbn [startPoint endPoint waypoints tl].
  destruct (waypointsToAdd_fields now (x :: visited) 0) as [Hloc Hord].
  split; [reflexivity|]. split; [reflexivity|]. split; [exact Hloc|].
  split; [exact Hord|]. split.
  - apply NoDup_cons_iff in Hnd as [_ Hnd]. exact Hnd.
  - rewrite <- (length_map wp_location), Hloc, length_map. lia.
Qed.

Lemma found_route_loads_as_loop_witness :
  startPoint (loadAutoGeneratedRoute (fun _ => 0%Z) [Example.s; Example.near; Example.mid]
                (mkPlanner None None [])) = Some (locationOf Example.s).
Proof.
  apply (found_route_loads_as_loop (Example.world Example.threePlaces) Example.s
           (Example.config 3 4 None) (fun _ => 0%Z) (mkPlanner None None [])
           [Example.s; Example.near; Example.mid]).
  - unfold findOptimalRoute.
    rewrite three_places_run;
      [reflexivity | unfold effectiveMaxApiCalls, Example.config; simpl; lia].
  - discriminate.
Defined.

(** *** The segments of a calculated route *)

Lemma segmentsFrom_distance start finish sorted legs : forall index,
  map seg_distance (segmentsFrom start finish sorted index legs) = legs.
Proof.
  induction legs as [|d legs IH]; intros index; simpl; [reflexivity|].
  rewrite IH. f_equal. unfold segmentOf.
  destruct (List.length sorted =? 0)%nat; [reflexivity|].
  destruct (index =? 0)%nat; [reflexivity|].
  destruct (index <? List.length sorted)%nat; reflexivity.
Qed.

(** The stop a leg starts from and the stop it ends at, in a tour that
    visits [sorted] between [start] and [finish]. *)
Lemma segmentOf_ends start finish sorted index distance :
  (index <= List.length sorted)%nat ->
  let tour := start :: map wp_location sorted ++ [finish] in
  seg_from (segmentOf start finish sorted index distance) =
    loc_address (nth index tour start) /\
  seg_fromName (segmentOf start finish sorted index distance) =
    loc_name (nth index tour start) /\
  seg_to (segmentOf start finish sorted index distance) =
    loc_address (nth (S index) tour start) /\
  seg_toName (segmentOf start finish sorted index distance) =
    loc_name (nth (S index) tour start).
Proof.
  intros Hle tour. unfold segmentOf, tour.
  set (locations := map wp_location sorted).
  assert (Hlen : List.length locations = List.length sorted) by apply length_map.
  destruct (Nat.eqb_spec (List.length sorted) 0) as [Hnone|Hsome].
  { assert (index = O) by lia. subst index.
    destruct sorted; [|discriminate]. simpl. auto. }
  destruct (Nat.eqb_spec index 0) as [Hfirst|Hlater].
  { subst index. cbn [nth]. rewrite app_nth1 by lia. auto. }
  destruct (Nat.ltb_spec index (List.length sorted)) as [Hmiddle|Hlast].
  - destruct index as [|i]; [contradiction|]. cbn [nth].
    rewrite !app_nth1 by lia. replace (S i - 1)%nat with i by lia. auto.
  - assert (index = List.length sorted) by lia. subst index.
    destruct (List.length sorted) as [|n] eqn:Hn; [contradiction|]. cbn [nth].
    rewrite app_nth1 by lia. rewrite app_nth2 by lia.
    replace (S n - 1)%nat with n by lia.
    replace (S n - List.length locations)%nat with O by lia. auto.
Qed.

(** X21: when the directions service answers with one leg for each step
    of the tour, that is, one leg more than there are waypoints, the route
    data holds one segment for each leg with the distance of the leg, the
    total distance is the sum of the legs, and the segments follow the
    tour that starts at the start point, visits the waypoints in ascending
    order of [order] and ends at the end point: each segment runs from one
    stop of the tour to the next, so every segment starts where the one
    before it ends. *)
Theorem calculateRouteData_follows_tour :
  forall (request : Location -> Location -> list Location -> result DirectionsResponse)
         (start finish : Location) (waypoints : list Waypoint)
         (legs : list R) (others : list (list R)),
    request start finish (map wp_location (byOrder waypoints)) =
      Ok (mkDirections (Some (legs :: others))) ->
    List.length legs = S (List.length waypoints) ->
    let tour := start :: map wp_location (byOrder waypoints) ++ [finish] in
    exists data,
      calculateRouteData request start finish waypoints = Ok data /\
      rd_totalDistance data = sum legs /\
      map seg_distance (rd_segments data) = legs /\
      map seg_from (rd_segments data) = map loc_address (removelast tour) /\
      map seg_to (rd_segments data) = map loc_address (tl tour) /\
      map seg_fromName (rd_segments data) = map loc_name (removelast tour) /\
      map seg_toName (rd_segments data) = map loc_name (tl tour) /\
      Permutation (byOrder waypoints) waypoints /\
      StronglySorted (fun a b => wp_order a <= wp_order b) (byOrder waypoints).
Proof.
  intros request start finish waypoints legs others Hanswer Hlegs tour.
  unfold calculateRouteData. rewrite Hanswer. cbn [routes].
  eexists. split; [reflexivity|]. cbn [rd_totalDistance rd_segments].
  set (sorted := byOrder waypoints) in *.
  assert (Hsorted : List.length sorted = List.length waypoints).
  { unfold sorted, byOrder. apply Permutation_length, sortBy_perm. }
  assert (Htour : List.length tour = S (List.length legs)).
  { unfold tour. simpl. rewrite length_app, length_map. simpl. lia. }
  assert (Hsegments : forall index rest,
            (index + List.length rest = List.length legs)%nat ->
            let segs := segmentsFrom start finish sorted index rest in
            map seg_from segs = map loc_address (firstn (List.length rest) (skipn index tour)) /\
            map seg_to segs = map loc_address (firstn (List.length rest) (skipn (S index) tour)) /\
            map seg_fromName segs = map loc_name (firstn (List.length rest) (skipn index tour)) /\
            map seg_toName segs = map loc_name (firstn (List.length rest) (skipn (S index) tour))).
  { intros index rest. revert index. induction rest as [|d rest IH]; intros index Hindex.
    - simpl. auto.
    - cbn [segmentsFrom map List.length].
      destruct (IH (S index)) as [H1 [H2 [H3 H4]]]; [simpl in Hindex; lia|].
      destruct (segmentOf_ends start finish sorted index d) as [E1 [E2 [E3 E4]]];
        [simpl in Hindex; lia|].
      fold tour in E1, E2, E3, E4.
      assert (Hskip : forall i, (i < List.length tour)%nat ->
                skipn i tour = nth i tour start :: skipn (S i) tour).
      { intros i Hi. clear - Hi. revert i Hi. generalize tour. intros t.
        induction t as [|x t IHt]; intros [|i] Hi; simpl in *; try lia; [reflexivity|].
        apply IHt. lia. }
      rewrite (Hskip index) by (simpl in Hindex; lia).
      rewrite (Hskip (S index)) by (simpl in Hindex; lia).
      cbn [firstn map]. rewrite H1, H2, H3, H4, E1, E2, E3, E4.
      rewrite (Hskip (S index)) by (simpl in Hindex; lia).
      cbn [firstn map].
      repeat split; reflexivity. }
  destruct (Hsegments O legs eq_refl) as [H1 [H2 [H3 H4]]]. cbv zeta in H1, H2, H3, H4.
  assert (Hfront : firstn (List.length legs) (skipn 0 tour) = removelast tour).
  { cbn [skipn]. rewrite removelast_firstn_len. f_equal. lia. }
  assert (Hback : firstn (List.length legs) (skipn 1 tour) = tl tour).
  { cbn [skipn]. unfold tour at 1. cbn [tl]. apply firstn_all2.
    unfold tour. simpl. rewrite length_app, length_map. simpl. lia. }
  rewrite Hfront in H1, H3. rewrite Hback in H2, H4.
  split; [reflexivity|]. split; [apply segmentsFrom_distance|].
  split; [exact H1|]. split; [exact H2|]. split; [exact H3|]. split; [exact H4|].
  split; [apply sortBy_perm|].
  unfold sorted, byOrder.
  assert (Hs := sortBy_sorted (fun a b => JSMath.leb (wp_order a) (wp_order b))).
  eapply StronglySorted_ind with
    (P := fun l => StronglySorted (fun a b => wp_order a <= wp_order b) l).
  - constructor.
  - intros a l _ IH Ha. constructor; [exact IH|].
    apply Forall_forall. intros z Hz. apply leb_true.
    apply (proj1 (Forall_forall _ _) Ha z Hz).
  - apply Hs.
    + intros a b. rewrite !leb_true. lra.
    + intros a b c. rewrite !leb_true. lra.
Qed.

Lemma calculateRouteData_follows_tour_witness :
  exists data,
    calculateRouteData (fun _ _ _ => Ok (mkDirections (Some [[100; 200]])))
      (locationOf Example.s) (locationOf Example.s)
      [mkWaypoint "w" (locationOf Example.mid) 0] = Ok data /\
    map seg_distance (rd_segments data) = [100; 200].
Proof.
  destruct (calculateRouteData_follows_tour
              (fun _ _ _ => Ok (mkDirections (Some [[100; 200]])))
              (locationOf Example.s) (locationOf Example.s)
              [mkWaypoint "w" (locationOf Example.mid) 0] [100; 200] []
              eq_refl eq_refl) as [data [Hdata [_ [Hlegs _]]]].
  exists data. split; [exact Hdata | exact Hlegs].
Defined.

(** ** Sharing a route in the URL *)

Lemma replaceAll_absent c d s : occurs c s = false -> replaceAll c d s = s.
Proof.
  induction s as [|x s IH]; simpl; [reflexivity|].
  intros H. apply orb_false_iff in H as [Hx Hs]. rewrite Hx, IH by exact Hs. reflexivity.
Qed.

Lemma replaceAll_back c d s :
  occurs d s = false -> replaceAll d c (replaceAll c d s) = s.
Proof.
  induction s as [|x s IH]; simpl; [reflexivity|].
  intros H. apply orb_false_iff in H as [Hx Hs]. rewrite IH by exact Hs.
  destruct (Ascii.eqb_spec x c) as [->|Hne].
  - rewrite Ascii.eqb_refl. reflexivity.
  - rewrite Hx. reflexivity.
Qed.

Lemma replaceAll_app c d s t :
  replaceAll c d (s ++ t) = (replaceAll c d s ++ replaceAll c d t)%string.
Proof. induction s as [|x s IH]; simpl; [reflexivity|]. rewrite IH. reflexivity. Qed.

Lemma removeAll_app c s t : removeAll c (s ++ t) = (removeAll c s ++ removeAll c t)%string.
Proof.
  induction s as [|x s IH]; simpl; [reflexivity|].
  rewrite IH. destruct (Ascii.eqb x c); reflexivity.
Qed.

Lemma removeAll_absent c s : occurs c s = false -> removeAll c s = s.
Proof.
  induction s as [|x s IH]; simpl; [reflexivity|].
  intros H. apply orb_false_iff in H as [Hx Hs]. rewrite Hx, IH by exact Hs. reflexivity.
Qed.

Lemma occurs_replaced c d s : c <> d -> occurs c (replaceAll c d s) = false.
Proof.
  intros Hne. induction s as [|x s IH]; simpl; [reflexivity|].
  rewrite IH, orb_false_r. destruct (Ascii.eqb_spec x c) as [->|Hx].
  - apply Ascii.eqb_neq. intros E. apply Hne. symmetry. exact E.
  - apply Ascii.eqb_neq. exact Hx.
Qed.

Lemma occurs_replaceAll_other c d e s :
  e <> d -> occurs e s = false -> occurs e (replaceAll c d s) = false.
Proof.
  intros Hne. induction s as [|x s IH]; simpl; [reflexivity|].
  intros H. apply orb_false_iff in H as [Hx Hs]. rewrite IH by exact Hs.
  rewrite orb_false_r. destruct (Ascii.eqb x c); [|exact Hx].
  apply Ascii.eqb_neq. intros E. apply Hne. symmetry. exact E.
Qed.

Lemma occurs_removed c s : occurs c (removeAll c s) = false.
Proof.
  induction s as [|x s IH]; simpl; [reflexivity|].
  destruct (Ascii.eqb x c) eqn:E; [exact IH|]. simpl. rewrite E, IH. reflexivity.
Qed.

Lemma occurs_after_remove c e s : occurs e s = false -> occurs e (removeAll c s) = false.
Proof.
  induction s as [|x s IH]; simpl; [reflexivity|].
  intros H. apply orb_false_iff in H as [Hx Hs].
  destruct (Ascii.eqb x c); [apply IH; exact Hs|]. simpl. rewrite Hx, IH by exact Hs.
  reflexivity.
Qed.

Lemma removeAll_padding n : removeAll "=" (padding n) = EmptyString.
Proof. induction n as [|n IH]; simpl; [reflexivity | exact IH]. Qed.

Lemma replaceAll_padding c d n : c <> "="%char -> replaceAll c d (padding n) = padding n.
Proof.
  intros Hne. induction n as [|n IH]; cbn [padding replaceAll]; [reflexivity|]. rewrite IH.
  replace (Ascii.eqb "=" c) with false; [reflexivity|].
  symmetry. apply Ascii.eqb_neq. intros E. apply Hne. symmetry. exact E.
Qed.

Lemma length_append s t : String.length (s ++ t) = (String.length s + String.length t)%nat.
Proof. induction s as [|x s IH]; simpl; [reflexivity|]. rewrite IH. reflexivity. Qed.

Lemma length_padding n : String.length (padding n) = n.
Proof. induction n as [|n IH]; simpl; [reflexivity|]. rewrite IH. reflexivity. Qed.

Lemma append_assoc (s t u : string) : ((s ++ t) ++ u = s ++ (t ++ u))%string.
Proof. induction s as [|x s IH]; simpl; [reflexivity|]. rewrite IH. reflexivity. Qed.

Lemma append_empty (s : string) : (s ++ "")%string = s.
Proof. induction s as [|x s IH]; simpl; [reflexivity|]. rewrite IH. reflexivity. Qed.

Lemma addPadding_completes body k :
  (k <= 2)%nat -> ((String.length body + k) mod 4 = 0)%nat ->
  addPadding 3 body = (body ++ padding k)%string.
Proof.
  intros Hk Hmod.
  assert (Hstep : forall s, (String.length (s ++ "=") = S (String.length s))%nat).
  { intros s. rewrite length_append. simpl. lia. }
  assert (Hlt := Nat.mod_upper_bound (String.length body) 4 ltac:(lia)).
  assert (Hdiv := Nat.div_mod_eq (String.length body) 4).
  assert (Hmod' := Nat.div_mod_eq (String.length body + k) 4).
  rewrite Hmod in Hmod'.
  set (n := String.length body) in *.
  cbn [addPadding]. rewrite !Hstep. fold n.
  assert (H1 : (S n mod 4 = (n mod 4 + 1) mod 4)%nat).
  { replace (S n) with (n + 1)%nat by lia. rewrite Nat.Div0.add_mod. reflexivity. }
  assert (H2 : (S (S n) mod 4 = (n mod 4 + 2) mod 4)%nat).
  { replace (S (S n)) with (n + 2)%nat by lia. rewrite Nat.Div0.add_mod. reflexivity. }
  rewrite H1, H2.
  destruct k as [|[|[|k]]]; [| | |lia]; cbn [padding].
  - replace (n mod 4)%nat with 0%nat by lia. rewrite append_empty. reflexivity.
  - replace (n mod 4)%nat with 3%nat by lia. reflexivity.
  - replace (n mod 4)%nat with 2%nat by lia. rewrite append_assoc. reflexivity.
Qed.

Lemma addPadding_multiple_of_four s : (String.length (addPadding 3 s) mod 4 = 0)%nat.
Proof.
  assert (Hstep : forall t, (String.length (t ++ "=") = S (String.length t))%nat).
  { intros t. rewrite length_append. simpl. lia. }
  assert (Hlt := Nat.mod_upper_bound (String.length s) 4 ltac:(lia)).
  set (n := String.length s) in *.
  assert (H1 : (S n mod 4 = (n mod 4 + 1) mod 4)%nat).
  { replace (S n) with (n + 1)%nat by lia. rewrite Nat.Div0.add_mod. reflexivity. }
  assert (H2 : (S (S n) mod 4 = (n mod 4 + 2) mod 4)%nat).
  { replace (S (S n)) with (n + 2)%nat by lia. rewrite Nat.Div0.add_mod. reflexivity. }
  assert (H3 : (S (S (S n)) mod 4 = (n mod 4 + 3) mod 4)%nat).
  { replace (S (S (S n))) with (n + 3)%nat by lia. rewrite Nat.Div0.add_mod. reflexivity. }
  cbn [addPadding]. rewrite !Hstep. fold n. rewrite H1, H2.
  destruct (n mod 4)%nat as [|[|[|[|r]]]] eqn:Hr; [| | | |lia];
    repeat match goal with
           | |- context [((?a + ?b) mod 4)%nat] =>
               let v := eval compute in ((a + b) mod 4)%nat in
               change ((a + b) mod 4)%nat with v
           end;
    cbn [Nat.eqb addPadding]; rewrite ?Hstep; fold n; rewrite ?H1, ?H2, ?H3, ?Hr;
    reflexivity.
Qed.

Lemma restore_characters body :
  occurs "-" body = false -> occurs "_" body = false ->
  replaceAll "_" "/" (replaceAll "-" "+" (replaceAll "/" "_" (replaceAll "+" "-" body)))
  = body.
Proof.
  induction body as [|x body IH]; cbn [occurs replaceAll]; [reflexivity|].
  intros Hdash Hunder.
  apply orb_false_iff in Hdash as [Hx1 Hdash]. apply orb_false_iff in Hunder as [Hx2 Hunder].
  rewrite IH by assumption. f_equal.
  destruct (Ascii.eqb_spec x "+") as [->|Hplus]; [reflexivity|].
  destruct (Ascii.eqb_spec x "/") as [->|Hslash]; [reflexivity|].
  rewrite Hx1, Hx2. reflexivity.
Qed.

Lemma toUrlSafe_characters base64 :
  occurs "+" (toUrlSafe base64) = false /\
  occurs "/" (toUrlSafe base64) = false /\
  occurs "=" (toUrlSafe base64) = false.
Proof.
  unfold toUrlSafe. split; [|split].
  - apply occurs_after_remove. apply occurs_replaceAll_other; [discriminate|].
    apply occurs_replaced. discriminate.
  - apply occurs_after_remove. apply occurs_replaced. discriminate.
  - apply occurs_removed.
Qed.

(** X23: the text [encodeRoute] returns holds none of the characters
    "+", "/" and "="; the text [decodeRoute] hands to [atob] has a length
    that is a multiple of four, the loop that pads it stopping within
    three passes; and on a Base64 text, made of a body without "=", "-" and
    "_" followed by at most two "=" to a length that is a multiple of four,
    the rewriting of [decodeRoute] gives back the text that [encodeRoute]
    rewrote. *)
Theorem url_safe_text_round_trip :
  forall (body : string) (pad : nat),
    occurs "=" body = false ->
    occurs "-" body = false ->
    occurs "_" body = false ->
    (pad <= 2)%nat ->
    ((String.length body + pad) mod 4 = 0)%nat ->
    let base64 := (body ++ padding pad)%string in
    fromUrlSafe (toUrlSafe base64) = base64 /\
    occurs "+" (toUrlSafe base64) = false /\
    occurs "/" (toUrlSafe base64) = false /\
    occurs "=" (toUrlSafe base64) = false /\
    (forall encoded, (String.length (fromUrlSafe encoded) mod 4 = 0)%nat).
Proof.
  intros body pad Heq Hdash Hunder Hpad Hlen base64.
  destruct (toUrlSafe_characters base64) as [H1 [H2 H3]].
  split; [|split; [exact H1|split; [exact H2|split; [exact H3|]]]].
  - set (rewritten := replaceAll "/" "_" (replaceAll "+" "-" body)).
    assert (Hsafe : toUrlSafe base64 = rewritten).
    { unfold toUrlSafe, base64. rewrite !replaceAll_app, removeAll_app.
      rewrite !replaceAll_padding by discriminate.
      rewrite removeAll_padding, append_empty.
      apply removeAll_absent. unfold rewritten.
      apply occurs_replaceAll_other; [discriminate|].
      apply occurs_replaceAll_other; [discriminate | exact Heq]. }
    rewrite Hsafe. unfold fromUrlSafe, rewritten. cbv zeta.
    rewrite restore_characters by assumption.
    apply addPadding_completes; assumption.
  - intros encoded. apply addPadding_multiple_of_four.
Qed.

Lemma url_safe_text_round_trip_witness :
  fromUrlSafe (toUrlSafe "a+/b+w==") = "a+/b+w=="%string.
Proof.
  apply (url_safe_text_round_trip "a+/b+w" 2);
    [reflexivity | reflexivity | reflexivity | lia | reflexivity].
Defined.

(** ** The signature of a route *)

Lemma ascii_compare_refl x : Ascii.compare x x = Eq.
Proof. unfold Ascii.compare. apply N.compare_refl. Qed.

Lemma string_leb_trans (a b c : string) :
  String.leb a b = true -> String.leb b c = true -> String.leb a c = true.
Proof.
  unfold String.leb. revert b c.
  induction a as [|x a IH]; intros [|y b] [|z c]; cbn [String.compare];
    try reflexivity; try discriminate.
  unfold Ascii.compare.
  destruct (N.compare_spec (N_of_ascii x) (N_of_ascii y)) as [Hxy|Hxy|Hxy];
    destruct (N.compare_spec (N_of_ascii y) (N_of_ascii z)) as [Hyz|Hyz|Hyz];
    try discriminate; intros Hab Hbc.
  - rewrite Hxy, Hyz, N.compare_refl. apply (IH b c Hab Hbc).
  - rewrite Hxy. rewrite (proj2 (N.compare_lt_iff _ _) Hyz). reflexivity.
  - rewrite <- Hyz. rewrite (proj2 (N.compare_lt_iff _ _) Hxy). reflexivity.
  - rewrite (proj2 (N.compare_lt_iff _ _) (N.lt_trans _ _ _ Hxy Hyz)). reflexivity.
Qed.

(** Two sorted lists with the same elements are the same list. *)
Lemma sorted_permutation_eq (l1 l2 : list string) :
  StronglySorted (fun a b => String.leb a b = true) l1 ->
  StronglySorted (fun a b => String.leb a b = true) l2 ->
  Permutation l1 l2 -> l1 = l2.
Proof.
  revert l2. induction l1 as [|a l1 IH]; intros l2 H1 H2 Hperm.
  - apply Permutation_nil in Hperm. symmetry. exact Hperm.
  - destruct l2 as [|b l2]; [apply Permutation_sym, Permutation_nil in Hperm; discriminate|].
    inversion H1 as [|a' l1' Hs1 Ha]; subst. inversion H2 as [|b' l2' Hs2 Hb]; subst.
    assert (Hab : a = b).
    { assert (Hin1 : In a (b :: l2)) by (apply (Permutation_in _ Hperm); left; reflexivity).
      assert (Hin2 : In b (a :: l1))
        by (apply (Permutation_in _ (Permutation_sym Hperm)); left; reflexivity).
      destruct Hin1 as [E|Hin1]; [symmetry; exact E|].
      destruct Hin2 as [E|Hin2]; [exact E|].
      apply String.leb_antisym.
      - apply (proj1 (Forall_forall _ _) Ha b Hin2).
      - apply (proj1 (Forall_forall _ _) Hb a Hin1). }
    subst b. f_equal. apply IH; [exact Hs1 | exact Hs2|].
    apply (Permutation_cons_inv Hperm).
Qed.

Lemma routeSignature_permutation (r1 r2 : list TacoBellLocation) :
  Permutation (map placeId (JS.interior r1)) (map placeId (JS.interior r2)) ->
  routeSignature r1 = routeSignature r2.
Proof.
  intros Hperm. unfold routeSignature. f_equal.
  apply sorted_permutation_eq.
  - apply sortBy_sorted; [apply String.leb_total | apply string_leb_trans].
  - apply sortBy_sorted; [apply String.leb_total | apply string_leb_trans].
  - rewrite !sortBy_perm. exact Hperm.
Qed.

(** X24: the signature of a route does not depend on the order of the
    stops between its first and its last stop, and the list a call of the
    generator returns never holds two candidates that visit the same stops
    between their ends: any two candidates at different places of the list
    have different signatures, and the identifiers of their interior stops
    differ even up to order. *)
Theorem generator_keeps_one_order_of_stops :
  forall (W : World) (start : TacoBellLocation) (targetKm : R) (nStops : Z)
         (allTacoBells : list TacoBellLocation) (iterations k : nat)
         (found : list RouteCandidate) (k' : nat)
         (before middle after : list RouteCandidate) (c1 c2 : RouteCandidate),
    generateCandidateRoutes W start targetKm nStops allTacoBells iterations k
      = (Ok found, k') ->
    found = before ++ c1 :: middle ++ c2 :: after ->
    (forall r1 r2,
        Permutation (map placeId (JS.interior r1)) (map placeId (JS.interior r2)) ->
        routeSignature r1 = routeSignature r2) /\
    routeSignature (stops c1) <> routeSignature (stops c2) /\
    ~ Permutation (map placeId (JS.interior (stops c1)))
                  (map placeId (JS.interior (stops c2))).
Proof.
  intros W start targetKm nStops allTacoBells iterations k found k'
         before middle after c1 c2 Hrun Hfound.
  destruct (generateCandidateRoutes_list W start targetKm nStops allTacoBells iterations k
              found k' Hrun) as [_ [Hnd _]].
  assert (Hdiff : routeSignature (stops c1) <> routeSignature (stops c2)).
  { subst found. rewrite map_app in Hnd. apply NoDup_app_remove_l in Hnd.
    cbn [map] in Hnd. apply NoDup_cons_iff in Hnd as [Hout _].
    intros E. apply Hout. rewrite E, map_app. apply in_or_app. right. left. reflexivity. }
  split; [exact routeSignature_permutation|].
  split; [exact Hdiff|].
  intros Hperm. apply Hdiff. apply routeSignature_permutation. exact Hperm.
Qed.

Lemma generator_keeps_one_order_of_stops_witness :
  routeSignature [Example.s; Example.mid; Example.a; Example.s] =
    routeSignature [Example.s; Example.a; Example.mid; Example.s] /\
  ~ Permutation (map placeId (JS.interior (stops Example.outAndBack)))
                (map placeId (JS.interior (stops Example.shortOutAndBack))).
Proof.
  destruct (generate_two_loops 198) as [k' E].
  destruct (generator_keeps_one_order_of_stops Example.variedWorld Example.s 50 2
              [Example.mid; Example.a; Example.s] 200 0
              [Example.outAndBack; Example.shortOutAndBack] k'
              [] [] [] Example.outAndBack Example.shortOutAndBack E eq_refl)
    as [Hsame [_ Hdifferent]].
  split; [|exact Hdifferent].
  apply Hsame. simpl. apply perm_swap.
Defined.

(** ** The order of the tour *)

Lemma byOrder_sorted (l : list Waypoint) :
  StronglySorted Rle (map wp_order l) -> byOrder l = l.
Proof.
  unfold byOrder. induction l as [|x l IH]; intros Hs; [reflexivity|].
  cbn [map] in Hs. inversion Hs as [|o os Hrest Hx]; subst.
  unfold JS.sortBy. cbn [fold_right].
  change (fold_right (JS.insertBy (fun a b => JSMath.leb (wp_order a) (wp_order b))) [] l)
    with (JS.sortBy (fun a b => JSMath.leb (wp_order a) (wp_order b)) l).
  rewrite (IH Hrest). destruct l as [|y l]; [reflexivity|].
  cbn [JS.insertBy].
  replace (JSMath.leb (wp_order x) (wp_order y)) with true; [reflexivity|].
  symmetry. apply leb_true. cbn [map] in Hx. inversion Hx; assumption.
Qed.

Lemma sorted_numbers_app (n : nat) : forall (s : nat) (tail : list R),
  StronglySorted Rle tail ->
  Forall (fun x => INR (s + n) <= x) tail ->
  StronglySorted Rle (map INR (seq s n) ++ tail).
Proof.
  induction n as [|n IH]; intros s tail Hs Hall; [exact Hs|].
  cbn [seq map app]. constructor.
  - apply IH; [exact Hs|]. replace (S s + n)%nat with (s + S n)%nat by lia. exact Hall.
  - apply Forall_app. split.
    + apply Forall_forall. intros x Hx. apply in_map_iff in Hx as [k [<- Hk]].
      apply in_seq in Hk. apply le_INR. lia.
    + apply (Forall_impl _ (P := fun x => INR (s + S n) <= x)); [|exact Hall].
      intros x Hx. apply Rle_trans with (INR (s + S n)); [apply le_INR; lia | exact Hx].
Qed.

(** X25: on a list of waypoints numbered 0, 1, 2, ... by position, the
    sort by [order] that [calculateRouteData] makes changes nothing, so the
    tour visits the waypoints in the order of the list.  Adding a location
    keeps the numbering and puts the new waypoint last in the tour.  Two
    locations added from the same render get the same [order], the second
    being one less than its position; the tour still visits the waypoints
    in the order of the list, the sort keeping waypoints of equal [order]
    in place. *)
Theorem addWaypoint_extends_tour :
  forall (id1 id2 : string) (location1 location2 : Location) (prev : list Waypoint),
    map wp_order prev = map INR (seq 0 (List.length prev)) ->
    let once := addWaypoint id1 location1 prev prev in
    let twice := addWaypoint id2 location2 prev once in
    byOrder prev = prev /\
    map wp_order once = map INR (seq 0 (List.length once)) /\
    byOrder once = prev ++ [mkWaypoint id1 location1 (INR (List.length prev))] /\
    map wp_order twice =
      map INR (seq 0 (List.length prev)) ++ [INR (List.length prev); INR (List.length prev)] /\
    byOrder twice =
      prev ++ [mkWaypoint id1 location1 (INR (List.length prev));
               mkWaypoint id2 location2 (INR (List.length prev))].
Proof.
  intros id1 id2 location1 location2 prev Hprev once twice.
  set (n := List.length prev) in *.
  assert (Honce : map wp_order once = map INR (seq 0 n) ++ [INR n]).
  { unfold once, addWaypoint. rewrite map_app, Hprev. reflexivity. }
  assert (Htwice : map wp_order twice = map INR (seq 0 n) ++ [INR n; INR n]).
  { unfold twice, addWaypoint. fold (addWaypoint id1 location1 prev prev). fold once.
    rewrite (map_app wp_order once). rewrite Honce, <- app_assoc. reflexivity. }
  split; [|split; [|split; [|split]]].
  - apply byOrder_sorted. rewrite Hprev, <- (app_nil_r (map INR (seq 0 n))).
    apply sorted_numbers_app; constructor.
  - rewrite Honce. unfold once, addWaypoint. rewrite length_app. fold n.
    cbn [List.length]. replace (n + 1)%nat with (S n) by lia.
    rewrite seq_S, map_app. reflexivity.
  - change (byOrder once = once).
    apply byOrder_sorted. rewrite Honce. apply sorted_numbers_app.
    + repeat constructor.
    + constructor; [apply Rle_refl | constructor].
  - exact Htwice.
  - transitivity twice.
    + apply byOrder_sorted. rewrite Htwice. apply sorted_numbers_app.
      * constructor; [repeat constructor|]. constructor; [apply Rle_refl | constructor].
      * constructor; [apply Rle_refl|]. constructor; [apply Rle_refl | constructor].
    + unfold twice, once, addWaypoint. fold n. rewrite <- app_assoc. reflexivity.
Qed.

Lemma addWaypoint_extends_tour_witness :
  byOrder (addWaypoint "w" (locationOf Example.s) [] []) =
    [mkWaypoint "w" (locationOf Example.s) (INR 0)].
Proof.
  apply (addWaypoint_extends_tour "w" "v" (locationOf Example.s) (locationOf Example.s) []).
  reflexivity.
Defined.
